(** * HashMap and HashSet (patrickthe1/Hashmap): a shallow embedding

    The two JavaScript classes [HashMap] (linked-list chaining) and
    [HashSet] (one JavaScript [Set] per bucket) are embedded as pure
    functions over explicit table states.

    - JavaScript numbers are IEEE 754 binary64 values.  The hash code and
      the load-factor test are computed with the Standard Library's
      specification of binary64 ([SpecFloat], [prec = 53], [emax = 1024]).
    - [size] and [capacity] hold integers; they are carried as [Z] and [N]
      (a table never holds 2^53 entries, below which integers are exact).
    - [new Array(n)] throws a [RangeError] unless [n] is an integer in
      [0, 2^32); a thrown error aborts the run of the calling method.
    - [this.storage] is a JavaScript array used as a property map: element
      [i] for an integer index, and a named property such as ["NaN"] for
      any other number.  It is a [gmap] over property keys.
    - [set]/[_resize] (and [add]/[_resize]) call each other; the recursion
      is bounded by a depth counter which thirty-four levels always cover
      (every nested [_resize] doubles [capacity], and [new Array] refuses
      2^32). *)

From Stdlib Require Import ZArith NArith List String Ascii Lia.
From Stdlib Require Import Floats.SpecFloat.
From stdpp Require Import base decidable countable option list gmap.

Local Open Scope Z_scope.

(** ** JavaScript numbers *)

Definition prec : Z := 53.
Definition emax : Z := 1024.

Abbreviation number := spec_float.

Definition nan : number := S754_nan.
Definition pos_zero : number := S754_zero false.
Definition pos_infinity : number := S754_infinity false.

(** The number denoted by an integer literal or held by an integer field
    (exact below 2^53). *)
Definition num (z : Z) : number := binary_normalize prec emax z 0 false.

Definition js_mul : number -> number -> number := SFmul prec emax.
Definition js_add : number -> number -> number := SFadd prec emax.
Definition js_div : number -> number -> number := SFdiv prec emax.
(** [x > y] *)
Definition js_gt (x y : number) : bool := SFltb y x.

#[global] Instance spec_float_eq_dec : EqDecision spec_float.
Proof. solve_decision. Defined.

Definition spec_float_enc (x : spec_float) : bool + bool + unit + bool * positive * Z :=
  match x with
  | S754_zero s => inl (inl (inl s))
  | S754_infinity s => inl (inl (inr s))
  | S754_nan => inl (inr tt)
  | S754_finite s m e => inr (s, m, e)
  end.

Definition spec_float_dec (y : bool + bool + unit + bool * positive * Z) : spec_float :=
  match y with
  | inl (inl (inl s)) => S754_zero s
  | inl (inl (inr s)) => S754_infinity s
  | inl (inr _) => S754_nan
  | inr (s, m, e) => S754_finite s m e
  end.

#[global] Instance spec_float_countable : Countable spec_float.
Proof.
  refine (inj_countable' spec_float_enc spec_float_dec _).
  intros []; reflexivity.
Defined.

(** ** Strings and values *)

(** A JavaScript string is a sequence of UTF-16 code units. *)
Definition jsstring := list N.

(** The string written with the given Latin-1 characters. *)
Definition str (s : string) : jsstring := map N_of_ascii (list_ascii_of_string s).

(** [s.repeat(n)] *)
Definition str_repeat (s : jsstring) (n : nat) : jsstring := concat (replicate n s).

Inductive jsval : Type :=
  | VUndefined
  | VNull
  | VBoolean (b : bool)
  | VNumber (x : number)
  | VString (s : jsstring)
  | VObject (ref : N).

#[global] Instance jsval_eq_dec : EqDecision jsval.
Proof. solve_decision. Defined.

(** ** Property keys of the storage array *)

(** [storage[x]] reads element [i] when the number [x] is the integer [i],
    and otherwise the property named by [x] (["NaN"], ["0.5"], ...). *)
Inductive index : Type :=
  | Slot (i : N)
  | Named (x : number).

#[global] Instance index_eq_dec : EqDecision index.
Proof. solve_decision. Defined.

#[global] Instance index_countable : Countable index.
Proof.
  refine (inj_countable'
            (fun i => match i with Slot n => inl n | Named x => inr x end)
            (fun y => match y with inl n => Slot n | inr x => Named x end) _).
  intros []; reflexivity.
Defined.

(** ** Outcomes of methods that may throw *)

Inductive outcome (A : Type) : Type :=
  | Returned (a : A)
  | RangeError
  | OutOfFuel.
Arguments Returned {A} a.
Arguments RangeError {A}.
Arguments OutOfFuel {A}.

(** [for (const x of xs) body(x)], stopping at the first throw. *)
Fixpoint for_of {A S : Type} (body : A -> S -> outcome S) (xs : list A) (s : S)
  : outcome S :=
  match xs with
  | [] => Returned s
  | x :: rest =>
      match body x s with
      | Returned s' => for_of body rest s'
      | RangeError => RangeError
      | OutOfFuel => OutOfFuel
      end
  end.

(** [new Array(n)] for an integer [n]: an array without elements, or a
    [RangeError] when [n] is not in [0, 2^32). *)
Definition new_Array {V : Type} (n : Z) : outcome (gmap index V) :=
  if (0 <=? n) && (n <? 2 ^ 32) then Returned ∅ else RangeError.

(** How a method call ends, with the object it leaves: the call returns,
    or it throws [RangeError] and [this] stays as it is at the throw,
    which is what a caller that catches the error goes on to use. *)
Inductive completion (A : Type) : Type :=
  | Normal (a : A)
  | Throw (a : A)
  | Unfinished.
Arguments Normal {A} a.
Arguments Throw {A} a.
Arguments Unfinished {A}.

(** What the caller sees of a completion. *)
Definition seen {A : Type} (c : completion A) : outcome A :=
  match c with
  | Normal a => Returned a
  | Throw _ => RangeError
  | Unfinished => OutOfFuel
  end.

(** [for (const x of xs) body(x)]: a throw of the body ends the loop and
    is the loop's, with the object as the body left it. *)
Fixpoint for_of_completion {A S : Type} (body : A -> S -> completion S)
         (xs : list A) (s : S) : completion S :=
  match xs with
  | [] => Normal s
  | x :: rest =>
      match body x s with
      | Normal s' => for_of_completion body rest s'
      | Throw s' => Throw s'
      | Unfinished => Unfinished
      end
  end.

(** ** Hashing, shared by both classes (the two copies are identical) *)

(** [hash(key)]: [hashCode = primeNumber * hashCode + key.charCodeAt(i)]. *)
Definition hash (key : jsstring) : number :=
  let primeNumber := num 31 in
  fold_left (fun hashCode c => js_add (js_mul primeNumber hashCode) (num (Z.of_N c)))
            key (num 0).

(** [Math.abs(hashCode) % capacity].  The remainder of a division is exact
    in IEEE arithmetic; an integral result is carried as that integer, any
    other result as the number itself. *)
Definition _getIndex (hashCode : number) (capacity : N) : index :=
  match SFabs hashCode with
  | S754_nan | S754_infinity _ => Named nan
  | S754_zero _ => if (capacity =? 0)%N then Named nan else Slot 0
  | S754_finite _ m e =>
      if (capacity =? 0)%N then Named nan else
      match e with
      | Zneg p =>
          let d := (2 ^ Npos p)%N in
          if (Npos m mod d =? 0)%N then Slot ((Npos m / d) mod capacity)%N
          else Named (binary_normalize prec emax
                        (Z.of_N (Npos m mod (capacity * d))) e false)
      | _ => Slot ((Npos m * 2 ^ Z.to_N e) mod capacity)%N
      end
  end.

(** [(size / capacity) > loadFactor] *)
Definition should_resize (size : Z) (capacity : N) (loadFactor : number) : bool :=
  js_gt (js_div (num size) (num (Z.of_N capacity))) loadFactor.

(** ** Keys whose hash code is an integer *)

(** Is the number an integer (so neither [NaN] nor an infinity)? *)
Definition integral (x : number) : bool :=
  match x with
  | S754_zero _ => true
  | S754_finite _ m e =>
      match e with
      | Zneg p => (Npos m mod 2 ^ Npos p =? 0)%N
      | _ => true
      end
  | _ => false
  end.

(** The hash code of the key did not overflow. *)
Definition regular (k : jsstring) : Prop := integral (hash k) = true.

(** ** class HashMap *)

Module HashMap.

(** [class Node]: [next] is the rest of the chain. *)
Record Node : Type := mkNode { key : jsstring; value : jsval }.

#[global] Instance Node_eq_dec : EqDecision Node.
Proof. solve_decision. Defined.

Record t : Type := mk {
  storage : gmap index (list Node);
  size : Z;
  capacity : N;
  loadFactor : number
}.

(** [constructor(initialCapacity = 16, loadFactor = 0.75)] *)
Definition new (initialCapacity : Z) (loadFactor : number) : outcome t :=
  match new_Array initialCapacity with
  | Returned storage =>
      Returned {| storage := storage; size := 0;
                  capacity := Z.to_N initialCapacity; loadFactor := loadFactor |}
  | RangeError => RangeError
  | OutOfFuel => OutOfFuel
  end.

(** The chain found at [this.storage[index]]: a slot that was never
    written ([undefined]) and an emptied one ([null]) are both falsy. *)
Definition bucket (m : t) (i : index) : list Node := default [] (storage m !! i).

(** [this.storage[i] = chain; this.size = size'] *)
Definition put_bucket (m : t) (i : index) (chain : list Node) (size' : Z) : t :=
  {| storage := <[i := chain]> (storage m); size := size';
     capacity := capacity m; loadFactor := loadFactor m |}.

Definition index_of (key : jsstring) (m : t) : index :=
  _getIndex (hash key) (capacity m).

Definition _shouldResize (m : t) : bool :=
  should_resize (size m) (capacity m) (loadFactor m).

(** The traversal shared by [keys], [values] and [entries]:
    buckets [0 .. capacity-1], each chain from head to tail. *)
Definition keys (m : t) : list jsstring :=
  flat_map (fun i => map key (bucket m (Slot (N.of_nat i))))
           (seq 0 (N.to_nat (capacity m))).

Definition values (m : t) : list jsval :=
  flat_map (fun i => map value (bucket m (Slot (N.of_nat i))))
           (seq 0 (N.to_nat (capacity m))).

Definition entries (m : t) : list (jsstring * jsval) :=
  flat_map (fun i => map (fun n => (key n, value n)) (bucket m (Slot (N.of_nat i))))
           (seq 0 (N.to_nat (capacity m))).

(** The walk of [set] along a chain: either a node with the key is found
    and its value overwritten, or the new node is linked at the tail. *)
Inductive walk : Type :=
  | Overwritten (chain : list Node)
  | Appended (chain : list Node).

Fixpoint chain_set (k : jsstring) (v : jsval) (chain : list Node) : walk :=
  match chain with
  | [] => Appended [mkNode k v]
  | current :: next =>
      if decide (key current = k) then Overwritten (mkNode (key current) v :: next)
      else match chain_set k v next with
           | Overwritten next' => Overwritten (current :: next')
           | Appended next' => Appended (current :: next')
           end
  end.

(** [_resize()], given the re-entrant [set].  A [RangeError] here carries
    no table; the object that the throw leaves is given by
    [_resize_completion] below. *)
Definition _resize_with (set : jsstring -> jsval -> t -> outcome t) (m : t)
  : outcome t :=
  let oldEntries := entries m in
  let capacity' := (capacity m * 2)%N in
  match new_Array (Z.of_N capacity') with
  | Returned storage' =>
      for_of (fun '(k, v) m' => set k v m') oldEntries
             {| storage := storage'; size := 0;
                capacity := capacity'; loadFactor := loadFactor m |}
  | RangeError => RangeError
  | OutOfFuel => OutOfFuel
  end.

Fixpoint set_fuel (fuel : nat) (k : jsstring) (v : jsval) (m : t) : outcome t :=
  match fuel with
  | O => OutOfFuel
  | S fuel' =>
      let index := index_of k m in
      match chain_set k v (bucket m index) with
      | Overwritten chain => Returned (put_bucket m index chain (size m))
      | Appended chain =>
          let m1 := put_bucket m index chain (size m + 1) in
          if _shouldResize m1 then _resize_with (set_fuel fuel') m1
          else Returned m1
      end
  end.

(** Nesting depth that no call reaches. *)
Definition depth : nat := 34.

Definition set (k : jsstring) (v : jsval) (m : t) : outcome t :=
  set_fuel depth k v m.

Definition _resize (m : t) : outcome t := _resize_with (set_fuel depth) m.

(** [_resize()] with the object it leaves.  [this.capacity *= 2] runs
    before [new Array(this.capacity)]: when that throws, the capacity is
    doubled while [storage] and [size] are the old ones.  A throw of a
    re-entrant [set] leaves the half-filled new table. *)
Definition _resize_completion (set : jsstring -> jsval -> t -> completion t) (m : t)
  : completion t :=
  let oldEntries := entries m in
  let capacity' := (capacity m * 2)%N in
  match new_Array (Z.of_N capacity') with
  | Returned storage' =>
      for_of_completion (fun '(k, v) m' => set k v m') oldEntries
             {| storage := storage'; size := 0;
                capacity := capacity'; loadFactor := loadFactor m |}
  | RangeError =>
      Throw {| storage := storage m; size := size m;
               capacity := capacity'; loadFactor := loadFactor m |}
  | OutOfFuel => Unfinished
  end.

(** [set(k, v)] with the object it leaves: when [_resize] throws, the
    node is already stored and [size] incremented. *)
Fixpoint set_completion_fuel (fuel : nat) (k : jsstring) (v : jsval) (m : t)
  : completion t :=
  match fuel with
  | O => Unfinished
  | S fuel' =>
      let index := index_of k m in
      match chain_set k v (bucket m index) with
      | Overwritten chain => Normal (put_bucket m index chain (size m))
      | Appended chain =>
          let m1 := put_bucket m index chain (size m + 1) in
          if _shouldResize m1 then _resize_completion (set_completion_fuel fuel') m1
          else Normal m1
      end
  end.

Definition set_completion (k : jsstring) (v : jsval) (m : t) : completion t :=
  set_completion_fuel depth k v m.

Fixpoint chain_get (k : jsstring) (chain : list Node) : jsval :=
  match chain with
  | [] => VNull
  | current :: next =>
      if decide (key current = k) then value current else chain_get k next
  end.

Definition get (k : jsstring) (m : t) : jsval :=
  chain_get k (bucket m (index_of k m)).

Fixpoint chain_has (k : jsstring) (chain : list Node) : bool :=
  match chain with
  | [] => false
  | current :: next =>
      if decide (key current = k) then true else chain_has k next
  end.

Definition has (k : jsstring) (m : t) : bool :=
  chain_has k (bucket m (index_of k m)).

(** The chain without its first node holding the key, if there is one. *)
Fixpoint chain_remove (k : jsstring) (chain : list Node) : option (list Node) :=
  match chain with
  | [] => None
  | current :: next =>
      if decide (key current = k) then Some next
      else match chain_remove k next with
           | Some next' => Some (current :: next')
           | None => None
           end
  end.

Definition remove (k : jsstring) (m : t) : bool * t :=
  let index := index_of k m in
  match chain_remove k (bucket m index) with
  | Some chain => (true, put_bucket m index chain (size m - 1))
  | None => (false, m)
  end.

Definition length (m : t) : Z := size m.

Definition clear (m : t) : outcome t :=
  match new_Array (Z.of_N (capacity m)) with
  | Returned storage' =>
      Returned {| storage := storage'; size := 0;
                  capacity := capacity m; loadFactor := loadFactor m |}
  | RangeError => RangeError
  | OutOfFuel => OutOfFuel
  end.

(** Table states built through the public methods by calls that all
    returned.  The object left by a [set] that threw is not among them:
    it is what [set_completion] gives. *)
Inductive reachable : t -> Prop :=
  | reach_new c lf m : new c lf = Returned m -> reachable m
  | reach_set k v m m' : reachable m -> set k v m = Returned m' -> reachable m'
  | reach_remove k m : reachable m -> reachable (snd (remove k m))
  | reach_clear m m' : reachable m -> clear m = Returned m' -> reachable m'.

(** One call of a public method; the read-only methods ([get], [has],
    [length], [keys], [values], [entries]) leave the table as it is. *)
Inductive step : t -> t -> Prop :=
  | step_set k v m m' : set k v m = Returned m' -> step m m'
  | step_remove k m : step m (snd (remove k m))
  | step_clear m m' : clear m = Returned m' -> step m m'
  | step_read m : step m m.

(** [set(k1, v1); set(k2, v2); ...] *)
Definition set_all (kvs : list (jsstring * jsval)) (m : t) : outcome t :=
  for_of (fun '(k, v) m' => set k v m') kvs m.

(** No chain holds a key twice. *)
Definition chains_nodup (m : t) : Prop := forall i, NoDup (map key (bucket m i)).

(** What the table holds for a key, as [has] and [get] report it. *)
Definition lookup (m : t) (k : jsstring) : option jsval :=
  if has k m then Some (get k m) else None.

(** A table all of whose keys have integral hash codes: every node sits
    in the bucket of its key, no chain repeats a key, and [size] counts
    the nodes that the traversals visit. *)
Definition wf (m : t) : Prop :=
  (0 < capacity m)%N /\
  chains_nodup m /\
  (forall i n, n ∈ bucket m i -> index_of (key n) m = i /\ regular (key n)) /\
  size m = Z.of_nat (List.length (entries m)).

(** What [set] does on a well-formed table, for a key with an integral
    hash code, at a given depth. *)
Definition set_spec (f : nat) : Prop :=
  forall k v m m',
    wf m -> regular k -> set_fuel f k v m = Returned m' ->
    wf m' /\ forall k', lookup m' k' = if decide (k' = k) then Some v else lookup m k'.

End HashMap.

(** ** class HashSet *)

Module HashSet.

(** A bucket is a JavaScript [Set] of strings: its elements, without
    repetition, in insertion order. *)
Definition Set_has (k : jsstring) (b : list jsstring) : bool := bool_decide (k ∈ b).
Definition Set_add (k : jsstring) (b : list jsstring) : list jsstring :=
  if Set_has k b then b else b ++ [k].
Definition Set_delete (k : jsstring) (b : list jsstring) : list jsstring :=
  filter (fun k' => k' ≠ k) b.

(** A slot of [storage] is [undefined] ([None]) or holds a [Set], which
    is truthy even when it has no element. *)
Record t : Type := mk {
  storage : gmap index (list jsstring);
  size : Z;
  capacity : N;
  loadFactor : number
}.

(** [constructor(initialCapacity = 16, loadFactor = 0.75)] *)
Definition new (initialCapacity : Z) (loadFactor : number) : outcome t :=
  match new_Array initialCapacity with
  | Returned storage =>
      Returned {| storage := storage; size := 0;
                  capacity := Z.to_N initialCapacity; loadFactor := loadFactor |}
  | RangeError => RangeError
  | OutOfFuel => OutOfFuel
  end.

(** [this.storage[i] = b; this.size = size'] *)
Definition put_bucket (s : t) (i : index) (b : list jsstring) (size' : Z) : t :=
  {| storage := <[i := b]> (storage s); size := size';
     capacity := capacity s; loadFactor := loadFactor s |}.

Definition index_of (key : jsstring) (s : t) : index :=
  _getIndex (hash key) (capacity s).

Definition _shouldResize (s : t) : bool :=
  should_resize (size s) (capacity s) (loadFactor s).

(** The elements of the [Set] at [this.storage[i]], none when the slot is
    [undefined]. *)
Definition bucket (s : t) (i : index) : list jsstring := default [] (storage s !! i).

(** [keys()]: [allKeys.push(...this.storage[i])] for [i] in
    [0 .. capacity-1]. *)
Definition keys (s : t) : list jsstring :=
  flat_map (fun i => bucket s (Slot (N.of_nat i))) (seq 0 (N.to_nat (capacity s))).

(** [_resize()], given the re-entrant [add].  A [RangeError] here carries
    no set; the object that the throw leaves is given by
    [_resize_completion] below. *)
Definition _resize_with (add : jsstring -> t -> outcome t) (s : t) : outcome t :=
  let oldKeys := keys s in
  let capacity' := (capacity s * 2)%N in
  match new_Array (Z.of_N capacity') with
  | Returned storage' =>
      for_of add oldKeys
             {| storage := storage'; size := 0;
                capacity := capacity'; loadFactor := loadFactor s |}
  | RangeError => RangeError
  | OutOfFuel => OutOfFuel
  end.

(** The table once [add] has run its two [if] statements. *)
Definition inserted (k : jsstring) (s : t) : t :=
  let index := index_of k s in
  (* if (!this.storage[index]) this.storage[index] = new Set() *)
  let s1 :=
    match storage s !! index with
    | Some _ => s
    | None => put_bucket s index [] (size s)
    end in
  let b := default [] (storage s1 !! index) in
  (* if (!this.storage[index].has(key)) { this.storage[index].add(key); this.size++ } *)
  if Set_has k b then s1
  else put_bucket s1 index (Set_add k b) (size s1 + 1).

Fixpoint add_fuel (fuel : nat) (k : jsstring) (s : t) : outcome t :=
  match fuel with
  | O => OutOfFuel
  | S fuel' =>
      let s2 := inserted k s in
      if _shouldResize s2 then _resize_with (add_fuel fuel') s2
      else Returned s2
  end.

(** Nesting depth that no call reaches. *)
Definition depth : nat := 34.

Definition add (k : jsstring) (s : t) : outcome t := add_fuel depth k s.

Definition _resize (s : t) : outcome t := _resize_with (add_fuel depth) s.

(** [_resize()] with the object it leaves: when [new Array] throws, the
    capacity is doubled while [storage] and [size] are the old ones. *)
Definition _resize_completion (add : jsstring -> t -> completion t) (s : t)
  : completion t :=
  let oldKeys := keys s in
  let capacity' := (capacity s * 2)%N in
  match new_Array (Z.of_N capacity') with
  | Returned storage' =>
      for_of_completion add oldKeys
             {| storage := storage'; size := 0;
                capacity := capacity'; loadFactor := loadFactor s |}
  | RangeError =>
      Throw {| storage := storage s; size := size s;
               capacity := capacity'; loadFactor := loadFactor s |}
  | OutOfFuel => Unfinished
  end.

(** [add(k)] with the object it leaves: when [_resize] throws, the key is
    already in its bucket and counted. *)
Fixpoint add_completion_fuel (fuel : nat) (k : jsstring) (s : t) : completion t :=
  match fuel with
  | O => Unfinished
  | S fuel' =>
      let s2 := inserted k s in
      if _shouldResize s2 then _resize_completion (add_completion_fuel fuel') s2
      else Normal s2
  end.

Definition add_completion (k : jsstring) (s : t) : completion t :=
  add_completion_fuel depth k s.

Definition has (k : jsstring) (s : t) : bool :=
  match storage s !! index_of k s with
  | Some b => Set_has k b
  | None => false
  end.

Definition remove (k : jsstring) (s : t) : bool * t :=
  let index := index_of k s in
  match storage s !! index with
  | Some b =>
      if Set_has k b then (true, put_bucket s index (Set_delete k b) (size s - 1))
      else (false, s)
  | None => (false, s)
  end.

Definition length (s : t) : Z := size s.

Definition clear (s : t) : outcome t :=
  match new_Array (Z.of_N (capacity s)) with
  | Returned storage' =>
      Returned {| storage := storage'; size := 0;
                  capacity := capacity s; loadFactor := loadFactor s |}
  | RangeError => RangeError
  | OutOfFuel => OutOfFuel
  end.

(** Set states built through the public methods by calls that all
    returned.  The object left by an [add] that threw is not among them:
    it is what [add_completion] gives. *)
Inductive reachable : t -> Prop :=
  | reach_new c lf s : new c lf = Returned s -> reachable s
  | reach_add k s s' : reachable s -> add k s = Returned s' -> reachable s'
  | reach_remove k s : reachable s -> reachable (snd (remove k s))
  | reach_clear s s' : reachable s -> clear s = Returned s' -> reachable s'.

(** One call of a public method; [has], [length] and [keys] leave the
    table as it is. *)
Inductive step : t -> t -> Prop :=
  | step_add k s s' : add k s = Returned s' -> step s s'
  | step_remove k s : step s (snd (remove k s))
  | step_clear s s' : clear s = Returned s' -> step s s'
  | step_read s : step s s.


(** A set all of whose keys have integral hash codes: every key sits in
    its own bucket, once, and [size] counts the keys that [keys] visits. *)
Definition wf (s : t) : Prop :=
  (0 < capacity s)%N /\
  (forall i, NoDup (bucket s i)) /\
  (forall i k, k ∈ bucket s i -> index_of k s = i /\ regular k) /\
  size s = Z.of_nat (List.length (keys s)).

(** What [add] does on a well-formed set, for a key with an integral
    hash code, at a given depth. *)
Definition add_spec (f : nat) : Prop :=
  forall k s s',
    wf s -> regular k -> add_fuel f k s = Returned s' ->
    wf s' /\ forall k', has k' s' = if decide (k' = k) then true else has k' s.

End HashSet.

(** ** Auxiliary notions *)

(** How far [capacity] is from the bound of [new Array]: an upper bound
    on the nesting of [_resize]. *)
Definition headroom (c : N) : nat := S (N.to_nat (32 - N.log2 c)).

(** The value of an outcome that returned. *)
Definition returned {A : Type} (o : outcome A) (default : A) : A :=
  match o with
  | Returned a => a
  | _ => default
  end.

(** [0.75], the default load factor. *)
Definition three_quarters : number := S754_finite false 6755399441055744 (-53).

(** ['a'.repeat(300)]: its hash code overflows to [Infinity]. *)
Definition long_key : jsstring := str_repeat (str "a") 300.

(** Does [storage[i]] lie among the slots [0 .. capacity-1] that [keys],
    [values] and [entries] visit? *)
Definition visited (i : index) (capacity : N) : bool :=
  match i with
  | Slot j => (j <? capacity)%N
  | Named _ => false
  end.

(** The calls of [main.js]. *)
Definition main_js : list (jsstring * jsval) :=
  map (fun '(k, v) => (str k, VString (str v)))
      [("apple", "red"); ("banana", "yellow"); ("carrot", "orange");
       ("dog", "brown"); ("elephant", "gray"); ("frog", "green");
       ("grape", "purple"); ("hat", "black"); ("ice cream", "white");
       ("jacket", "blue"); ("kite", "pink"); ("lion", "golden");
       ("lion", "Glowing golden"); ("moon", "silver")]%string.

(** Its first twelve keys, all different. *)
Definition twelve_keys : list (jsstring * jsval) := take 12 main_js.

(** Thirteen keys, all different. *)
Definition thirteen_keys : list (jsstring * jsval) :=
  twelve_keys ++ [(str "moon", VString (str "silver"))].

(** [new HashMap()] and [new HashSet()], with the default arguments. *)
Definition default_map : HashMap.t := HashMap.mk ∅ 0 16 three_quarters.
Definition default_set : HashSet.t := HashSet.mk ∅ 0 16 three_quarters.

(** The table after [set('lion', 'golden')] on a new map, and the set
    after [add('lion')] on a new set. *)
Definition lion_map : HashMap.t :=
  returned (HashMap.set (str "lion") (VString (str "golden")) default_map) default_map.
Definition lion_set : HashSet.t :=
  returned (HashSet.add (str "lion") default_set) default_set.

(** The table after [set('a', 1); set('q', 2)] on a new map: both keys
    hash to bucket 1. *)
Definition chain_map : HashMap.t :=
  returned (HashMap.set_all [(str "a", VNumber (num 1)); (str "q", VNumber (num 2))]
                            default_map) default_map.

(** The table after [set('zero', 0)] on a new map. *)
Definition zero_map : HashMap.t :=
  returned (HashMap.set (str "zero") (VNumber (num 0)) default_map) default_map.

(** The table after the calls of [main.js]. *)
Definition main_map : HashMap.t :=
  returned (HashMap.set_all main_js default_map) default_map.

(** ** Further notions *)

(** The number of nodes (or of set elements) that [storage] holds,
    whatever the property they hang from, the named ones included. *)
Definition node_count {A : Type} (storage : gmap index (list A)) : nat :=
  map_fold (fun _ chain n => (List.length chain + n)%nat) 0%nat storage.

(** Every node of the map sits in the bucket of its key, and [size]
    counts the nodes. *)
Definition map_sound (m : HashMap.t) : Prop :=
  (forall i n, n ∈ HashMap.bucket m i -> HashMap.index_of (HashMap.key n) m = i) /\
  HashMap.size m = Z.of_nat (node_count (HashMap.storage m)).

(** Every key of the set sits in its own bucket, no bucket repeats a key,
    and [size] counts the keys. *)
Definition set_sound (s : HashSet.t) : Prop :=
  (forall i, NoDup (HashSet.bucket s i)) /\
  (forall i k, k ∈ HashSet.bucket s i -> HashSet.index_of k s = i) /\
  HashSet.size s = Z.of_nat (node_count (HashSet.storage s)).

(** Calls of the methods of a [HashMap] that change it. *)
Inductive map_op : Type :=
  | OpSet (k : jsstring) (v : jsval)
  | OpRemove (k : jsstring)
  | OpClear.

Definition map_call (op : map_op) (m : HashMap.t) : outcome HashMap.t :=
  match op with
  | OpSet k v => HashMap.set k v m
  | OpRemove k => Returned (snd (HashMap.remove k m))
  | OpClear => HashMap.clear m
  end.

(** Is the key of a [set] among the keys whose hash code is an integer? *)
Definition map_op_regular (op : map_op) : Prop :=
  match op with
  | OpSet k _ => regular k
  | _ => True
  end.

(** Calls of the methods of a [HashSet] that change it. *)
Inductive set_op : Type :=
  | OpAdd (k : jsstring)
  | OpDelete (k : jsstring)
  | OpReset.

Definition set_call (op : set_op) (s : HashSet.t) : outcome HashSet.t :=
  match op with
  | OpAdd k => HashSet.add k s
  | OpDelete k => Returned (snd (HashSet.remove k s))
  | OpReset => HashSet.clear s
  end.

Definition set_op_regular (op : set_op) : Prop :=
  match op with
  | OpAdd k => regular k
  | _ => True
  end.

(** [main.js]: the values it passes to [console.log], in order. *)
Definition main_js_log : outcome (list jsval) :=
  match HashMap.new 16 three_quarters with
  | Returned test =>
      match HashMap.set_all main_js test with
      | Returned test =>
          let removed := HashMap.remove (str "lion") test in
          Returned [VNumber (num (HashMap.length test));
                    VNumber (num (Z.of_N (HashMap.capacity test)));
                    HashMap.get (str "lion") test;
                    VBoolean (HashMap.has (str "moon") test);
                    VBoolean (fst removed);
                    VNumber (num (HashMap.length (snd removed)))]
      | RangeError => RangeError
      | OutOfFuel => OutOfFuel
      end
  | RangeError => RangeError
  | OutOfFuel => OutOfFuel
  end.

(** [new HashMap(2 ** 31, 1e-10)] and [new HashSet(2 ** 31, 1e-10)]. *)
Definition tiny_load : number := js_div (num 1) (num 10000000000).
Definition wide_map : HashMap.t := HashMap.mk ∅ 0 2147483648 tiny_load.
Definition wide_set : HashSet.t := HashSet.mk ∅ 0 2147483648 tiny_load.

(** The table after the first twelve calls of [main.js]. *)
Definition twelve_map : HashMap.t :=
  returned (HashMap.set_all twelve_keys default_map) default_map.

(** Is the number [+0], a positive finite number or [+Infinity]? *)
Definition is_nonneg (x : number) : bool :=
  match x with
  | S754_zero false | S754_finite false _ _ | S754_infinity false => true
  | _ => false
  end.



(** What [new HashMap(2 ** 31, 1e-10)] is left as when [set('a', 1)]
    throws, and what [new HashSet(2 ** 31, 1e-10)] is left as when
    [add('a')] throws: the key stored and counted, the capacity doubled. *)
Definition thrown_map : HashMap.t :=
  HashMap.mk {[ Slot 97 := [HashMap.mkNode (str "a") (VNumber (num 1))] ]}
             1 4294967296 tiny_load.
Definition thrown_set : HashSet.t :=
  HashSet.mk {[ Slot 97 := [str "a"] ]} 1 4294967296 tiny_load.

Lemma num_0 : num 0 = pos_zero.
Proof. reflexivity. Qed.

Example three_quarters_is_3_over_4 : three_quarters = js_div (num 3) (num 4).
Proof. vm_compute. reflexivity. Qed.

Lemma should_resize_zero (c : N) (lf : number) :
  js_gt lf (num 0) = true -> should_resize 0 c lf = false.
Proof.
  unfold should_resize, js_gt, js_div. rewrite num_0. unfold pos_zero.
  intros Hlf.
  destruct (num (Z.of_N c)) as [s|s| |s m e]; simpl;
    destruct lf as [s'|s'| |s' m' e']; simpl in *; try discriminate; try reflexivity;
    destruct s'; try discriminate; try reflexivity; destruct s; reflexivity.
Qed.

(** nonneg through shr *)
Lemma shr_1_nonneg mrs : 0 <= shr_m mrs -> 0 <= shr_m (shr_1 mrs).
Proof.
  destruct mrs as [m r s]. simpl. destruct m as [|p|p]; simpl; try lia.
  - destruct p; simpl; lia.
Qed.

Lemma iter_pos_shr_1_nonneg p mrs :
  0 <= shr_m mrs -> 0 <= shr_m (SpecFloat.iter_pos shr_1 p mrs).
Proof.
  revert mrs. induction p as [p IH|p IH|]; intros mrs H; simpl.
  - apply IH, IH, shr_1_nonneg, H.
  - apply IH, IH, H.
  - apply shr_1_nonneg, H.
Qed.

Lemma shr_fexp_nonneg m e l :
  0 <= m -> 0 <= shr_m (fst (shr_fexp prec emax m e l)).
Proof.
  intros H. unfold shr_fexp, shr.
  assert (H0 : 0 <= shr_m (shr_record_of_loc m l)).
  { destruct l as [|[]]; simpl; exact H. }
  destruct (fexp prec emax (Zdigits2 m + e) - e); simpl; auto.
  apply iter_pos_shr_1_nonneg, H0.
Qed.

Lemma round_nearest_even_nonneg m l : 0 <= m -> 0 <= round_nearest_even m l.
Proof.
  intros H. destruct l as [|[]]; simpl; try lia.
  destruct (Z.even m); lia.
Qed.

Lemma binary_round_aux_not_nan s m e l :
  0 <= m -> binary_round_aux prec emax s m e l <> S754_nan.
Proof.
  intros H. unfold binary_round_aux.
  pose proof (shr_fexp_nonneg m e l H) as H1.
  destruct (shr_fexp prec emax m e l) as [mrs' e'] eqn:E1. simpl in H1.
  pose proof (shr_fexp_nonneg _ e' loc_Exact
                (round_nearest_even_nonneg _ (loc_of_shr_record mrs') H1)) as H2.
  destruct (shr_fexp prec emax (round_nearest_even _ _) e' loc_Exact) as [mrs'' e''].
  simpl in H2. destruct (shr_m mrs'') as [|p|p]; try discriminate; try lia.
  destruct (e'' <=? emax - prec); discriminate.
Qed.


Lemma digits2_pos_iter_xO p k :
  digits2_pos (Pos.iter xO p k) = (digits2_pos p + k)%positive.
Proof.
  induction k as [|k IH] using Pos.peano_ind.
  - simpl. lia.
  - rewrite Pos.iter_succ. simpl. rewrite IH. lia.
Qed.

Lemma shr_fexp_exact m e :
  fexp prec emax (Zdigits2 m + e) - e <= 0 ->
  shr_fexp prec emax m e loc_Exact
  = ({| shr_m := m; shr_r := false; shr_s := false |}, e).
Proof.
  intros H. unfold shr_fexp, shr. simpl.
  destruct (fexp prec emax (Zdigits2 m + e) - e); try reflexivity; lia.
Qed.

Lemma binary_round_aux_exact s m e :
  fexp prec emax (Z.pos (digits2_pos m) + e) = e -> e <= emax - prec ->
  binary_round_aux prec emax s (Z.pos m) e loc_Exact = S754_finite s m e.
Proof.
  intros Hc He. unfold binary_round_aux.
  rewrite shr_fexp_exact by (simpl; lia). simpl.
  rewrite shr_fexp_exact by (simpl; lia). simpl.
  destruct (Z.leb_spec e (emax - prec)); [reflexivity | lia].
Qed.

Lemma digits2_pos_bound (q : positive) (n : Z) :
  0 <= n -> Z.pos q < 2 ^ n -> Z.pos (digits2_pos q) <= n.
Proof.
  revert n. induction q as [q IH|q IH|]; intros n Hn Hq; simpl.
  - destruct (Z.eq_dec n 0) as [->|]; [simpl in Hq; lia|].
    replace n with (Z.succ (n - 1)) in Hq by lia.
    rewrite Z.pow_succ_r in Hq by lia.
    specialize (IH (n - 1) ltac:(lia) ltac:(lia)). lia.
  - destruct (Z.eq_dec n 0) as [->|]; [simpl in Hq; lia|].
    replace n with (Z.succ (n - 1)) in Hq by lia.
    rewrite Z.pow_succ_r in Hq by lia.
    specialize (IH (n - 1) ltac:(lia) ltac:(lia)). lia.
  - destruct (Z.eq_dec n 0) as [->|]; [simpl in Hq; lia|]. lia.
Qed.

Lemma iter_xO_value (p k : positive) :
  (N.pos (Pos.iter xO p k) = N.pos p * 2 ^ N.pos k)%N.
Proof.
  induction k as [|k IH] using Pos.peano_ind.
  - simpl. lia.
  - rewrite Pos.iter_succ.
    change (N.pos (Pos.iter xO p k)~0) with (2 * N.pos (Pos.iter xO p k))%N.
    rewrite IH. replace (N.pos (Pos.succ k)) with (N.succ (N.pos k)) by lia.
    rewrite N.pow_succ_r'. lia.
Qed.

(** An integer below 2^53 is a number, exactly. *)
Lemma binary_round_exact (s : bool) (p : positive) :
  Z.pos p < 2 ^ 53 ->
  exists m e,
    binary_round prec emax s p 0 = S754_finite s m e /\
    e <= 0 /\ (N.pos m = N.pos p * 2 ^ Z.to_N (- e))%N.
Proof.
  intros Hz.
  pose proof (digits2_pos_bound p 53 ltac:(lia) Hz) as Hd.
  unfold binary_round.
  assert (Hf : fexp prec emax (Z.pos (digits2_pos p) + 0) = Z.pos (digits2_pos p) - 53).
  { unfold fexp, emin, prec, emax. lia. }
  rewrite Hf. unfold shl_align.
  destruct (Z.pos (digits2_pos p) - 53 - 0) as [|q|q] eqn:E; try lia.
  - exists p, 0. split; [|split; [lia | simpl; lia]].
    apply binary_round_aux_exact.
    + unfold fexp, emin, prec, emax. lia.
    + unfold prec, emax. lia.
  - exists (Pos.iter xO p q), (Z.pos (digits2_pos p) - 53).
    split; [|split; [lia|]].
    + apply binary_round_aux_exact.
      * rewrite digits2_pos_iter_xO. unfold fexp, emin, prec, emax. lia.
      * unfold prec, emax. lia.
    + replace (Z.to_N (- (Z.pos (digits2_pos p) - 53))) with (N.pos q) by lia.
      apply iter_xO_value.
Qed.

Lemma num_pos_finite (z : Z) :
  0 < z < 2 ^ 53 -> exists m e, num z = S754_finite false m e.
Proof.
  intros Hz. destruct z as [|p|p]; try lia.
  destruct (binary_round_exact false p ltac:(lia)) as (m & e & H & _).
  exists m, e. exact H.
Qed.






Section ForOf.
Context {A S : Type} (body : A -> S -> outcome S).

Lemma for_of_inv (P : S -> Prop) (xs : list A) :
  (forall x s s', x ∈ xs -> P s -> body x s = Returned s' -> P s') ->
  forall s s', P s -> for_of body xs s = Returned s' -> P s'.
Proof.
  induction xs as [|x xs IH]; intros Hstep s s' Hs Hrun; simpl in Hrun.
  - congruence.
  - destruct (body x s) as [s1| |] eqn:E; try discriminate.
    apply (IH (fun y t t' Hy => Hstep y t t' (list_elem_of_further _ _ _ Hy)) s1 s');
      [|exact Hrun].
    eapply Hstep; [apply list_elem_of_here | exact Hs | exact E].
Qed.

Lemma for_of_fuel (P : S -> Prop) (xs : list A) :
  (forall x s, x ∈ xs -> P s -> body x s <> OutOfFuel) ->
  (forall x s s', x ∈ xs -> P s -> body x s = Returned s' -> P s') ->
  forall s, P s -> for_of body xs s <> OutOfFuel.
Proof.
  induction xs as [|x xs IH]; intros Hfuel Hstep s Hs; simpl.
  - discriminate.
  - destruct (body x s) as [s1| |] eqn:E.
    + apply IH.
      * intros y t Hy. apply Hfuel. now apply list_elem_of_further.
      * intros y t t' Hy. apply Hstep. now apply list_elem_of_further.
      * eapply Hstep; [apply list_elem_of_here | exact Hs | exact E].
    + discriminate.
    + exfalso. eapply Hfuel; [apply list_elem_of_here | exact Hs | exact E].
Qed.

Lemma for_of_app (xs ys : list A) (s : S) :
  for_of body (xs ++ ys) s
  = match for_of body xs s with
    | Returned s' => for_of body ys s'
    | RangeError => RangeError
    | OutOfFuel => OutOfFuel
    end.
Proof.
  revert s. induction xs as [|x xs IH]; intros s; simpl; [reflexivity|].
  destruct (body x s); auto.
Qed.
End ForOf.

Lemma new_Array_Returned {V : Type} (n : Z) (a : gmap index V) :
  new_Array n = Returned a -> a = ∅ /\ 0 <= n < 2 ^ 32.
Proof.
  unfold new_Array. destruct (0 <=? n) eqn:E1; destruct (n <? 2 ^ 32) eqn:E2;
    simpl; intros H; try discriminate.
  injection H as <-. split; [reflexivity|]. lia.
Qed.

Lemma new_Array_not_fuel {V : Type} (n : Z) : @new_Array V n <> OutOfFuel.
Proof. unfold new_Array. destruct (_ && _); discriminate. Qed.


Lemma headroom_double (c j : N) :
  (0 < c)%N -> (c * 2 < 2 ^ 32)%N ->
  (Datatypes.S (headroom (c * 2 * 2 ^ j)) <= headroom c)%nat.
Proof.
  intros Hc Hb. unfold headroom.
  assert (Hl : (N.log2 c < 31)%N).
  { apply N.log2_lt_pow2; [lia|]. change (2 ^ 32)%N with (2 * 2 ^ 31)%N in Hb. lia. }
  assert (Hd : (N.log2 (c * 2 * 2 ^ j) = j + N.succ (N.log2 c))%N).
  { rewrite N.log2_mul_pow2 by lia. f_equal.
    replace (c * 2)%N with (2 * c)%N by lia. apply N.log2_double. lia. }
  rewrite Hd. lia.
Qed.

Module HashMapFacts.
Import HashMap.

Lemma set_fuel_unfold f k v m :
  set_fuel (Datatypes.S f) k v m
  = match chain_set k v (bucket m (index_of k m)) with
    | Overwritten chain => Returned (put_bucket m (index_of k m) chain (size m))
    | Appended chain =>
        if _shouldResize (put_bucket m (index_of k m) chain (size m + 1))
        then _resize_with (set_fuel f) (put_bucket m (index_of k m) chain (size m + 1))
        else Returned (put_bucket m (index_of k m) chain (size m + 1))
    end.
Proof. reflexivity. Qed.

Lemma _resize_with_Returned set m m' :
  _resize_with set m = Returned m' ->
  (capacity m * 2 < 2 ^ 32)%N /\
  for_of (fun '(k, v) m' => set k v m') (entries m)
         (mk ∅ 0 (capacity m * 2) (loadFactor m)) = Returned m'.
Proof.
  unfold _resize_with. destruct (new_Array _) as [a| |] eqn:E; try discriminate.
  apply new_Array_Returned in E as [-> E]. intros H. split; [lia | exact H].
Qed.

Lemma entries_capacity_0 m : capacity m = 0%N -> entries m = [].
Proof. unfold entries. intros ->. reflexivity. Qed.

(** [capacity] only doubles, and [loadFactor] never changes. *)
Lemma set_fuel_capacity f : forall k v m m',
  set_fuel f k v m = Returned m' ->
  loadFactor m' = loadFactor m /\
  ((capacity m < 2 ^ 32)%N -> (capacity m' < 2 ^ 32)%N) /\
  exists j : N, capacity m' = (capacity m * 2 ^ j)%N.
Proof.
  induction f as [|f IH]; intros k v m m' H; [discriminate|].
  rewrite set_fuel_unfold in H.
  assert (Hid : forall c z, loadFactor (put_bucket m (index_of k m) c z) = loadFactor m /\
           ((capacity m < 2 ^ 32)%N ->
            (capacity (put_bucket m (index_of k m) c z) < 2 ^ 32)%N) /\
           exists j : N, capacity (put_bucket m (index_of k m) c z) = (capacity m * 2 ^ j)%N).
  { intros c z. split; [reflexivity|]. split; [auto|]. exists 0%N. simpl. lia. }
  destruct (chain_set k v _) as [c|c].
  - injection H as <-. apply Hid.
  - destruct (_shouldResize _).
    + apply _resize_with_Returned in H as [Hb H]. simpl in H, Hb.
      apply (for_of_inv _ (fun m'' => loadFactor m'' = loadFactor m /\
               (capacity m'' < 2 ^ 32)%N /\
               exists j : N, capacity m'' = (capacity m * 2 * 2 ^ j)%N)) in H.
      * destruct H as [H1 [H3 [j H2]]]. split; [exact H1|]. split; [auto|].
        exists (N.succ j). rewrite H2, N.pow_succ_r'. lia.
      * intros [k' v'] s s' _ [Hs1 [Hs0 [j Hs2]]] Hs.
        apply IH in Hs as [Hs3 [Hs5 [j' Hs4]]].
        split; [congruence|]. split; [auto|].
        exists (j + j')%N. rewrite Hs4, Hs2, N.pow_add_r. lia.
      * simpl. split; [reflexivity|]. split; [exact Hb|]. exists 0%N. simpl. lia.
    + injection H as <-. apply Hid.
Qed.

Lemma set_fuel_total f : forall k v m,
  (headroom (capacity m) <= f)%nat -> set_fuel f k v m <> OutOfFuel.
Proof.
  induction f as [|f IH]; intros k v m Hf; [unfold headroom in Hf; lia|].
  rewrite set_fuel_unfold.
  destruct (chain_set k v _) as [c|c]; [discriminate|].
  destruct (_shouldResize _); [|discriminate].
  unfold _resize_with.
  destruct (new_Array _) as [a| |] eqn:E; [|discriminate|now apply new_Array_not_fuel in E].
  apply new_Array_Returned in E as [-> E]. simpl in *.
  destruct (N.eq_dec (capacity m) 0%N) as [H0|H0].
  { rewrite entries_capacity_0 by exact H0. discriminate. }
  apply (for_of_fuel _ (fun m'' => exists j : N, capacity m'' = (capacity m * 2 * 2 ^ j)%N)).
  - intros [k' v'] s _ [j Hs]. apply IH. rewrite Hs.
    pose proof (headroom_double (capacity m) j ltac:(lia) ltac:(lia)). lia.
  - intros [k' v'] s s' _ [j Hs] Hr. apply set_fuel_capacity in Hr as [_ [_ [j' Hr]]].
    exists (j + j')%N. rewrite Hr, Hs, N.pow_add_r. lia.
  - exists 0%N. simpl. lia.
Qed.

Lemma headroom_le_depth c : (headroom c <= depth)%nat.
Proof. unfold headroom, depth. lia. Qed.

Lemma set_total k v m : set k v m <> OutOfFuel.
Proof. apply set_fuel_total, headroom_le_depth. Qed.

End HashMapFacts.

Module HashMapChains.
Import HashMap.

Lemma chain_has_elem k chain : chain_has k chain = true <-> k ∈ map key chain.
Proof.
  induction chain as [|n chain IH]; simpl.
  - split; [discriminate | intros H; inversion H].
  - destruct (decide (key n = k)) as [<-|Hne].
    + split; [intros _; apply list_elem_of_here | reflexivity].
    + rewrite IH. split; [apply list_elem_of_further|].
      intros H. inversion H; subst; [congruence | assumption].
Qed.

Lemma chain_has_false k chain : chain_has k chain = false <-> k ∉ map key chain.
Proof.
  rewrite <- chain_has_elem. destruct (chain_has k chain); split; congruence.
Qed.

Lemma chain_get_absent k chain : chain_has k chain = false -> chain_get k chain = VNull.
Proof.
  induction chain as [|n chain IH]; simpl; [reflexivity|].
  destruct (decide (key n = k)); [discriminate | exact IH].
Qed.

Lemma chain_set_present k v chain :
  chain_has k chain = true ->
  exists chain', chain_set k v chain = Overwritten chain' /\
                 map key chain' = map key chain /\
                 chain_get k chain' = v.
Proof.
  induction chain as [|n chain IH]; simpl; [discriminate|].
  destruct (decide (key n = k)) as [Heq|Hne]; intros H.
  - eexists. split; [reflexivity|]. simpl. split; [reflexivity|].
    destruct (decide (key n = k)); [reflexivity | contradiction].
  - destruct (IH H) as (chain' & -> & Hk & Hg). eexists. split; [reflexivity|].
    simpl. rewrite Hk. split; [reflexivity|].
    destruct (decide (key n = k)); [contradiction | exact Hg].
Qed.

Lemma chain_set_absent k v chain :
  chain_has k chain = false -> chain_set k v chain = Appended (chain ++ [mkNode k v]).
Proof.
  induction chain as [|n chain IH]; simpl; [reflexivity|].
  destruct (decide (key n = k)); [discriminate|]. intros H. now rewrite (IH H).
Qed.

Lemma chain_set_Overwritten k v chain chain' :
  chain_set k v chain = Overwritten chain' ->
  chain_has k chain = true /\ map key chain' = map key chain.
Proof.
  destruct (chain_has k chain) eqn:E.
  - destruct (chain_set_present k v chain E) as (c & -> & Hk & _).
    intros [= <-]. split; [reflexivity | exact Hk].
  - rewrite (chain_set_absent k v chain E). discriminate.
Qed.

Lemma chain_set_Appended k v chain chain' :
  chain_set k v chain = Appended chain' ->
  chain_has k chain = false /\ chain' = chain ++ [mkNode k v].
Proof.
  destruct (chain_has k chain) eqn:E.
  - destruct (chain_set_present k v chain E) as (c & -> & _). discriminate.
  - rewrite (chain_set_absent k v chain E). intros [= <-]. split; reflexivity.
Qed.

Lemma chain_has_app k c1 c2 : chain_has k (c1 ++ c2) = chain_has k c1 || chain_has k c2.
Proof.
  induction c1 as [|n c1 IH]; simpl; [reflexivity|].
  destruct (decide (key n = k)); [reflexivity | exact IH].
Qed.

Lemma chain_get_app k c1 c2 :
  chain_get k (c1 ++ c2) = if chain_has k c1 then chain_get k c1 else chain_get k c2.
Proof.
  induction c1 as [|n c1 IH]; simpl; [reflexivity|].
  destruct (decide (key n = k)); [reflexivity | exact IH].
Qed.

Lemma chain_remove_absent k chain : chain_has k chain = false -> chain_remove k chain = None.
Proof.
  induction chain as [|n chain IH]; simpl; [reflexivity|].
  destruct (decide (key n = k)); [discriminate|]. intros H. now rewrite (IH H).
Qed.

Lemma chain_remove_present k chain :
  chain_has k chain = true ->
  exists chain', chain_remove k chain = Some chain' /\
                 (forall k', k' ∈ map key chain' -> k' ∈ map key chain) /\
                 (NoDup (map key chain) ->
                  NoDup (map key chain') /\ chain_has k chain' = false).
Proof.
  induction chain as [|n chain IH]; simpl; [discriminate|].
  destruct (decide (key n = k)) as [Heq|Hne]; intros H.
  - exists chain. split; [reflexivity|]. split.
    + intros k'. apply list_elem_of_further.
    + intros Hnd. apply NoDup_cons in Hnd as [Hn Hnd]. split; [exact Hnd|].
      apply chain_has_false. now rewrite <- Heq.
  - destruct (IH H) as (chain' & -> & Hsub & Hnd'). eexists. split; [reflexivity|].
    split.
    + intros k' Hk'. simpl in Hk'. inversion Hk'; subst.
      * apply list_elem_of_here.
      * apply list_elem_of_further, Hsub. assumption.
    + intros Hnd. apply NoDup_cons in Hnd as [Hn Hnd].
      destruct (Hnd' Hnd) as [Hnd1 Hh]. split.
      * simpl. apply NoDup_cons. split; [|exact Hnd1]. intros Hin. apply Hn, Hsub, Hin.
      * simpl. destruct (decide (key n = k)); [contradiction | exact Hh].
Qed.

(** ** Buckets after a write *)

Lemma bucket_put_eq m i chain z : bucket (put_bucket m i chain z) i = chain.
Proof. unfold bucket, put_bucket. simpl. now rewrite lookup_insert_eq. Qed.

Lemma bucket_put_ne m i j chain z : i <> j -> bucket (put_bucket m i chain z) j = bucket m j.
Proof. intros H. unfold bucket, put_bucket. simpl. now rewrite lookup_insert_ne. Qed.

Lemma bucket_empty i z c lf : bucket (mk ∅ z c lf) i = [].
Proof. unfold bucket. simpl. now rewrite lookup_empty. Qed.

(** ** No chain holds a key twice *)


Lemma chains_nodup_empty z c lf : chains_nodup (mk ∅ z c lf).
Proof. intros i. rewrite bucket_empty. constructor. Qed.

Lemma chains_nodup_put m i chain z :
  chains_nodup m -> NoDup (map key chain) -> chains_nodup (put_bucket m i chain z).
Proof.
  intros Hm Hc j. destruct (decide (i = j)) as [<-|Hne].
  - now rewrite bucket_put_eq.
  - rewrite bucket_put_ne by exact Hne. apply Hm.
Qed.

Lemma chain_set_nodup k v chain :
  NoDup (map key chain) ->
  match chain_set k v chain with
  | Overwritten chain' | Appended chain' => NoDup (map key chain')
  end.
Proof.
  intros Hnd. destruct (chain_set k v chain) as [c|c] eqn:E.
  - apply chain_set_Overwritten in E as [_ ->]. exact Hnd.
  - apply chain_set_Appended in E as [Hh ->]. rewrite map_app. simpl.
    apply NoDup_app. split; [exact Hnd|]. split.
    + intros k' Hk' Hin. apply list_elem_of_singleton in Hin. subst k'.
      apply chain_has_false in Hh. contradiction.
    + apply NoDup_singleton.
Qed.

Lemma set_fuel_nodup f : forall k v m m',
  chains_nodup m -> set_fuel f k v m = Returned m' -> chains_nodup m'.
Proof.
  induction f as [|f IH]; intros k v m m' Hm H; [discriminate|].
  rewrite HashMapFacts.set_fuel_unfold in H.
  pose proof (chain_set_nodup k v _ (Hm (index_of k m))) as Hc.
  destruct (chain_set k v _) as [c|c].
  - injection H as <-. now apply chains_nodup_put.
  - destruct (_shouldResize _).
    + apply HashMapFacts._resize_with_Returned in H as [_ H].
      revert H. apply for_of_inv; [|apply chains_nodup_empty].
      intros [k' v'] s s' _ Hs. apply IH, Hs.
    + injection H as <-. now apply chains_nodup_put.
Qed.

Lemma remove_nodup k m : chains_nodup m -> chains_nodup (snd (remove k m)).
Proof.
  intros Hm. unfold remove.
  destruct (chain_has k (bucket m (index_of k m))) eqn:E.
  - destruct (chain_remove_present k _ E) as (c & -> & _ & Hc). simpl.
    apply chains_nodup_put; [exact Hm|]. apply Hc, Hm.
  - rewrite (chain_remove_absent k _ E). exact Hm.
Qed.

Lemma reachable_nodup m : reachable m -> chains_nodup m.
Proof.
  induction 1 as [c lf m H|k v m m' _ IH H|k m _ IH|m m' _ IH H].
  - unfold new in H. destruct (new_Array c) as [a| |] eqn:E; try discriminate.
    apply new_Array_Returned in E as [-> _]. injection H as <-.
    apply chains_nodup_empty.
  - eapply set_fuel_nodup; [exact IH | exact H].
  - apply remove_nodup, IH.
  - unfold clear in H. destruct (new_Array _) as [a| |] eqn:E; try discriminate.
    apply new_Array_Returned in E as [-> _]. injection H as <-.
    apply chains_nodup_empty.
Qed.
End HashMapChains.

Module HashMapOps.
Import HashMap HashMapFacts HashMapChains.

Lemma has_absent_get k m : has k m = false -> get k m = VNull.
Proof. apply chain_get_absent. Qed.

Lemma set_present k v m :
  has k m = true ->
  exists chain',
    set k v m = Returned (put_bucket m (index_of k m) chain' (size m)) /\
    map key chain' = map key (bucket m (index_of k m)) /\
    chain_get k chain' = v.
Proof.
  intros H. destruct (chain_set_present k v _ H) as (c & Hc & Hk & Hg).
  exists c. unfold set, depth. rewrite set_fuel_unfold, Hc. auto.
Qed.

Lemma remove_present k m :
  has k m = true ->
  exists chain',
    remove k m = (true, put_bucket m (index_of k m) chain' (size m - 1)) /\
    (NoDup (map key (bucket m (index_of k m))) -> chain_has k chain' = false).
Proof.
  intros H. destruct (chain_remove_present k _ H) as (c & Hc & _ & Hnd).
  exists c. unfold remove. rewrite Hc. split; [reflexivity|]. intros Hn. apply Hnd, Hn.
Qed.

Lemma remove_absent k m : has k m = false -> remove k m = (false, m).
Proof. intros H. unfold remove. now rewrite (chain_remove_absent k _ H). Qed.

Lemma map_flat_map {A B C} (g : B -> C) (f : A -> list B) (l : list A) :
  map g (flat_map f l) = flat_map (fun x => map g (f x)) l.
Proof.
  induction l as [|x l IH]; simpl; [reflexivity|]. now rewrite map_app, IH.
Qed.

Lemma keys_entries m : keys m = map fst (entries m).
Proof.
  unfold keys, entries. rewrite map_flat_map. apply flat_map_ext. intros i.
  rewrite map_map. reflexivity.
Qed.

Lemma values_entries m : values m = map snd (entries m).
Proof.
  unfold values, entries. rewrite map_flat_map. apply flat_map_ext. intros i.
  rewrite map_map. reflexivity.
Qed.
End HashMapOps.

(** C2 (update in place).  When [has(k)] is true, [set(k, v2)] returns
    without a resize: [length()] and [capacity] are what they were, the
    keys are traversed in the same order, and [get(k)] is [v2]. *)
Theorem set_present_overwrites_in_place (k : jsstring) (v2 : jsval) (m : HashMap.t) :
  HashMap.has k m = true ->
  exists m',
    HashMap.set k v2 m = Returned m' /\
    HashMap.length m' = HashMap.length m /\
    HashMap.capacity m' = HashMap.capacity m /\
    HashMap.keys m' = HashMap.keys m /\
    HashMap.get k m' = v2.
Proof.
  intros H. destruct (HashMapOps.set_present k v2 m H) as (c & Hs & Hk & Hg).
  eexists. split; [exact Hs|]. split; [reflexivity|]. split; [reflexivity|]. split.
  - unfold HashMap.keys. simpl. apply flat_map_ext. intros i.
    destruct (decide (HashMap.index_of k m = Slot (N.of_nat i))) as [<-|Hne].
    + now rewrite HashMapChains.bucket_put_eq.
    + now rewrite HashMapChains.bucket_put_ne.
  - unfold HashMap.get.
    change (HashMap.index_of k (HashMap.put_bucket m (HashMap.index_of k m) c (HashMap.size m)))
      with (HashMap.index_of k m).
    now rewrite HashMapChains.bucket_put_eq.
Qed.

(** C3 (removal).  In every table a program can build: if [has(k)] is
    true, [remove(k)] returns [true], afterwards [has(k)] is false and
    [length()] is one less; if [has(k)] is false, [remove(k)] returns
    [false] and leaves the table, and so [length()], as it was.  A key
    at the head of its chain and one deeper in it are both covered by
    [has]. *)
Theorem remove_present_or_absent (k : jsstring) (m : HashMap.t) :
  HashMap.reachable m ->
  (HashMap.has k m = true ->
   fst (HashMap.remove k m) = true /\
   HashMap.has k (snd (HashMap.remove k m)) = false /\
   HashMap.length (snd (HashMap.remove k m)) = HashMap.length m - 1) /\
  (HashMap.has k m = false ->
   fst (HashMap.remove k m) = false /\
   HashMap.length (snd (HashMap.remove k m)) = HashMap.length m /\
   snd (HashMap.remove k m) = m).
Proof.
  intros Hr. split; intros H.
  - destruct (HashMapOps.remove_present k m H) as (c & -> & Hc). simpl.
    split; [reflexivity|]. split; [|reflexivity].
    unfold HashMap.has.
    change (HashMap.index_of k (HashMap.put_bucket m (HashMap.index_of k m) c (HashMap.size m - 1)))
      with (HashMap.index_of k m).
    rewrite HashMapChains.bucket_put_eq. apply Hc.
    apply (HashMapChains.reachable_nodup m Hr).
  - rewrite (HashMapOps.remove_absent k m H). simpl. auto.
Qed.

(** C5, as amended.  For a key that is not present, [get] returns [null]:
    a result that differs from the result of [get] for every present key
    whose value is not [null] (the falsy values [undefined], [false], [0]
    and [''] included), and only from those: see
    [get_absent_equals_stored_null]. *)
Theorem get_absent_returns_null (k : jsstring) (m : HashMap.t) :
  HashMap.has k m = false ->
  HashMap.get k m = VNull /\
  forall (m' : HashMap.t) (k' : jsstring),
    HashMap.has k' m' = true -> HashMap.get k' m' <> VNull ->
    HashMap.get k m <> HashMap.get k' m'.
Proof.
  intros H. pose proof (HashMapOps.has_absent_get k m H) as G.
  split; [exact G|]. intros m' k' _ Hv. rewrite G. congruence.
Qed.

Module HashSetFacts.
Import HashSet.

Lemma add_fuel_unfold f k s :
  add_fuel (Datatypes.S f) k s
  = if _shouldResize (inserted k s) then _resize_with (add_fuel f) (inserted k s)
    else Returned (inserted k s).
Proof. reflexivity. Qed.

Lemma inserted_capacity k s : capacity (inserted k s) = capacity s.
Proof.
  unfold inserted. destruct (storage s !! index_of k s); simpl;
    destruct (Set_has k _); reflexivity.
Qed.

Lemma inserted_loadFactor k s : loadFactor (inserted k s) = loadFactor s.
Proof.
  unfold inserted. destruct (storage s !! index_of k s); simpl;
    destruct (Set_has k _); reflexivity.
Qed.

Lemma inserted_present k s : has k s = true -> inserted k s = s.
Proof.
  unfold has, inserted. destruct (storage s !! index_of k s) as [b|] eqn:E;
    [|discriminate]. simpl. rewrite E. simpl. now intros ->.
Qed.

Lemma inserted_absent_size k s : has k s = false -> size (inserted k s) = size s + 1.
Proof.
  unfold has, inserted. destruct (storage s !! index_of k s) as [b|] eqn:E; simpl.
  - rewrite E. simpl. now intros ->.
  - intros _. rewrite lookup_insert_eq. simpl. reflexivity.
Qed.

Lemma _resize_with_keys_Returned add s s' :
  _resize_with add s = Returned s' ->
  (capacity s * 2 < 2 ^ 32)%N /\
  for_of add (keys s) (mk ∅ 0 (capacity s * 2) (loadFactor s)) = Returned s'.
Proof.
  unfold _resize_with. destruct (new_Array _) as [a| |] eqn:E; try discriminate.
  apply new_Array_Returned in E as [-> E]. intros H. split; [lia | exact H].
Qed.

Lemma keys_capacity_0 s : capacity s = 0%N -> keys s = [].
Proof. unfold keys. intros ->. reflexivity. Qed.

Lemma add_fuel_capacity f : forall k s s',
  add_fuel f k s = Returned s' ->
  loadFactor s' = loadFactor s /\
  ((capacity s < 2 ^ 32)%N -> (capacity s' < 2 ^ 32)%N) /\
  exists j : N, capacity s' = (capacity s * 2 ^ j)%N.
Proof.
  induction f as [|f IH]; intros k s s' H; [discriminate|].
  rewrite add_fuel_unfold in H.
  destruct (_shouldResize _).
  - apply _resize_with_keys_Returned in H as [Hb H].
    rewrite inserted_capacity, inserted_loadFactor in *.
    apply (for_of_inv _ (fun s'' => loadFactor s'' = loadFactor s /\
             (capacity s'' < 2 ^ 32)%N /\
             exists j : N, capacity s'' = (capacity s * 2 * 2 ^ j)%N)) in H.
    + destruct H as [H1 [H3 [j H2]]]. split; [exact H1|]. split; [auto|]. exists (N.succ j).
      rewrite H2, N.pow_succ_r'. lia.
    + intros k' t t' _ [Hs1 [Hs0 [j Hs2]]] Hs. apply IH in Hs as [Hs3 [Hs5 [j' Hs4]]].
      split; [congruence|]. split; [auto|].
      exists (j + j')%N. rewrite Hs4, Hs2, N.pow_add_r. lia.
    + simpl. split; [reflexivity|]. split; [exact Hb|]. exists 0%N. simpl. lia.
  - injection H as <-. rewrite inserted_capacity, inserted_loadFactor.
    split; [reflexivity|]. split; [auto|]. exists 0%N. simpl. lia.
Qed.

Lemma add_fuel_total f : forall k s,
  (headroom (capacity s) <= f)%nat -> add_fuel f k s <> OutOfFuel.
Proof.
  induction f as [|f IH]; intros k s Hf; [unfold headroom in Hf; lia|].
  rewrite add_fuel_unfold.
  destruct (_shouldResize _); [|discriminate].
  unfold _resize_with. rewrite inserted_capacity, inserted_loadFactor.
  destruct (new_Array _) as [a| |] eqn:E; [|discriminate|now apply new_Array_not_fuel in E].
  apply new_Array_Returned in E as [-> E].
  destruct (N.eq_dec (capacity s) 0%N) as [H0|H0].
  { rewrite keys_capacity_0 by (now rewrite inserted_capacity). discriminate. }
  apply (for_of_fuel _ (fun s'' => exists j : N, capacity s'' = (capacity s * 2 * 2 ^ j)%N)).
  - intros k' t _ [j Hs]. apply IH. rewrite Hs.
    pose proof (headroom_double (capacity s) j ltac:(lia) ltac:(lia)). lia.
  - intros k' t t' _ [j Hs] Hr. apply add_fuel_capacity in Hr as [_ [_ [j' Hr]]].
    exists (j + j')%N. rewrite Hr, Hs, N.pow_add_r. lia.
  - exists 0%N. simpl. lia.
Qed.

Lemma add_total k s : add k s <> OutOfFuel.
Proof. apply add_fuel_total. unfold headroom, depth. lia. Qed.

(** After [add] returns, the load-factor test is false. *)
Lemma add_fuel_load f : forall k s s',
  js_gt (loadFactor s) (num 0) = true ->
  add_fuel f k s = Returned s' -> _shouldResize s' = false.
Proof.
  induction f as [|f IH]; intros k s s' Hlf H; [discriminate|].
  rewrite add_fuel_unfold in H.
  destruct (_shouldResize _) eqn:E.
  - apply _resize_with_keys_Returned in H as [_ H].
    rewrite inserted_capacity, inserted_loadFactor in H.
    apply (for_of_inv _ (fun s'' => loadFactor s'' = loadFactor s /\
                                    _shouldResize s'' = false)) in H.
    + apply H.
    + intros k' t t' _ [Hs1 Hs2] Hs.
      pose proof (add_fuel_capacity _ _ _ _ Hs) as [Hl _].
      split; [congruence|]. apply IH in Hs; [exact Hs | congruence].
    + split; [reflexivity|]. unfold _shouldResize. simpl.
      apply should_resize_zero, Hlf.
  - injection H as <-. exact E.
Qed.

(** A key that is in the set: [add] changes nothing once the
    load-factor test is false. *)
Lemma add_present k s :
  has k s = true -> _shouldResize s = false -> add k s = Returned s.
Proof.
  intros Hh Hs. unfold add, depth. rewrite add_fuel_unfold.
  rewrite (inserted_present k s Hh), Hs. reflexivity.
Qed.
End HashSetFacts.


Lemma pow2_pos (j : N) : (0 < 2 ^ j)%N.
Proof. apply N.neq_0_lt_0, N.pow_nonzero. lia. Qed.





Lemma flat_map_length_update {A : Type} (f g : nat -> list A) (l : list nat) (j : nat) :
  NoDup l -> (forall i, i <> j -> g i = f i) ->
  (length (flat_map g l) + (if bool_decide (j ∈ l) then length (f j) else 0)
   = length (flat_map f l) + (if bool_decide (j ∈ l) then length (g j) else 0))%nat.
Proof.
  intros Hnd Hfg. induction Hnd as [|x l Hx Hnd IH]; simpl; [reflexivity|].
  rewrite !length_app.
  destruct (decide (x = j)) as [->|Hne].
  - rewrite (bool_decide_eq_true_2 (j ∈ j :: l)) by apply list_elem_of_here.
    rewrite (bool_decide_eq_false_2 (j ∈ l)) in IH by exact Hx. lia.
  - rewrite (Hfg x Hne).
    destruct (bool_decide (j ∈ l)) eqn:E.
    + apply bool_decide_eq_true_1 in E.
      rewrite (bool_decide_eq_true_2 (j ∈ x :: l)) by (now apply list_elem_of_further). lia.
    + apply bool_decide_eq_false_1 in E.
      rewrite (bool_decide_eq_false_2 (j ∈ x :: l)); [lia|].
      intros H. inversion H; subst; contradiction.
Qed.

Module HashMapCount.
Import HashMap HashMapFacts HashMapChains.

Lemma length_entries_put m i chain z :
  (List.length (entries (put_bucket m i chain z))
   + (if visited i (capacity m) then List.length (bucket m i) else 0)
   = List.length (entries m)
     + (if visited i (capacity m) then List.length chain else 0))%nat.
Proof.
  unfold entries. simpl.
  destruct i as [j|x]; simpl.
  - pose proof (flat_map_length_update
      (fun i => map (fun n => (key n, value n)) (bucket m (Slot (N.of_nat i))))
      (fun i => map (fun n => (key n, value n))
                    (bucket (put_bucket m (Slot j) chain z) (Slot (N.of_nat i))))
      (seq 0 (N.to_nat (capacity m))) (N.to_nat j) (NoDup_seq _ _)) as H.
    cbv beta in H. rewrite N2Nat.id, bucket_put_eq, !length_map in H.
    assert (Hd : bool_decide (N.to_nat j ∈ seq 0 (N.to_nat (capacity m)))
                 = (j <? capacity m)%N).
    { destruct (N.ltb_spec j (capacity m)).
      - apply bool_decide_eq_true_2, list_elem_of_In, in_seq. lia.
      - apply bool_decide_eq_false_2. rewrite list_elem_of_In, in_seq. lia. }
    rewrite Hd in H. apply H.
    intros i Hi. rewrite bucket_put_ne; [reflexivity|].
    intros [= ->]. apply Hi. now rewrite Nat2N.id.
  - rewrite !Nat.add_0_r. f_equal. apply flat_map_ext. intros i.
    now rewrite bucket_put_ne.
Qed.

Lemma entries_empty z c lf : entries (mk ∅ z c lf) = [].
Proof.
  unfold entries. simpl. induction (seq 0 (N.to_nat c)) as [|i l IH]; simpl;
    [reflexivity|]. now rewrite bucket_empty, IH.
Qed.
End HashMapCount.

Lemma should_resize_16 (z : Z) :
  0 <= z <= 12 -> should_resize z 16 three_quarters = false.
Proof.
  intros H. replace z with (Z.of_nat (Z.to_nat z)) by lia.
  assert (H' : (Z.to_nat z <= 12)%nat) by lia.
  revert H'. generalize (Z.to_nat z). intros n.
  do 13 (destruct n as [|n]; [intros; vm_compute; reflexivity|]). intros; lia.
Qed.

Lemma should_resize_16_13 : should_resize 13 16 three_quarters = true.
Proof. vm_compute. reflexivity. Qed.

Lemma should_resize_32 (z : Z) :
  0 <= z <= 24 -> should_resize z 32 three_quarters = false.
Proof.
  intros H. replace z with (Z.of_nat (Z.to_nat z)) by lia.
  assert (H' : (Z.to_nat z <= 24)%nat) by lia.
  revert H'. generalize (Z.to_nat z). intros n.
  do 25 (destruct n as [|n]; [intros; vm_compute; reflexivity|]). intros; lia.
Qed.

Module HashMapScenario.
Import HashMap HashMapFacts HashMapChains HashMapCount.

Lemma has_put_append k k' v m z :
  k' <> k ->
  has k' (put_bucket m (index_of k m) (bucket m (index_of k m) ++ [mkNode k v]) z)
  = has k' m.
Proof.
  intros Hne. unfold has.
  change (index_of k' (put_bucket m (index_of k m)
                         (bucket m (index_of k m) ++ [mkNode k v]) z))
    with (index_of k' m).
  destruct (decide (index_of k m = index_of k' m)) as [e|Hi].
  - rewrite <- e, bucket_put_eq, chain_has_app. simpl.
    destruct (decide (k = k')); [congruence|]. apply orb_false_r.
  - now rewrite bucket_put_ne.
Qed.

(** An insertion of a new key that does not trip the load-factor test. *)
Lemma set_fuel_absent f k v m :
  has k m = false ->
  should_resize (size m + 1) (capacity m) (loadFactor m) = false ->
  set_fuel (S f) k v m
  = Returned (put_bucket m (index_of k m)
                (bucket m (index_of k m) ++ [mkNode k v]) (size m + 1)).
Proof.
  intros Hh Hs. rewrite set_fuel_unfold.
  rewrite (chain_set_absent k v _ Hh). unfold _shouldResize. simpl. now rewrite Hs.
Qed.

Lemma length_entries_append m k v z :
  (List.length (entries (put_bucket m (index_of k m)
                           (bucket m (index_of k m) ++ [mkNode k v]) z))
   <= List.length (entries m) + 1)%nat.
Proof.
  pose proof (length_entries_put m (index_of k m)
                (bucket m (index_of k m) ++ [mkNode k v]) z) as H.
  rewrite length_app in H. simpl in H.
  destruct (visited _ _); lia.
Qed.

Lemma fresh_inserts (kvs : list (jsstring * jsval)) : forall m,
  NoDup (map fst kvs) ->
  capacity m = 16%N -> loadFactor m = three_quarters ->
  0 <= size m -> size m + Z.of_nat (List.length kvs) <= 12 ->
  (forall k, k ∈ map fst kvs -> has k m = false) ->
  exists m',
    set_all kvs m = Returned m' /\
    capacity m' = 16%N /\ loadFactor m' = three_quarters /\
    size m' = size m + Z.of_nat (List.length kvs) /\
    (List.length (entries m') <= List.length (entries m) + List.length kvs)%nat /\
    (forall k, has k m = false -> k ∉ map fst kvs -> has k m' = false).
Proof.
  induction kvs as [|[k v] kvs IH]; intros m Hnd Hc Hl Hs0 Hs Hfresh.
  - exists m. simpl. repeat split; auto; lia.
  - simpl in Hnd. apply NoDup_cons in Hnd as [Hk Hnd]. simpl in Hs.
    assert (Hset : set k v m = Returned (put_bucket m (index_of k m)
                (bucket m (index_of k m) ++ [mkNode k v]) (size m + 1))).
    { apply set_fuel_absent.
      - apply Hfresh. simpl. apply list_elem_of_here.
      - rewrite Hc, Hl. apply should_resize_16. lia. }
    set (m1 := put_bucket m (index_of k m)
                 (bucket m (index_of k m) ++ [mkNode k v]) (size m + 1)) in *.
    destruct (IH m1 Hnd Hc Hl) as (m' & Hrun & Hc' & Hl' & Hs' & He' & Hf').
    + simpl. lia.
    + simpl. lia.
    + intros k' Hk'. unfold m1. rewrite has_put_append.
      * apply Hfresh. simpl. now apply list_elem_of_further.
      * intros ->. contradiction.
    + exists m'. unfold set_all in *. simpl. rewrite Hset.
      split; [exact Hrun|]. split; [exact Hc'|]. split; [exact Hl'|].
      split; [rewrite Hs'; simpl; lia|]. split.
      * pose proof (length_entries_append m k v (size m + 1)). fold m1 in H.
        simpl. lia.
      * intros k' Hk' Hn. apply Hf'.
        -- unfold m1. rewrite has_put_append; [exact Hk'|].
           intros ->. apply Hn. simpl. apply list_elem_of_here.
        -- intros Hin. apply Hn. simpl. now apply list_elem_of_further.
Qed.

(** Re-inserting at most 24 entries at capacity 32 never resizes. *)
Lemma rehash_small f (es : list (jsstring * jsval)) : forall m,
  capacity m = 32%N -> loadFactor m = three_quarters ->
  0 <= size m -> size m + Z.of_nat (List.length es) <= 24 ->
  exists m',
    for_of (fun '(k, v) m' => set_fuel (S f) k v m') es m = Returned m' /\
    capacity m' = 32%N.
Proof.
  induction es as [|[k v] es IH]; intros m Hc Hl Hs0 Hs.
  - exists m. split; [reflexivity | exact Hc].
  - cbn [for_of]. simpl in Hs. rewrite set_fuel_unfold.
    destruct (chain_set k v _) as [c|c].
    + apply IH; simpl; auto; lia.
    + unfold _shouldResize. cbn [size capacity loadFactor put_bucket].
      rewrite Hc, Hl.
      rewrite should_resize_32 by lia. apply IH; simpl; auto; lia.
Qed.

(** The insertion that takes [size] from 12 to 13 at capacity 16. *)
Lemma thirteenth k v m :
  capacity m = 16%N -> loadFactor m = three_quarters -> size m = 12 ->
  has k m = false -> (List.length (entries m) <= 12)%nat ->
  exists m', set k v m = Returned m' /\ capacity m' = 32%N.
Proof.
  intros Hc Hl Hs Hk He. unfold set, depth. rewrite set_fuel_unfold.
  rewrite (chain_set_absent k v _ Hk).
  unfold _shouldResize. cbn [size capacity loadFactor put_bucket].
  rewrite Hc, Hl, Hs. change (12 + 1) with 13. rewrite should_resize_16_13.
  unfold _resize_with. cbn [size capacity loadFactor put_bucket]. rewrite Hc, Hl.
  change (new_Array (Z.of_N (16 * 2)))
    with (@Returned (gmap index (list Node)) ∅).
  cbv iota beta.
  apply rehash_small; try reflexivity.
  pose proof (length_entries_append m k v 13) as H.
  cbn [size]. lia.
Qed.
End HashMapScenario.

(** C9 (resize trigger).  On [new HashMap(16, 0.75)], inserting up to
    twelve different keys leaves [capacity] at 16 (and [size] at their
    number); inserting thirteen different keys ends with [capacity] 32:
    one doubling, at the thirteenth insertion. *)
Theorem resize_fires_at_thirteenth_insertion
    (kvs : list (jsstring * jsval)) (m0 : HashMap.t) :
  HashMap.new 16 three_quarters = Returned m0 ->
  NoDup (map fst kvs) ->
  ((length kvs <= 12)%nat ->
   exists m, HashMap.set_all kvs m0 = Returned m /\
             HashMap.capacity m = 16%N /\
             HashMap.size m = Z.of_nat (length kvs)) /\
  (length kvs = 13%nat ->
   exists m, HashMap.set_all kvs m0 = Returned m /\ HashMap.capacity m = 32%N).
Proof.
  intros Hnew Hnd. injection Hnew as <-. change (Z.to_N 16) with 16%N.
  assert (Hempty : forall k, HashMap.has k (HashMap.mk ∅ 0 16 three_quarters) = false).
  { intros k. unfold HashMap.has. now rewrite HashMapChains.bucket_empty. }
  split.
  - intros Hlen.
    destruct (HashMapScenario.fresh_inserts kvs
                (HashMap.mk ∅ 0 16 three_quarters) Hnd eq_refl eq_refl)
      as (m & Hrun & Hc & _ & Hs & _); simpl; try lia.
    { intros k _. apply Hempty. }
    exists m. split; [exact Hrun|]. split; [exact Hc|]. simpl in Hs. lia.
  - intros Hlen.
    destruct (exists_last (l := kvs)) as (init & [k v] & ->).
    { intros ->. discriminate. }
    rewrite length_app in Hlen. simpl in Hlen.
    rewrite map_app in Hnd. apply NoDup_app in Hnd as (Hnd & Hk & _).
    destruct (HashMapScenario.fresh_inserts init
                (HashMap.mk ∅ 0 16 three_quarters) Hnd eq_refl eq_refl)
      as (m12 & Hrun & Hc & Hl & Hs & He & Hf); simpl; try lia.
    { intros k' _. apply Hempty. }
    rewrite HashMapCount.entries_empty in He. simpl in He, Hs.
    destruct (HashMapScenario.thirteenth k v m12 Hc Hl) as (m & Hm & Hcm); try lia.
    { apply Hf; [apply Hempty|]. intros Hin. apply (Hk k Hin). simpl.
      apply list_elem_of_here. }
    exists m. unfold HashMap.set_all in *. rewrite for_of_app, Hrun.
    cbn [for_of]. rewrite Hm. split; [reflexivity | exact Hcm].
Qed.

(** C1 (round trip), at a failing input.  The hash code of
    ['a'.repeat(300)] is [Infinity], its bucket is the property ["NaN"],
    which [_resize] does not carry over: on [new HashMap(1, 0.75)], and on
    [new HashMap(16, 0.75)] holding twelve other keys, [set(k, v)] returns
    and then [get(k)] is [null] and [has(k)] is false. *)
Theorem set_get_fails_for_overflowing_key :
  hash long_key = pos_infinity /\
  (exists m0 m1,
      HashMap.new 1 three_quarters = Returned m0 /\
      HashMap.set long_key (VString (str "v")) m0 = Returned m1 /\
      HashMap.get long_key m1 = VNull /\
      HashMap.has long_key m1 = false) /\
  (exists m12 m13,
      HashMap.new 16 three_quarters = Returned default_map /\
      HashMap.set_all twelve_keys default_map = Returned m12 /\
      HashMap.set long_key (VString (str "v")) m12 = Returned m13 /\
      HashMap.get long_key m13 = VNull /\
      HashMap.has long_key m13 = false).
Proof.
  split; [vm_compute; reflexivity|]. split.
  - eexists _, _. split; [reflexivity|]. split; [vm_compute; reflexivity|].
    split; vm_compute; reflexivity.
  - eexists _, _. split; [reflexivity|]. split; [vm_compute; reflexivity|].
    split; [vm_compute; reflexivity|]. split; vm_compute; reflexivity.
Qed.

(** C7 (set uniqueness), at a failing input.  On [new HashSet(1, 0.75)],
    the first [add] of ['a'.repeat(300)], which the set does not contain,
    leaves [length()] at 0 and the key out of the set. *)
Theorem first_add_of_overflowing_key_keeps_length :
  exists s0 s1,
    HashSet.new 1 three_quarters = Returned s0 /\
    HashSet.has long_key s0 = false /\
    HashSet.add long_key s0 = Returned s1 /\
    HashSet.length s1 = HashSet.length s0 /\
    HashSet.has long_key s1 = false.
Proof.
  eexists _, _. split; [reflexivity|]. split; [vm_compute; reflexivity|].
  split; [vm_compute; reflexivity|]. split; vm_compute; reflexivity.
Qed.

(** C8 (index derivation), at a failing input.  The hash code of
    ['a'.repeat(300)] is [Infinity] and its index is [NaN], for capacity
    16 and for every other capacity: never an integer in
    [0 .. capacity-1]. *)
Theorem index_of_overflowing_key_is_NaN :
  hash long_key = pos_infinity /\
  _getIndex (hash long_key) 16 = Named nan /\
  (forall capacity i, _getIndex (hash long_key) capacity <> Slot i).
Proof.
  assert (H : hash long_key = pos_infinity) by (vm_compute; reflexivity).
  split; [exact H|]. rewrite H. split; [reflexivity|]. intros c i. discriminate.
Qed.

(** C10 (traversal consistency), at a failing input.  After
    [set('a'.repeat(300), v)] on a new map, a table a program can build,
    [length()] is 1 while [keys()], [values()] and [entries()] are
    empty. *)
Theorem traversals_miss_overflowing_key :
  exists m1,
    HashMap.set long_key (VString (str "v")) default_map = Returned m1 /\
    HashMap.reachable m1 /\
    HashMap.length m1 = 1 /\
    HashMap.keys m1 = [] /\ HashMap.values m1 = [] /\ HashMap.entries m1 = [].
Proof.
  eexists. split; [vm_compute; reflexivity|]. split.
  - eapply (HashMap.reach_set long_key (VString (str "v")) default_map).
    + apply (HashMap.reach_new 16 three_quarters). reflexivity.
    + vm_compute. reflexivity.
  - split; [reflexivity|]. split; [vm_compute; reflexivity|].
    split; vm_compute; reflexivity.
Qed.

(** C5 as stated fails: the result of [get] for an absent key is the
    result of [get] for a key that was set to [null]. *)
Lemma get_absent_equals_stored_null :
  ~ (forall (m : HashMap.t) (k : jsstring),
        HashMap.has k m = false ->
        forall (m' : HashMap.t) (k' : jsstring),
          HashMap.has k' m' = true -> HashMap.get k m <> HashMap.get k' m').
Proof.
  intros H.
  apply (H default_map (str "k") eq_refl
           (returned (HashMap.set (str "k") VNull default_map) default_map) (str "k")).
  - vm_compute. reflexivity.
  - vm_compute. reflexivity.
Qed.

(** [set('lion', 'Glowing golden')] after [set('lion', 'golden')]. *)
Lemma set_present_overwrites_in_place_witness :
  HashMap.has (str "lion") lion_map = true /\
  exists m',
    HashMap.set (str "lion") (VString (str "Glowing golden")) lion_map = Returned m' /\
    HashMap.length m' = HashMap.length lion_map /\
    HashMap.capacity m' = HashMap.capacity lion_map /\
    HashMap.keys m' = HashMap.keys lion_map /\
    HashMap.get (str "lion") m' = VString (str "Glowing golden").
Proof.
  split; [vm_compute; reflexivity|].
  apply (set_present_overwrites_in_place (str "lion")). vm_compute. reflexivity.
Defined.

(** ['a'] and ['q'] share bucket 1 of a new map: ['a'] is the head of the
    chain and ['q'] its second node; ['moon'] is absent. *)
Lemma remove_present_or_absent_witness :
  HashMap.reachable chain_map /\
  map HashMap.key (HashMap.bucket chain_map (Slot 1)) = [str "a"; str "q"] /\
  (fst (HashMap.remove (str "a") chain_map) = true /\
   HashMap.has (str "a") (snd (HashMap.remove (str "a") chain_map)) = false /\
   HashMap.length (snd (HashMap.remove (str "a") chain_map))
   = HashMap.length chain_map - 1) /\
  (fst (HashMap.remove (str "q") chain_map) = true /\
   HashMap.has (str "q") (snd (HashMap.remove (str "q") chain_map)) = false /\
   HashMap.length (snd (HashMap.remove (str "q") chain_map))
   = HashMap.length chain_map - 1) /\
  (fst (HashMap.remove (str "moon") chain_map) = false /\
   HashMap.length (snd (HashMap.remove (str "moon") chain_map))
   = HashMap.length chain_map /\
   snd (HashMap.remove (str "moon") chain_map) = chain_map).
Proof.
  assert (R : HashMap.reachable chain_map).
  { apply (HashMap.reach_set (str "q") (VNumber (num 2))
             (returned (HashMap.set (str "a") (VNumber (num 1)) default_map) default_map)).
    - apply (HashMap.reach_set (str "a") (VNumber (num 1)) default_map).
      + apply (HashMap.reach_new 16 three_quarters). reflexivity.
      + vm_compute. reflexivity.
    - vm_compute. reflexivity. }
  split; [exact R|]. split; [vm_compute; reflexivity|]. split; [|split].
  - apply (proj1 (remove_present_or_absent (str "a") chain_map R)).
    vm_compute. reflexivity.
  - apply (proj1 (remove_present_or_absent (str "q") chain_map R)).
    vm_compute. reflexivity.
  - apply (proj2 (remove_present_or_absent (str "moon") chain_map R)).
    vm_compute. reflexivity.
Defined.


(** [get('missing')] on a new map, against [get('zero')] on a map where
    ['zero'] holds the falsy value [0]. *)
Lemma get_absent_returns_null_witness :
  HashMap.has (str "missing") default_map = false /\
  HashMap.has (str "zero") zero_map = true /\
  HashMap.get (str "zero") zero_map = VNumber (num 0) /\
  HashMap.get (str "missing") default_map = VNull /\
  HashMap.get (str "missing") default_map <> HashMap.get (str "zero") zero_map.
Proof.
  destruct (get_absent_returns_null (str "missing") default_map eq_refl) as [G D].
  split; [reflexivity|]. split; [vm_compute; reflexivity|].
  split; [vm_compute; reflexivity|]. split; [exact G|].
  apply D; [vm_compute; reflexivity|]. vm_compute. discriminate.
Defined.



(** The first twelve keys of [main.js], then ['moon']. *)
Lemma resize_fires_at_thirteenth_insertion_witness :
  HashMap.new 16 three_quarters = Returned default_map /\
  NoDup (map fst thirteen_keys) /\
  (length twelve_keys <= 12)%nat /\ length thirteen_keys = 13%nat /\
  (exists m, HashMap.set_all twelve_keys default_map = Returned m /\
             HashMap.capacity m = 16%N /\
             HashMap.size m = Z.of_nat (length twelve_keys)) /\
  (exists m, HashMap.set_all thirteen_keys default_map = Returned m /\
             HashMap.capacity m = 32%N).
Proof.
  assert (N13 : NoDup (map fst thirteen_keys)).
  { apply (bool_decide_unpack _). vm_compute. exact I. }
  assert (N12 : NoDup (map fst twelve_keys)).
  { apply (bool_decide_unpack _). vm_compute. exact I. }
  split; [reflexivity|]. split; [exact N13|].
  split; [vm_compute; lia|]. split; [reflexivity|]. split.
  - apply (proj1 (resize_fires_at_thirteenth_insertion twelve_keys default_map
                    eq_refl N12)).
    vm_compute. lia.
  - apply (proj2 (resize_fires_at_thirteenth_insertion thirteen_keys default_map
                    eq_refl N13)).
    reflexivity.
Defined.

Lemma _getIndex_Slot_lt (h : number) (c i : N) : _getIndex h c = Slot i -> (i < c)%N.
Proof.
  unfold _getIndex.
  destruct (SFabs h) as [s|s| |s m e]; try discriminate.
  - destruct (N.eqb_spec c 0); [discriminate|]. intros [= <-]. lia.
  - destruct (N.eqb_spec c 0); [discriminate|].
    destruct e as [|p|p].
    + intros [= <-]. apply N.mod_lt. exact n.
    + intros [= <-]. apply N.mod_lt. exact n.
    + destruct (_ =? 0)%N; [|discriminate]. intros [= <-]. apply N.mod_lt. exact n.
Qed.

Lemma _getIndex_integral (h : number) (c : N) :
  integral h = true -> (0 < c)%N -> exists i, _getIndex h c = Slot i /\ (i < c)%N.
Proof.
  intros Hh Hc.
  assert (H : exists i, _getIndex h c = Slot i).
  { unfold _getIndex, integral in *.
    destruct h as [s|s| |s m e]; simpl; try discriminate.
    - destruct (N.eqb_spec c 0); [lia|]. eauto.
    - destruct (N.eqb_spec c 0); [lia|].
      destruct e as [|p|p]; eauto. rewrite Hh. eauto. }
  destruct H as [i H]. exists i. split; [exact H|]. eapply _getIndex_Slot_lt, H.
Qed.

Lemma regular_visited (k : jsstring) (c : N) :
  regular k -> (0 < c)%N -> visited (_getIndex (hash k) c) c = true.
Proof.
  intros Hk Hc. destruct (_getIndex_integral _ c Hk Hc) as (i & -> & Hi).
  simpl. now apply N.ltb_lt.
Qed.

Lemma NoDup_flat_map {A : Type} (f : nat -> list A) (l : list nat) :
  NoDup l ->
  (forall x, x ∈ l -> NoDup (f x)) ->
  (forall x y a, x ∈ l -> y ∈ l -> a ∈ f x -> a ∈ f y -> x = y) ->
  NoDup (flat_map f l).
Proof.
  intros Hl. induction Hl as [|x l Hx Hl IH]; intros Hf Hd; simpl; [constructor|].
  apply NoDup_app. split; [apply Hf, list_elem_of_here|]. split.
  - intros a Ha Hin. apply list_elem_of_In, in_flat_map in Hin as (y & Hy & Hay).
    apply list_elem_of_In in Hy, Hay.
    assert (x = y).
    { apply (Hd x y a); auto using list_elem_of_here, list_elem_of_further. }
    subst y. contradiction.
  - apply IH.
    + intros y Hy. apply Hf. now apply list_elem_of_further.
    + intros y z a Hy Hz. apply Hd; now apply list_elem_of_further.
Qed.

Module HashMapWf.
Import HashMap HashMapFacts HashMapChains HashMapCount HashMapOps.

Lemma elem_entries m k v :
  (k, v) ∈ entries m <->
  exists j n, (j < capacity m)%N /\ n ∈ bucket m (Slot j) /\ key n = k /\ value n = v.
Proof.
  unfold entries. rewrite list_elem_of_In, in_flat_map. split.
  - intros (i & Hi & Hin). apply in_seq in Hi.
    apply in_map_iff in Hin as (n & Heq & Hn). injection Heq as <- <-.
    exists (N.of_nat i), n. split; [lia|]. split; [now apply list_elem_of_In|]. auto.
  - intros (j & n & Hj & Hn & <- & <-). exists (N.to_nat j).
    split; [apply in_seq; lia|]. apply in_map_iff. exists n.
    rewrite N2Nat.id. split; [reflexivity|]. now apply list_elem_of_In.
Qed.

Lemma elem_keys m k : k ∈ keys m <-> exists v, (k, v) ∈ entries m.
Proof.
  rewrite keys_entries, list_elem_of_In, in_map_iff. split.
  - intros ([k' v] & <- & H). exists v. now apply list_elem_of_In.
  - intros (v & H). exists (k, v). split; [reflexivity|]. now apply list_elem_of_In.
Qed.

Lemma chain_has_node k chain :
  chain_has k chain = true <-> exists n, n ∈ chain /\ key n = k.
Proof.
  rewrite chain_has_elem, list_elem_of_In, in_map_iff. split.
  - intros (n & <- & H). exists n. split; [now apply list_elem_of_In | reflexivity].
  - intros (n & H & <-). exists n. split; [reflexivity | now apply list_elem_of_In].
Qed.

Lemma chain_get_node chain n :
  NoDup (map key chain) -> n ∈ chain -> chain_get (key n) chain = value n.
Proof.
  induction chain as [|a chain IH]; intros Hnd Hn; [inversion Hn|].
  simpl in Hnd. apply NoDup_cons in Hnd as [Ha Hnd]. simpl.
  destruct (decide (key a = key n)) as [e|Hne].
  - inversion Hn; subst; [reflexivity|]. exfalso. apply Ha. rewrite e.
    apply list_elem_of_In, in_map, list_elem_of_In. assumption.
  - inversion Hn; subst; [contradiction|]. now apply IH.
Qed.

Lemma lookup_put m i chain z k :
  lookup (put_bucket m i chain z) k
  = if decide (index_of k m = i)
    then (if chain_has k chain then Some (chain_get k chain) else None)
    else lookup m k.
Proof.
  unfold lookup, has, get.
  change (index_of k (put_bucket m i chain z)) with (index_of k m).
  destruct (decide (index_of k m = i)) as [->|Hne].
  - now rewrite bucket_put_eq.
  - rewrite bucket_put_ne by congruence. reflexivity.
Qed.

Lemma lookup_empty z c lf k : lookup (mk ∅ z c lf) k = None.
Proof. unfold lookup, has. now rewrite bucket_empty. Qed.

Lemma lookup_has m k : has k m = true <-> exists v, lookup m k = Some v.
Proof.
  unfold lookup. destruct (has k m); split; eauto; try discriminate.
  intros [v H]. discriminate.
Qed.

(** In a well-formed table, [entries] lists exactly what [has] and [get]
    report. *)
Lemma wf_lookup_entries m k v : wf m -> lookup m k = Some v <-> (k, v) ∈ entries m.
Proof.
  intros (Hc & Hnd & Hpl & _). rewrite elem_entries. unfold lookup, has, get. split.
  - destruct (chain_has k _) eqn:E; [|discriminate]. intros [= <-].
    apply chain_has_node in E as (n & Hn & <-).
    destruct (Hpl _ _ Hn) as [_ Hr].
    destruct (_getIndex_integral _ (capacity m) Hr Hc) as (j & Hj & Hlt).
    exists j, n. fold (index_of (key n) m) in Hj. rewrite Hj in Hn |- *.
    split; [exact Hlt|]. split; [exact Hn|]. split; [reflexivity|].
    symmetry. apply chain_get_node; [apply Hnd | exact Hn].
  - intros (j & n & Hj & Hn & <- & <-).
    destruct (Hpl _ _ Hn) as [-> _].
    assert (E : chain_has (key n) (bucket m (Slot j)) = true).
    { apply chain_has_node. eauto. }
    rewrite E. f_equal. apply chain_get_node; [apply Hnd | exact Hn].
Qed.

Lemma wf_elem_keys m k : wf m -> k ∈ keys m <-> has k m = true.
Proof.
  intros Hwf. rewrite elem_keys, lookup_has.
  split; intros [v H]; exists v; now apply (wf_lookup_entries m k v Hwf).
Qed.

Lemma wf_NoDup_keys m : wf m -> NoDup (keys m).
Proof.
  intros (Hc & Hnd & Hpl & _). unfold keys. apply NoDup_flat_map.
  - apply NoDup_seq.
  - intros i _. apply Hnd.
  - intros x y a _ _ Hx Hy.
    apply list_elem_of_In, in_map_iff in Hx as (n1 & <- & Hn1).
    apply list_elem_of_In, in_map_iff in Hy as (n2 & He & Hn2).
    apply list_elem_of_In in Hn1, Hn2.
    destruct (Hpl _ _ Hn1) as [H1 _]. destruct (Hpl _ _ Hn2) as [H2 _].
    rewrite He, H1 in H2. injection H2 as H2. lia.
Qed.

Lemma length_keys m : List.length (keys m) = List.length (entries m).
Proof. now rewrite keys_entries, length_map. Qed.

Lemma length_values m : List.length (values m) = List.length (entries m).
Proof. now rewrite values_entries, length_map. Qed.

End HashMapWf.

Module HashMapSpec.
Import HashMap HashMapFacts HashMapChains HashMapCount HashMapOps HashMapWf.

Lemma wf_empty z c lf : (0 < c)%N -> z = 0 -> wf (mk ∅ z c lf).
Proof.
  intros Hc ->. split; [exact Hc|]. split; [apply chains_nodup_empty|]. split.
  - intros i n Hn. rewrite bucket_empty in Hn. inversion Hn.
  - rewrite entries_empty. reflexivity.
Qed.

(** Writing a chain of nodes that belong to slot [i]. *)
Lemma wf_put m i chain z :
  wf m -> visited i (capacity m) = true ->
  NoDup (map key chain) ->
  (forall n, n ∈ chain -> index_of (key n) m = i /\ regular (key n)) ->
  z = size m + Z.of_nat (List.length chain) - Z.of_nat (List.length (bucket m i)) ->
  wf (put_bucket m i chain z).
Proof.
  intros (Hc & Hnd & Hpl & Hsz) Hv Hch Hin ->.
  split; [exact Hc|]. split; [now apply chains_nodup_put|]. split.
  - intros j n Hn. change (index_of (key n) (put_bucket m i chain
        (size m + Z.of_nat (List.length chain) - Z.of_nat (List.length (bucket m i)))))
      with (index_of (key n) m).
    destruct (decide (i = j)) as [<-|Hne].
    + rewrite bucket_put_eq in Hn. now apply Hin.
    + rewrite bucket_put_ne in Hn by exact Hne. now apply Hpl.
  - pose proof (length_entries_put m i chain
        (size m + Z.of_nat (List.length chain) - Z.of_nat (List.length (bucket m i)))) as H.
    rewrite Hv in H. cbn [size put_bucket]. lia.
Qed.

Lemma chain_set_Overwritten_get k v chain chain' k' :
  chain_set k v chain = Overwritten chain' ->
  List.length chain' = List.length chain /\
  chain_get k' chain' = if decide (k' = k) then v else chain_get k' chain.
Proof.
  revert chain'. induction chain as [|n chain IH]; intros chain'; simpl; [discriminate|].
  destruct (decide (key n = k)) as [e|Hne].
  - intros [= <-]. simpl. split; [reflexivity|].
    destruct (decide (key n = k')) as [e'|Hne'];
      destruct (decide (k' = k)); congruence.
  - destruct (chain_set k v chain) as [c|c]; [|discriminate]. intros [= <-].
    destruct (IH c eq_refl) as [Hl Hg]. simpl. split; [now rewrite Hl|].
    destruct (decide (key n = k')) as [e'|Hne']; [|exact Hg].
    destruct (decide (k' = k)); congruence.
Qed.


Lemma rehash_spec f (es : list (jsstring * jsval)) :
  set_spec f ->
  forall m m',
    wf m -> (forall k v, (k, v) ∈ es -> regular k) -> NoDup (map fst es) ->
    for_of (fun '(k, v) m' => set_fuel f k v m') es m = Returned m' ->
    wf m' /\
    forall k', (forall v, (k', v) ∈ es -> lookup m' k' = Some v) /\
               (k' ∉ map fst es -> lookup m' k' = lookup m k').
Proof.
  intros Hspec. induction es as [|[k v] es IH]; intros m m' Hwf Hreg Hnd Hrun.
  - injection Hrun as <-. split; [exact Hwf|]. intros k'. split; [|reflexivity].
    intros v Hin. inversion Hin.
  - cbn [for_of] in Hrun.
    destruct (set_fuel f k v m) as [m1| |] eqn:E; try discriminate.
    destruct (Hspec k v m m1 Hwf) as [Hwf1 Hl1]; [|exact E|].
    { apply (Hreg k v), list_elem_of_here. }
    simpl in Hnd. apply NoDup_cons in Hnd as [Hk Hnd].
    destruct (IH m1 m' Hwf1) as [Hwf' Hl']; [|exact Hnd|exact Hrun|].
    { intros k0 v0 H0. apply (Hreg k0 v0). now apply list_elem_of_further. }
    split; [exact Hwf'|]. intros k'. destruct (Hl' k') as [Ha Hb]. split.
    + intros v' Hin. inversion Hin; subst.
      * rewrite (proj2 (Hl' k) Hk), Hl1. destruct (decide (k = k)); congruence.
      * now apply Ha.
    + intros Hn. simpl in Hn. rewrite Hb, Hl1.
      * destruct (decide (k' = k)) as [->|]; [|reflexivity].
        exfalso. apply Hn, list_elem_of_here.
      * intros Hin. apply Hn. now apply list_elem_of_further.
Qed.

Lemma set_spec_all f : set_spec f.
Proof.
  induction f as [|f IH]; intros k v m m' Hwf Hk H; [discriminate|].
  rewrite set_fuel_unfold in H.
  pose proof Hwf as (Hc & Hnd & Hpl & Hsz).
  pose proof (regular_visited k (capacity m) Hk Hc) as Hv.
  fold (index_of k m) in Hv.
  destruct (chain_set k v _) as [c|c] eqn:E.
  - injection H as <-.
    pose proof (chain_set_Overwritten _ _ _ _ E) as [Hh Hkeys].
    split.
    + apply wf_put; auto.
      * rewrite Hkeys. apply Hnd.
      * intros n Hn.
        assert (Hin : key n ∈ map key (bucket m (index_of k m))).
        { rewrite <- Hkeys. apply list_elem_of_In, in_map, list_elem_of_In, Hn. }
        apply list_elem_of_In, in_map_iff in Hin as (n0 & He & Hn0).
        rewrite <- He. apply Hpl. now apply list_elem_of_In.
      * destruct (chain_set_Overwritten_get _ _ _ _ k E) as [-> _]. lia.
    + intros k'. rewrite lookup_put.
      destruct (chain_set_Overwritten_get _ _ _ _ k' E) as [_ Hg].
      assert (Hhas : chain_has k' c = chain_has k' (bucket m (index_of k m))).
      { destruct (chain_has k' (bucket m (index_of k m))) eqn:E'.
        - apply chain_has_elem. rewrite Hkeys. now apply chain_has_elem.
        - apply chain_has_false. rewrite Hkeys. now apply chain_has_false. }
      destruct (decide (k' = k)) as [->|Hne].
      * destruct (decide (index_of k m = index_of k m)); [|congruence].
        now rewrite Hhas, Hh, Hg.
      * destruct (decide (index_of k' m = index_of k m)) as [e|]; [|reflexivity].
        rewrite Hhas, Hg. unfold lookup, has, get. now rewrite e.
  - apply chain_set_Appended in E as [Hh ->].
    set (m1 := put_bucket m (index_of k m)
                 (bucket m (index_of k m) ++ [mkNode k v]) (size m + 1)) in *.
    assert (Hwf1 : wf m1).
    { apply wf_put; auto.
      - rewrite map_app. simpl. apply NoDup_app. split; [apply Hnd|]. split.
        + intros k' Hk' Hin. apply list_elem_of_singleton in Hin. subst k'.
          apply chain_has_false in Hh. contradiction.
        + apply NoDup_singleton.
      - intros n Hn. apply elem_of_app in Hn as [Hn|Hn]; [now apply Hpl|].
        apply list_elem_of_singleton in Hn. subst n. simpl. auto.
      - rewrite length_app. simpl. lia. }
    assert (Hl1 : forall k', lookup m1 k' = if decide (k' = k) then Some v else lookup m k').
    { intros k'. unfold m1. rewrite lookup_put, chain_has_app, chain_get_app. simpl.
      destruct (decide (k' = k)) as [->|Hne].
      - destruct (decide (index_of k m = index_of k m)); [|congruence].
        rewrite Hh. simpl. destruct (decide (k = k)); [reflexivity | congruence].
      - destruct (decide (index_of k' m = index_of k m)) as [e|]; [|reflexivity].
        destruct (decide (k = k')); [congruence|]. rewrite orb_false_r.
        unfold lookup, has, get. rewrite e.
        destruct (chain_has k' _); reflexivity. }
    destruct (_shouldResize m1).
    + apply _resize_with_Returned in H as [Hb H].
      destruct (rehash_spec f (entries m1) IH
                  (mk ∅ 0 (capacity m1 * 2) (loadFactor m1)) m'
                  (wf_empty 0 (capacity m1 * 2) (loadFactor m1) ltac:(simpl; lia) eq_refl))
        as [Hwf' Hl'].
      * intros k0 v0 H0. apply elem_entries in H0 as (j & n & _ & Hn & <- & _).
        destruct Hwf1 as (_ & _ & Hpl1 & _). apply (Hpl1 _ _ Hn).
      * rewrite <- keys_entries. apply wf_NoDup_keys, Hwf1.
      * exact H.
      * split; [exact Hwf'|]. intros k'. rewrite <- Hl1.
        destruct (Hl' k') as [Ha Hb'].
        destruct (lookup m1 k') as [v'|] eqn:E1.
        -- apply Ha. now apply wf_lookup_entries.
        -- rewrite Hb', lookup_empty; [reflexivity|].
           intros Hin. apply list_elem_of_In, in_map_iff in Hin as ([k0 v0] & He & Hin).
           simpl in He. subst k0. apply list_elem_of_In in Hin.
           apply (wf_lookup_entries m1 k' v0 Hwf1) in Hin. congruence.
    + injection H as <-. split; [exact Hwf1 | exact Hl1].
Qed.

End HashMapSpec.

Module HashMapRegular.
Import HashMap HashMapFacts HashMapChains HashMapCount HashMapOps HashMapWf HashMapSpec.

Lemma wf_new c lf m : new c lf = Returned m -> 0 < c -> wf m.
Proof.
  unfold new. destruct (new_Array c) as [a| |] eqn:E; try discriminate.
  apply new_Array_Returned in E as [-> E]. intros [= <-] Hc.
  apply wf_empty; [lia | reflexivity].
Qed.

Lemma wf_set k v m m' : wf m -> regular k -> set k v m = Returned m' -> wf m'.
Proof. intros Hwf Hk H. apply (set_spec_all _ k v m m' Hwf Hk H). Qed.

Lemma wf_clear m m' : wf m -> clear m = Returned m' -> wf m'.
Proof.
  intros (Hc & _) H. unfold clear in H.
  destruct (new_Array _) as [a| |] eqn:E; try discriminate.
  apply new_Array_Returned in E as [-> E]. injection H as <-.
  now apply wf_empty.
Qed.

Lemma chain_remove_Some k chain chain' :
  chain_remove k chain = Some chain' ->
  List.length chain = S (List.length chain') /\
  (forall n, n ∈ chain' -> n ∈ chain) /\
  (NoDup (map key chain) -> NoDup (map key chain')).
Proof.
  revert chain'. induction chain as [|a chain IH]; intros chain'; simpl; [discriminate|].
  destruct (decide (key a = k)) as [e|Hne].
  - intros [= <-]. split; [reflexivity|]. split.
    + intros n. apply list_elem_of_further.
    + intros H. now apply NoDup_cons in H as [_ H].
  - destruct (chain_remove k chain) as [c|]; [|discriminate]. intros [= <-].
    destruct (IH c eq_refl) as (Hl & Hsub & Hnd). split; [simpl; now rewrite Hl|]. split.
    + intros n Hn. inversion Hn; subst; [apply list_elem_of_here|].
      apply list_elem_of_further, Hsub. assumption.
    + intros H. simpl in H. apply NoDup_cons in H as [Ha H]. simpl.
      apply NoDup_cons. split; [|now apply Hnd].
      intros Hin. apply Ha.
      apply list_elem_of_In, in_map_iff in Hin as (n & He & Hn).
      rewrite <- He. apply list_elem_of_In, in_map, list_elem_of_In, Hsub.
      now apply list_elem_of_In.
Qed.

Lemma wf_remove k m : wf m -> wf (snd (remove k m)).
Proof.
  intros Hwf. pose proof Hwf as (Hc & Hnd & Hpl & Hsz). unfold remove.
  destruct (chain_remove k _) as [c|] eqn:E; [|exact Hwf]. simpl.
  destruct (chain_remove_Some _ _ _ E) as (Hl & Hsub & Hnd').
  assert (Hv : visited (index_of k m) (capacity m) = true).
  { destruct (bucket m (index_of k m)) as [|n chain] eqn:Eb; [discriminate|].
    destruct (Hpl (index_of k m) n) as [Hi Hr]; [rewrite Eb; apply list_elem_of_here|].
    rewrite <- Hi. now apply regular_visited. }
  apply wf_put; [exact Hwf | exact Hv | apply Hnd', Hnd | |lia].
  intros n Hn. apply Hpl, Hsub, Hn.
Qed.

(** Round trip, for a key with an integral hash code. *)
Lemma set_get_regular k v m m' :
  wf m -> regular k -> set k v m = Returned m' ->
  get k m' = v /\ has k m' = true /\
  forall k', k' <> k -> get k' m' = get k' m /\ has k' m' = has k' m.
Proof.
  intros Hwf Hk H. destruct (set_spec_all _ k v m m' Hwf Hk H) as [_ Hl].
  assert (Hget : forall k0 m0, lookup m0 k0 = None -> get k0 m0 = VNull).
  { intros k0 m0. unfold lookup. destruct (has k0 m0) eqn:E; [discriminate|].
    intros _. now apply has_absent_get. }
  split; [|split].
  - specialize (Hl k). destruct (decide (k = k)); [|congruence].
    unfold lookup in Hl. destruct (has k m'); congruence.
  - specialize (Hl k). destruct (decide (k = k)); [|congruence].
    unfold lookup in Hl. destruct (has k m'); congruence.
  - intros k' Hne. specialize (Hl k'). destruct (decide (k' = k)); [congruence|].
    pose proof (Hget k' m) as G. pose proof (Hget k' m') as G'.
    unfold lookup in *. destruct (has k' m'), (has k' m); try discriminate.
    + split; congruence.
    + split; [|reflexivity]. rewrite G, G'; auto.
Qed.

(** [size] after [set], for a key with an integral hash code. *)
Lemma set_length_regular k v m m' :
  wf m -> regular k -> set k v m = Returned m' ->
  length m' = length m + (if has k m then 0 else 1).
Proof.
  intros Hwf Hk H.
  pose proof (wf_set k v m m' Hwf Hk H) as Hwf'.
  destruct (set_get_regular k v m m' Hwf Hk H) as (_ & Hh & Ho).
  pose proof Hwf as (_ & _ & _ & Hsz).
  pose proof Hwf' as (_ & _ & _ & Hsz').
  unfold length. rewrite Hsz, Hsz', <- !length_keys.
  destruct (has k m) eqn:E.
  - assert (P : keys m' ≡ₚ keys m).
    { apply NoDup_Permutation; try now apply wf_NoDup_keys.
      intros k'. rewrite !wf_elem_keys by assumption.
      destruct (decide (k' = k)) as [->|Hne]; [now rewrite Hh, E|].
      destruct (Ho k' Hne) as [_ ->]. reflexivity. }
    rewrite P. lia.
  - assert (P : keys m' ≡ₚ k :: keys m).
    { apply NoDup_Permutation; [now apply wf_NoDup_keys| |].
      - apply NoDup_cons. split; [|now apply wf_NoDup_keys].
        rewrite wf_elem_keys by assumption. congruence.
      - intros k'. rewrite elem_of_cons, !wf_elem_keys by assumption.
        destruct (decide (k' = k)) as [->|Hne]; [rewrite Hh; tauto|].
        destruct (Ho k' Hne) as [_ ->]. tauto. }
    rewrite P. simpl. lia.
Qed.

(** The three traversals agree with [size] in a well-formed table. *)
Lemma wf_traversals m :
  wf m ->
  Z.of_nat (List.length (keys m)) = length m /\
  Z.of_nat (List.length (values m)) = length m /\
  Z.of_nat (List.length (entries m)) = length m.
Proof.
  intros (_ & _ & _ & Hsz). unfold length. rewrite length_keys, length_values. lia.
Qed.

End HashMapRegular.

Module HashSetWf.
Import HashSet HashSetFacts.

Lemma Set_has_elem k b : Set_has k b = true <-> k ∈ b.
Proof. unfold Set_has. apply bool_decide_eq_true. Qed.

Lemma has_bucket k s : has k s = Set_has k (bucket s (index_of k s)).
Proof.
  unfold has, bucket. destruct (storage s !! index_of k s); [reflexivity|].
  simpl. symmetry. apply bool_decide_eq_false_2. intros H. inversion H.
Qed.

Lemma hs_bucket_put_eq s i b z : bucket (put_bucket s i b z) i = b.
Proof. unfold bucket, put_bucket. simpl. now rewrite lookup_insert_eq. Qed.

Lemma hs_bucket_put_ne s i j b z : i <> j -> bucket (put_bucket s i b z) j = bucket s j.
Proof. intros H. unfold bucket, put_bucket. simpl. now rewrite lookup_insert_ne. Qed.

Lemma hs_bucket_empty i z c lf : bucket (mk ∅ z c lf) i = [].
Proof. unfold bucket. simpl. now rewrite lookup_empty. Qed.

Lemma keys_empty z c lf : keys (mk ∅ z c lf) = [].
Proof.
  unfold keys. simpl. induction (seq 0 (N.to_nat c)) as [|i l IH]; simpl;
    [reflexivity|]. now rewrite hs_bucket_empty, IH.
Qed.

(** The table that [add] builds for a key that is not in the set. *)
Lemma inserted_absent k s :
  has k s = false ->
  inserted k s
  = put_bucket s (index_of k s) (bucket s (index_of k s) ++ [k]) (size s + 1).
Proof.
  unfold has, inserted, bucket.
  destruct (storage s !! index_of k s) as [b|] eqn:E; simpl.
  - rewrite E. simpl. intros H. rewrite H. unfold Set_add. now rewrite H.
  - intros _. rewrite lookup_insert_eq. simpl.
    unfold put_bucket. simpl. f_equal. apply insert_insert_eq.
Qed.

Lemma length_keys_put s i b z :
  (List.length (keys (put_bucket s i b z))
   + (if visited i (capacity s) then List.length (bucket s i) else 0)
   = List.length (keys s) + (if visited i (capacity s) then List.length b else 0))%nat.
Proof.
  unfold keys. simpl.
  destruct i as [j|x]; simpl.
  - pose proof (flat_map_length_update
      (fun i => bucket s (Slot (N.of_nat i)))
      (fun i => bucket (put_bucket s (Slot j) b z) (Slot (N.of_nat i)))
      (seq 0 (N.to_nat (capacity s))) (N.to_nat j) (NoDup_seq _ _)) as H.
    cbv beta in H. rewrite N2Nat.id, hs_bucket_put_eq in H.
    assert (Hd : bool_decide (N.to_nat j ∈ seq 0 (N.to_nat (capacity s)))
                 = (j <? capacity s)%N).
    { destruct (N.ltb_spec j (capacity s)).
      - apply bool_decide_eq_true_2, list_elem_of_In, in_seq. lia.
      - apply bool_decide_eq_false_2. rewrite list_elem_of_In, in_seq. lia. }
    rewrite Hd in H. apply H.
    intros i Hi. rewrite hs_bucket_put_ne; [reflexivity|].
    intros [= ->]. apply Hi. now rewrite Nat2N.id.
  - rewrite !Nat.add_0_r. f_equal. apply flat_map_ext. intros i.
    now rewrite hs_bucket_put_ne.
Qed.

Lemma hs_elem_keys s k :
  k ∈ keys s <-> exists j, (j < capacity s)%N /\ k ∈ bucket s (Slot j).
Proof.
  unfold keys. rewrite list_elem_of_In, in_flat_map. split.
  - intros (i & Hi & Hin). apply in_seq in Hi. exists (N.of_nat i).
    split; [lia | now apply list_elem_of_In].
  - intros (j & Hj & Hin). exists (N.to_nat j). split; [apply in_seq; lia|].
    rewrite N2Nat.id. now apply list_elem_of_In.
Qed.

Lemma hs_wf_elem_keys s k : wf s -> k ∈ keys s <-> has k s = true.
Proof.
  intros (Hc & Hnd & Hpl & _). rewrite hs_elem_keys, has_bucket, Set_has_elem. split.
  - intros (j & Hj & Hin). destruct (Hpl _ _ Hin) as [-> _]. exact Hin.
  - intros Hin. destruct (Hpl _ _ Hin) as [_ Hr].
    destruct (_getIndex_integral _ (capacity s) Hr Hc) as (j & Hj & Hlt).
    fold (index_of k s) in Hj. rewrite Hj in Hin. eauto.
Qed.

Lemma hs_wf_NoDup_keys s : wf s -> NoDup (keys s).
Proof.
  intros (Hc & Hnd & Hpl & _). unfold keys. apply NoDup_flat_map.
  - apply NoDup_seq.
  - intros i _. apply Hnd.
  - intros x y a _ _ Hx Hy.
    destruct (Hpl _ _ Hx) as [H1 _]. destruct (Hpl _ _ Hy) as [H2 _].
    rewrite H1 in H2. injection H2 as H2. lia.
Qed.

Lemma hs_wf_empty z c lf : (0 < c)%N -> z = 0 -> wf (mk ∅ z c lf).
Proof.
  intros Hc ->. split; [exact Hc|]. split.
  - intros i. rewrite hs_bucket_empty. constructor.
  - split.
    + intros i k Hk. rewrite hs_bucket_empty in Hk. inversion Hk.
    + rewrite keys_empty. reflexivity.
Qed.

Lemma hs_wf_put s i b z :
  wf s -> visited i (capacity s) = true -> NoDup b ->
  (forall k, k ∈ b -> index_of k s = i /\ regular k) ->
  z = size s + Z.of_nat (List.length b) - Z.of_nat (List.length (bucket s i)) ->
  wf (put_bucket s i b z).
Proof.
  intros (Hc & Hnd & Hpl & Hsz) Hv Hb Hin ->.
  split; [exact Hc|]. split; [|split].
  - intros j. destruct (decide (i = j)) as [<-|Hne].
    + now rewrite hs_bucket_put_eq.
    + rewrite hs_bucket_put_ne by exact Hne. apply Hnd.
  - intros j k Hk. change (index_of k (put_bucket s i b
        (size s + Z.of_nat (List.length b) - Z.of_nat (List.length (bucket s i)))))
      with (index_of k s).
    destruct (decide (i = j)) as [<-|Hne].
    + rewrite hs_bucket_put_eq in Hk. now apply Hin.
    + rewrite hs_bucket_put_ne in Hk by exact Hne. now apply Hpl.
  - pose proof (length_keys_put s i b
        (size s + Z.of_nat (List.length b) - Z.of_nat (List.length (bucket s i)))) as H.
    rewrite Hv in H. cbn [size put_bucket]. lia.
Qed.

Lemma has_put s i b z k :
  has k (put_bucket s i b z)
  = if decide (index_of k s = i) then Set_has k b else has k s.
Proof.
  rewrite !has_bucket.
  change (index_of k (put_bucket s i b z)) with (index_of k s).
  destruct (decide (index_of k s = i)) as [->|Hne].
  - now rewrite hs_bucket_put_eq.
  - rewrite hs_bucket_put_ne by congruence. reflexivity.
Qed.

Lemma Set_has_app k b1 b2 : Set_has k (b1 ++ b2) = Set_has k b1 || Set_has k b2.
Proof.
  unfold Set_has. apply eq_true_iff_eq.
  rewrite orb_true_iff, !bool_decide_eq_true, elem_of_app. reflexivity.
Qed.

Lemma Set_has_singleton k k' : Set_has k' [k] = bool_decide (k' = k).
Proof.
  unfold Set_has. apply eq_true_iff_eq.
  rewrite !bool_decide_eq_true. apply list_elem_of_singleton.
Qed.

(** The first half of [add], on a well-formed set. *)
Lemma wf_inserted k s :
  wf s -> regular k ->
  wf (inserted k s) /\
  forall k', has k' (inserted k s) = if decide (k' = k) then true else has k' s.
Proof.
  intros Hwf Hk. pose proof Hwf as (Hc & Hnd & Hpl & Hsz).
  destruct (has k s) eqn:E.
  - rewrite (inserted_present k s E). split; [exact Hwf|].
    intros k'. destruct (decide (k' = k)) as [->|]; [exact E | reflexivity].
  - rewrite (inserted_absent k s E). split.
    + apply hs_wf_put; [exact Hwf | now apply regular_visited | | |].
      * apply NoDup_app. split; [apply Hnd|]. split; [|apply NoDup_singleton].
        intros k' Hk' Hin. apply list_elem_of_singleton in Hin. subst k'.
        rewrite has_bucket in E. apply Set_has_elem in Hk'. congruence.
      * intros k' Hk'. apply elem_of_app in Hk' as [Hk'|Hk']; [now apply Hpl|].
        apply list_elem_of_singleton in Hk'. subst k'. auto.
      * rewrite length_app. simpl. lia.
    + intros k'. rewrite has_put, Set_has_app, Set_has_singleton.
      destruct (decide (k' = k)) as [->|Hne].
      * destruct (decide (index_of k s = index_of k s)); [|congruence].
        rewrite bool_decide_eq_true_2 by reflexivity. apply orb_true_r.
      * destruct (decide (index_of k' s = index_of k s)) as [e|]; [|reflexivity].
        rewrite bool_decide_eq_false_2 by exact Hne. rewrite orb_false_r.
        now rewrite has_bucket, e.
Qed.


Lemma hs_rehash_spec f (ks : list jsstring) :
  add_spec f ->
  forall s s',
    wf s -> (forall k, k ∈ ks -> regular k) ->
    for_of (add_fuel f) ks s = Returned s' ->
    wf s' /\ forall k', has k' s' = bool_decide (k' ∈ ks) || has k' s.
Proof.
  intros Hspec. induction ks as [|k ks IH]; intros s s' Hwf Hreg Hrun.
  - injection Hrun as <-. split; [exact Hwf|]. intros k'.
    rewrite bool_decide_eq_false_2; [reflexivity|]. intros H. inversion H.
  - cbn [for_of] in Hrun.
    destruct (add_fuel f k s) as [s1| |] eqn:E; try discriminate.
    destruct (Hspec k s s1 Hwf) as [Hwf1 Hl1]; [apply Hreg, list_elem_of_here|exact E|].
    destruct (IH s1 s' Hwf1) as [Hwf' Hl']; [|exact Hrun|].
    { intros k0 H0. apply Hreg. now apply list_elem_of_further. }
    split; [exact Hwf'|]. intros k'. rewrite Hl', Hl1.
    destruct (decide (k' = k)) as [->|Hne].
    + rewrite (bool_decide_eq_true_2 (k ∈ k :: ks)) by apply list_elem_of_here.
      apply orb_true_r.
    + f_equal. apply eq_true_iff_eq. rewrite !bool_decide_eq_true, elem_of_cons. tauto.
Qed.

Lemma add_spec_all f : add_spec f.
Proof.
  induction f as [|f IH]; intros k s s' Hwf Hk H; [discriminate|].
  rewrite add_fuel_unfold in H.
  destruct (wf_inserted k s Hwf Hk) as [Hwf1 Hl1].
  destruct (_shouldResize _).
  - apply _resize_with_keys_Returned in H as [Hb H].
    pose proof Hwf1 as (Hc1 & _ & Hpl1 & _).
    assert (Hc2 : (0 < capacity (inserted k s) * 2)%N) by lia.
    destruct (hs_rehash_spec f (keys (inserted k s)) IH
                (mk ∅ 0 (capacity (inserted k s) * 2) (loadFactor (inserted k s))) s'
                (hs_wf_empty 0 _ _ Hc2 eq_refl)) as [Hwf' Hl'].
    + intros k0 H0. apply hs_elem_keys in H0 as (j & _ & Hin). apply (Hpl1 _ _ Hin).
    + exact H.
    + split; [exact Hwf'|]. intros k'. rewrite Hl', <- Hl1.
      rewrite has_bucket at 1. rewrite hs_bucket_empty. rewrite orb_false_r.
      apply eq_true_iff_eq. rewrite bool_decide_eq_true. now apply hs_wf_elem_keys.
  - injection H as <-. split; [exact Hwf1 | exact Hl1].
Qed.

(** [add] on a well-formed set, for a key with an integral hash code. *)
Lemma add_regular k s s' :
  wf s -> regular k -> add k s = Returned s' ->
  wf s' /\ has k s' = true /\
  (forall k', k' <> k -> has k' s' = has k' s) /\
  length s' = length s + (if has k s then 0 else 1).
Proof.
  intros Hwf Hk H. destruct (add_spec_all _ k s s' Hwf Hk H) as [Hwf' Hl].
  assert (Hh : has k s' = true).
  { rewrite Hl. destruct (decide (k = k)); congruence. }
  assert (Ho : forall k', k' <> k -> has k' s' = has k' s).
  { intros k' Hne. rewrite Hl. destruct (decide (k' = k)); congruence. }
  split; [exact Hwf'|]. split; [exact Hh|]. split; [exact Ho|].
  pose proof Hwf as (_ & _ & _ & Hsz). pose proof Hwf' as (_ & _ & _ & Hsz').
  unfold length. rewrite Hsz, Hsz'.
  destruct (has k s) eqn:E.
  - assert (P : keys s' ≡ₚ keys s).
    { apply NoDup_Permutation; try now apply hs_wf_NoDup_keys.
      intros k'. rewrite !hs_wf_elem_keys by assumption.
      destruct (decide (k' = k)) as [->|Hne]; [now rewrite Hh, E|].
      now rewrite (Ho k' Hne). }
    rewrite P. lia.
  - assert (P : keys s' ≡ₚ k :: keys s).
    { apply NoDup_Permutation; [now apply hs_wf_NoDup_keys| |].
      - apply NoDup_cons. split; [|now apply hs_wf_NoDup_keys].
        rewrite hs_wf_elem_keys by assumption. congruence.
      - intros k'. rewrite elem_of_cons, !hs_wf_elem_keys by assumption.
        destruct (decide (k' = k)) as [->|Hne]; [rewrite Hh; tauto|].
        rewrite (Ho k' Hne). tauto. }
    rewrite P. simpl. lia.
Qed.

(** Once [add(k)] has returned with the key in the set, adding it again
    changes nothing. *)
Lemma add_again k s s1 :
  js_gt (loadFactor s) (num 0) = true ->
  add k s = Returned s1 -> has k s1 = true -> add k s1 = Returned s1.
Proof.
  intros Hlf H Hh. apply add_present; [exact Hh|].
  eapply add_fuel_load; [exact Hlf | exact H].
Qed.

End HashSetWf.

Module HashSetRegular.
Import HashSet HashSetFacts HashSetWf.

Lemma hs_wf_new c lf s : new c lf = Returned s -> 0 < c -> wf s.
Proof.
  unfold new. destruct (new_Array c) as [a| |] eqn:E; try discriminate.
  apply new_Array_Returned in E as [-> E]. intros [= <-] Hc.
  apply hs_wf_empty; [lia | reflexivity].
Qed.

Lemma wf_add k s s' : wf s -> regular k -> add k s = Returned s' -> wf s'.
Proof. intros Hwf Hk H. apply (add_spec_all _ k s s' Hwf Hk H). Qed.

Lemma hs_wf_clear s s' : wf s -> clear s = Returned s' -> wf s'.
Proof.
  intros (Hc & _) H. unfold clear in H.
  destruct (new_Array _) as [a| |] eqn:E; try discriminate.
  apply new_Array_Returned in E as [-> E]. injection H as <-.
  now apply hs_wf_empty.
Qed.

Lemma Set_delete_absent k b : k ∉ b -> Set_delete k b = b.
Proof.
  unfold Set_delete. induction b as [|a b IH]; intros Hk; [reflexivity|].
  rewrite filter_cons. destruct (decide (a ≠ k)) as [Hne|He].
  - f_equal. apply IH. intros H. apply Hk. now apply list_elem_of_further.
  - exfalso. apply He. intros ->. apply Hk, list_elem_of_here.
Qed.

Lemma Set_delete_length k b :
  NoDup b -> k ∈ b -> List.length b = S (List.length (Set_delete k b)).
Proof.
  unfold Set_delete. induction b as [|a b IH]; intros Hnd Hk; [inversion Hk|].
  apply NoDup_cons in Hnd as [Ha Hnd]. rewrite filter_cons.
  destruct (decide (a ≠ k)) as [Hne|He].
  - simpl. f_equal. apply IH; [exact Hnd|]. inversion Hk; subst; [contradiction|assumption].
  - assert (a = k) as -> by (destruct (decide (a = k)); [assumption | contradiction]).
    simpl. f_equal. fold (Set_delete k b). now rewrite Set_delete_absent.
Qed.

Lemma hs_wf_remove k s : wf s -> wf (snd (remove k s)).
Proof.
  intros Hwf. pose proof Hwf as (Hc & Hnd & Hpl & Hsz). unfold remove.
  destruct (storage s !! index_of k s) as [b|] eqn:E; [|exact Hwf].
  destruct (Set_has k b) eqn:Eh; [|exact Hwf]. simpl.
  assert (Hb : bucket s (index_of k s) = b) by (unfold bucket; now rewrite E).
  apply Set_has_elem in Eh.
  assert (Hr : regular k) by (apply (Hpl (index_of k s)); now rewrite Hb).
  apply hs_wf_put; [exact Hwf | now apply regular_visited | | |].
  - apply NoDup_filter. rewrite <- Hb. apply Hnd.
  - intros k' Hk'. apply list_elem_of_filter in Hk' as [_ Hk'].
    apply Hpl. now rewrite Hb.
  - rewrite Hb. rewrite (Set_delete_length k b); [lia | | exact Eh].
    rewrite <- Hb. apply Hnd.
Qed.

End HashSetRegular.

(** ** The hash code, and the agreement of the traversals *)

Lemma hash_nil : hash [] = pos_zero.
Proof. reflexivity. Qed.

Lemma hash_snoc (s : jsstring) (c : N) :
  hash (s ++ [c]) = js_add (js_mul (num 31) (hash s)) (num (Z.of_N c)).
Proof. unfold hash. now rewrite fold_left_app. Qed.

Example hash_apple : hash (str "apple") = num 93029210.
Proof. vm_compute. reflexivity. Qed.

Example index_apple : _getIndex (hash (str "apple")) 16 = Slot 10.
Proof. vm_compute. reflexivity. Qed.

Lemma combine_fst_snd {A B : Type} (l : list (A * B)) :
  combine (map fst l) (map snd l) = l.
Proof. induction l as [|[a b] l IH]; simpl; [reflexivity|]. now rewrite IH. Qed.

Lemma entries_combine (m : HashMap.t) :
  HashMap.entries m = combine (HashMap.keys m) (HashMap.values m).
Proof.
  rewrite HashMapOps.keys_entries, HashMapOps.values_entries.
  symmetry. apply combine_fst_snd.
Qed.

(** For an integer hash code below 2^53 in magnitude, the index is
    [abs(hashCode) mod capacity]. *)
Lemma _getIndex_num (z : Z) (c : N) :
  - 2 ^ 53 < z < 2 ^ 53 -> (0 < c)%N ->
  _getIndex (num z) c = Slot (Z.to_N (Z.abs z) mod c).
Proof.
  intros Hz Hc.
  assert (Hc0 : (c =? 0)%N = false) by (apply N.eqb_neq; lia).
  assert (H : forall s p, Z.pos p < 2 ^ 53 ->
            _getIndex (binary_round prec emax s p 0) c = Slot (N.pos p mod c)).
  { intros s p Hp. destruct (binary_round_exact s p Hp) as (m & e & -> & He & Hm).
    unfold _getIndex. simpl. rewrite Hc0.
    destruct e as [|q|q]; try lia.
    - change (Z.to_N (- 0)) with 0%N in Hm. change (Z.to_N 0) with 0%N.
      rewrite N.pow_0_r in *. rewrite Hm. f_equal. f_equal. lia.
    - replace (Z.to_N (- Z.neg q)) with (N.pos q) in Hm by lia.
      assert (H2 : (2 ^ N.pos q <> 0)%N) by (apply N.pow_nonzero; lia).
      rewrite Hm, N.Div0.mod_mul, N.eqb_refl, N.div_mul by exact H2. reflexivity. }
  destruct z as [|p|p].
  - unfold _getIndex. simpl. now rewrite Hc0.
  - apply H. lia.
  - apply H. lia.
Qed.

Example main_js_regular : Forall (fun kv => regular (fst kv)) main_js.
Proof. repeat constructor. Qed.

Example long_key_not_regular : ~ regular long_key.
Proof. unfold regular. vm_compute. discriminate. Qed.

(** ** The depth counter does not matter *)

Lemma for_of_ext_inv {A S : Type} (body1 body2 : A -> S -> outcome S)
    (P : S -> Prop) (xs : list A) :
  (forall x s, P s -> body1 x s = body2 x s) ->
  (forall x s s', P s -> body1 x s = Returned s' -> P s') ->
  forall s, P s -> for_of body1 xs s = for_of body2 xs s.
Proof.
  intros Hext Hstep. induction xs as [|x xs IH]; intros s Hs; simpl; [reflexivity|].
  rewrite <- (Hext x s Hs). destruct (body1 x s) as [s1| |] eqn:E; try reflexivity.
  apply IH. eapply Hstep; [exact Hs | exact E].
Qed.

(** One more level of depth than [headroom] asks for changes nothing:
    [set] computes what the unbounded recursion computes. *)
Lemma set_fuel_stable f : forall k v m,
  (headroom (HashMap.capacity m) <= f)%nat ->
  HashMap.set_fuel (S f) k v m = HashMap.set_fuel f k v m.
Proof.
  induction f as [|f IH]; intros k v m Hf; [unfold headroom in Hf; lia|].
  rewrite (HashMapFacts.set_fuel_unfold (S f)), (HashMapFacts.set_fuel_unfold f).
  destruct (HashMap.chain_set k v _) as [c|c]; [reflexivity|].
  destruct (HashMap._shouldResize _); [|reflexivity].
  unfold HashMap._resize_with.
  destruct (new_Array _) as [a| |] eqn:E; try reflexivity.
  apply new_Array_Returned in E as [-> E]. simpl in *.
  destruct (N.eq_dec (HashMap.capacity m) 0%N) as [H0|H0].
  { rewrite HashMapFacts.entries_capacity_0 by exact H0. reflexivity. }
  apply (for_of_ext_inv _ _
           (fun m'' => exists j : N,
                HashMap.capacity m'' = (HashMap.capacity m * 2 * 2 ^ j)%N)).
  - intros [k' v'] s [j Hs]. apply IH. rewrite Hs.
    pose proof (headroom_double (HashMap.capacity m) j ltac:(lia) ltac:(lia)). lia.
  - intros [k' v'] s s' [j Hs] Hr.
    apply (HashMapFacts.set_fuel_capacity (S f)) in Hr as [_ [_ [j' Hr]]].
    exists (j + j')%N. rewrite Hr, Hs, N.pow_add_r. lia.
  - exists 0%N. simpl. lia.
Qed.

Lemma add_fuel_stable f : forall k s,
  (headroom (HashSet.capacity s) <= f)%nat ->
  HashSet.add_fuel (S f) k s = HashSet.add_fuel f k s.
Proof.
  induction f as [|f IH]; intros k s Hf; [unfold headroom in Hf; lia|].
  rewrite (HashSetFacts.add_fuel_unfold (S f)), (HashSetFacts.add_fuel_unfold f).
  destruct (HashSet._shouldResize _); [|reflexivity].
  unfold HashSet._resize_with.
  rewrite HashSetFacts.inserted_capacity, HashSetFacts.inserted_loadFactor.
  destruct (new_Array _) as [a| |] eqn:E; try reflexivity.
  apply new_Array_Returned in E as [-> E].
  destruct (N.eq_dec (HashSet.capacity s) 0%N) as [H0|H0].
  { rewrite HashSetFacts.keys_capacity_0
      by (now rewrite HashSetFacts.inserted_capacity). reflexivity. }
  apply (for_of_ext_inv _ _
           (fun s'' => exists j : N,
                HashSet.capacity s'' = (HashSet.capacity s * 2 * 2 ^ j)%N)).
  - intros k' t [j Hs]. apply IH. rewrite Hs.
    pose proof (headroom_double (HashSet.capacity s) j ltac:(lia) ltac:(lia)). lia.
  - intros k' t t' [j Hs] Hr.
    apply (HashSetFacts.add_fuel_capacity (S f)) in Hr as [_ [_ [j' Hr]]].
    exists (j + j')%N. rewrite Hr, Hs, N.pow_add_r. lia.
  - exists 0%N. simpl. lia.
Qed.

(** Any depth from [headroom] up gives the result of [set] and of [add]. *)
Lemma set_any_depth f k v m :
  (headroom (HashMap.capacity m) <= f)%nat ->
  HashMap.set_fuel f k v m = HashMap.set_fuel (headroom (HashMap.capacity m)) k v m.
Proof.
  intros H. induction H as [|f H IH]; [reflexivity|].
  rewrite set_fuel_stable by exact H. exact IH.
Qed.

Lemma add_any_depth f k s :
  (headroom (HashSet.capacity s) <= f)%nat ->
  HashSet.add_fuel f k s = HashSet.add_fuel (headroom (HashSet.capacity s)) k s.
Proof.
  intros H. induction H as [|f H IH]; [reflexivity|].
  rewrite add_fuel_stable by exact H. exact IH.
Qed.

(** ** Further facts about [HashMap], in every table *)

Module HashMapAny.
Import HashMap HashMapFacts HashMapChains HashMapCount HashMapOps HashMapWf HashMapSpec.

(** The chain walk of [set], seen through [has] and [get]. *)
Lemma walk_lookup k v m z chain :
  chain_set k v (bucket m (index_of k m)) = Overwritten chain \/
  chain_set k v (bucket m (index_of k m)) = Appended chain ->
  forall k', lookup (put_bucket m (index_of k m) chain z) k'
             = if decide (k' = k) then Some v else lookup m k'.
Proof.
  intros [E|E] k'; rewrite lookup_put.
  - pose proof (chain_set_Overwritten _ _ _ _ E) as [Hh Hkeys].
    destruct (chain_set_Overwritten_get _ _ _ _ k' E) as [_ Hg].
    assert (Hhas : chain_has k' chain = chain_has k' (bucket m (index_of k m))).
    { destruct (chain_has k' (bucket m (index_of k m))) eqn:E'.
      - apply chain_has_elem. rewrite Hkeys. now apply chain_has_elem.
      - apply chain_has_false. rewrite Hkeys. now apply chain_has_false. }
    destruct (decide (k' = k)) as [->|Hne].
    + destruct (decide (index_of k m = index_of k m)); [|congruence].
      now rewrite Hhas, Hh, Hg.
    + destruct (decide (index_of k' m = index_of k m)) as [e|]; [|reflexivity].
      rewrite Hhas, Hg. unfold lookup, has, get. now rewrite e.
  - apply chain_set_Appended in E as [Hh ->].
    rewrite chain_has_app, chain_get_app. simpl.
    destruct (decide (k' = k)) as [->|Hne].
    + destruct (decide (index_of k m = index_of k m)); [|congruence].
      rewrite Hh. simpl. destruct (decide (k = k)); [reflexivity | congruence].
    + destruct (decide (index_of k' m = index_of k m)) as [e|]; [|reflexivity].
      destruct (decide (k = k')); [congruence|]. rewrite orb_false_r.
      unfold lookup, has, get. rewrite e.
      destruct (chain_has k' _); reflexivity.
Qed.

(** A [_resize] that returns has at least doubled [capacity]. *)
Lemma _resize_with_doubles f m m' :
  _resize_with (set_fuel f) m = Returned m' ->
  exists j : N, capacity m' = (capacity m * 2 * 2 ^ j)%N.
Proof.
  intros H. apply _resize_with_Returned in H as [_ H].
  apply (for_of_inv _ (fun m'' => exists j : N,
           capacity m'' = (capacity m * 2 * 2 ^ j)%N)) in H; [exact H| |].
  - intros [k v] s s' _ [j Hs] Hr.
    apply (set_fuel_capacity f) in Hr as (_ & _ & j' & Hr).
    exists (j + j')%N. rewrite Hr, Hs, N.pow_add_r. lia.
  - exists 0%N. simpl. lia.
Qed.

Lemma set_fuel_kept_capacity f k v m m' :
  (0 < capacity m)%N ->
  set_fuel f k v m = Returned m' -> capacity m' = capacity m ->
  forall k', lookup m' k' = if decide (k' = k) then Some v else lookup m k'.
Proof.
  intros Hc H Hcap. destruct f as [|f]; [discriminate|].
  rewrite set_fuel_unfold in H.
  destruct (chain_set k v _) as [c|c] eqn:E.
  - injection H as <-. apply walk_lookup. now left.
  - destruct (_shouldResize _).
    + apply _resize_with_doubles in H as [j H]. simpl in H.
      pose proof (pow2_pos j). rewrite Hcap in H. nia.
    + injection H as <-. apply walk_lookup. now right.
Qed.

Lemma lookup_get_has m m' k k' :
  lookup m' k' = lookup m k -> has k' m' = has k m /\ get k' m' = get k m.
Proof.
  unfold lookup. intros H.
  destruct (has k' m') eqn:E1, (has k m) eqn:E2; try discriminate.
  - split; congruence.
  - split; [reflexivity|]. now rewrite !has_absent_get.
Qed.

Lemma lookup_Some_get_has m k v :
  lookup m k = Some v -> has k m = true /\ get k m = v.
Proof.
  unfold lookup. destruct (has k m); [|discriminate]. intros [= <-]. auto.
Qed.

(** [remove] and the other keys of the chain. *)
Lemma chain_remove_other k k' chain chain' :
  chain_remove k chain = Some chain' -> k' <> k ->
  chain_has k' chain' = chain_has k' chain /\ chain_get k' chain' = chain_get k' chain.
Proof.
  revert chain'. induction chain as [|n chain IH]; intros chain'; simpl; [discriminate|].
  destruct (decide (key n = k)) as [e|Hne].
  - intros [= <-] Hk. destruct (decide (key n = k')); [congruence|]. auto.
  - destruct (chain_remove k chain) as [c|]; [|discriminate]. intros [= <-] Hk.
    simpl. destruct (decide (key n = k')); [auto|]. now apply IH.
Qed.

Lemma remove_lookup_other k k' m :
  k' <> k -> lookup (snd (remove k m)) k' = lookup m k'.
Proof.
  intros Hne. unfold remove.
  destruct (chain_remove k _) as [c|] eqn:E; [|reflexivity]. simpl.
  rewrite lookup_put.
  destruct (decide (index_of k' m = index_of k m)) as [e|]; [|reflexivity].
  destruct (chain_remove_other _ k' _ _ E Hne) as [-> ->].
  unfold lookup, has, get. now rewrite e.
Qed.

(** [capacity] stays below the bound of [new Array]. *)
Lemma reachable_capacity m : reachable m -> (capacity m < 2 ^ 32)%N.
Proof.
  induction 1 as [c lf m H|k v m m' _ IH H|k m _ IH|m m' _ IH H].
  - unfold new in H. destruct (new_Array c) as [a| |] eqn:E; try discriminate.
    apply new_Array_Returned in E as [_ E]. injection H as <-. simpl. lia.
  - apply (set_fuel_capacity _ _ _ _ _ H), IH.
  - unfold remove. destruct (chain_remove _ _); exact IH.
  - unfold clear in H. destruct (new_Array _); try discriminate.
    injection H as <-. exact IH.
Qed.

Lemma clear_Returned m :
  (capacity m < 2 ^ 32)%N ->
  clear m = Returned (mk ∅ 0 (capacity m) (loadFactor m)).
Proof.
  intros H. unfold clear, new_Array.
  destruct (Z.leb_spec 0 (Z.of_N (capacity m))); [|lia].
  destruct (Z.ltb_spec (Z.of_N (capacity m)) (2 ^ 32)); [reflexivity | lia].
Qed.

Lemma map_keys_empty z c lf : keys (mk ∅ z c lf) = [].
Proof. now rewrite keys_entries, entries_empty. Qed.

Lemma values_empty z c lf : values (mk ∅ z c lf) = [].
Proof. now rewrite values_entries, entries_empty. Qed.

(** [set] at the bound of [new Array]. *)
Lemma set_fuel_RangeError f k v m :
  has k m = false ->
  should_resize (size m + 1) (capacity m) (loadFactor m) = true ->
  (2 ^ 31 <= capacity m)%N ->
  set_fuel (S f) k v m = RangeError.
Proof.
  intros Hh Hs Hc. rewrite set_fuel_unfold, (chain_set_absent k v _ Hh).
  unfold _shouldResize. cbn [size capacity loadFactor put_bucket]. rewrite Hs.
  unfold _resize_with, new_Array. cbn [size capacity loadFactor put_bucket].
  destruct (Z.ltb_spec (Z.of_N (capacity m * 2)) (2 ^ 32)) as [H|H].
  - exfalso. change (2 ^ 31)%N with 2147483648%N in Hc.
    change (2 ^ 32) with 4294967296 in H. lia.
  - now rewrite andb_false_r.
Qed.

End HashMapAny.

(** ** Counting the nodes of a storage array *)

Lemma node_count_empty {A : Type} : node_count (∅ : gmap index (list A)) = 0%nat.
Proof. unfold node_count. apply map_fold_empty. Qed.

Lemma node_count_insert_fresh {A : Type} (s : gmap index (list A)) i chain :
  s !! i = None ->
  node_count (<[i := chain]> s) = (List.length chain + node_count s)%nat.
Proof.
  intros H. unfold node_count.
  rewrite map_fold_insert_L; [reflexivity| |exact H].
  intros. lia.
Qed.

Lemma node_count_insert {A : Type} (s : gmap index (list A)) i chain :
  (node_count (<[i := chain]> s) + List.length (default [] (s !! i))
   = node_count s + List.length chain)%nat.
Proof.
  destruct (s !! i) as [c0|] eqn:E; simpl.
  - rewrite <- (insert_delete_eq s i chain).
    rewrite node_count_insert_fresh by apply lookup_delete_eq.
    rewrite <- (insert_delete_id s i c0 E) at 2.
    rewrite node_count_insert_fresh by apply lookup_delete_eq. lia.
  - rewrite node_count_insert_fresh by exact E. lia.
Qed.

(** ** What every table that a program can build satisfies *)

Module HashMapInv.
Import HashMap HashMapFacts HashMapChains HashMapCount HashMapOps HashMapWf HashMapSpec HashMapAny.

Lemma map_sound_empty c lf : map_sound (mk ∅ 0 c lf).
Proof.
  split.
  - intros i n Hn. rewrite bucket_empty in Hn. inversion Hn.
  - simpl. now rewrite node_count_empty.
Qed.

Lemma map_sound_put m i chain z :
  map_sound m ->
  (forall n, n ∈ chain -> index_of (key n) m = i) ->
  z = size m + Z.of_nat (List.length chain) - Z.of_nat (List.length (bucket m i)) ->
  map_sound (put_bucket m i chain z).
Proof.
  intros [Hpl Hsz] Hin ->. split.
  - intros j n Hn.
    change (index_of (key n) (put_bucket m i chain
        (size m + Z.of_nat (List.length chain) - Z.of_nat (List.length (bucket m i)))))
      with (index_of (key n) m).
    destruct (decide (i = j)) as [<-|Hne].
    + rewrite bucket_put_eq in Hn. now apply Hin.
    + rewrite bucket_put_ne in Hn by exact Hne. now apply Hpl.
  - pose proof (node_count_insert (storage m) i chain) as H.
    fold (bucket m i) in H. cbn [size storage put_bucket]. lia.
Qed.

Lemma set_fuel_sound f : forall k v m m',
  map_sound m -> set_fuel f k v m = Returned m' -> map_sound m'.
Proof.
  induction f as [|f IH]; intros k v m m' Hm H; [discriminate|].
  rewrite set_fuel_unfold in H. pose proof Hm as [Hpl Hsz].
  destruct (chain_set k v _) as [c|c] eqn:E.
  - injection H as <-. apply map_sound_put; [exact Hm| |].
    + intros n Hn. pose proof (chain_set_Overwritten _ _ _ _ E) as [_ Hkeys].
      assert (Hin : key n ∈ map key (bucket m (index_of k m))).
      { rewrite <- Hkeys. apply list_elem_of_In, in_map, list_elem_of_In, Hn. }
      apply list_elem_of_In, in_map_iff in Hin as (n0 & He & Hn0).
      rewrite <- He. apply Hpl. now apply list_elem_of_In.
    + destruct (chain_set_Overwritten_get _ _ _ _ k E) as [-> _]. lia.
  - apply chain_set_Appended in E as [_ ->].
    assert (H1 : map_sound (put_bucket m (index_of k m)
                          (bucket m (index_of k m) ++ [mkNode k v]) (size m + 1))).
    { apply map_sound_put; [exact Hm| |].
      - intros n Hn. apply elem_of_app in Hn as [Hn|Hn]; [now apply Hpl|].
        apply list_elem_of_singleton in Hn. now subst n.
      - rewrite length_app. simpl. lia. }
    destruct (_shouldResize _).
    + apply _resize_with_Returned in H as [_ H].
      apply (for_of_inv _ map_sound) in H; [exact H| |apply map_sound_empty].
      intros [k' v'] s s' _ Hs Hr. apply (IH k' v' s s' Hs Hr).
    + injection H as <-. exact H1.
Qed.

Lemma remove_sound k m : map_sound m -> map_sound (snd (remove k m)).
Proof.
  intros Hm. pose proof Hm as [Hpl Hsz]. unfold remove.
  destruct (chain_remove k _) as [c|] eqn:E; [|exact Hm]. simpl.
  destruct (HashMapRegular.chain_remove_Some _ _ _ E) as (Hl & Hsub & _).
  apply map_sound_put; [exact Hm| |lia].
  intros n Hn. apply Hpl, Hsub, Hn.
Qed.

Lemma reachable_sound m : reachable m -> map_sound m.
Proof.
  induction 1 as [c lf m H|k v m m' _ IH H|k m _ IH|m m' _ IH H].
  - unfold new in H. destruct (new_Array c) as [a| |] eqn:E; try discriminate.
    apply new_Array_Returned in E as [-> _]. injection H as <-. apply map_sound_empty.
  - eapply set_fuel_sound; [exact IH | exact H].
  - apply remove_sound, IH.
  - unfold clear in H. destruct (new_Array _) as [a| |] eqn:E; try discriminate.
    apply new_Array_Returned in E as [-> _]. injection H as <-. apply map_sound_empty.
Qed.

(** Tables built from keys with integral hash codes are well formed. *)
Lemma map_call_wf op m m' :
  wf m -> map_op_regular op -> map_call op m = Returned m' -> wf m'.
Proof.
  intros Hwf Hop H. destruct op as [k v|k|]; simpl in *.
  - eapply HashMapRegular.wf_set; eauto.
  - injection H as <-. now apply HashMapRegular.wf_remove.
  - eapply HashMapRegular.wf_clear; eauto.
Qed.

Lemma map_calls_wf ops m m' :
  wf m -> Forall map_op_regular ops -> for_of map_call ops m = Returned m' -> wf m'.
Proof.
  intros Hwf Hops H. revert H. 
  apply (for_of_inv map_call wf ops); [|exact Hwf].
  intros op s s' Hin Hs Hr. eapply map_call_wf; [exact Hs| |exact Hr].
  rewrite Forall_forall in Hops. apply Hops, Hin.
Qed.

End HashMapInv.

(** ** Further facts about [HashSet], in every table *)

Module HashSetAny.
Import HashSet HashSetFacts HashSetWf HashSetRegular.

Lemma Set_has_delete_same k b : Set_has k (Set_delete k b) = false.
Proof.
  unfold Set_has, Set_delete. apply bool_decide_eq_false_2.
  rewrite list_elem_of_filter. intros [H _]. now apply H.
Qed.

Lemma Set_has_delete_other k k' b : k' <> k -> Set_has k' (Set_delete k b) = Set_has k' b.
Proof.
  intros Hne. unfold Set_has, Set_delete. apply eq_true_iff_eq.
  rewrite !bool_decide_eq_true, list_elem_of_filter. tauto.
Qed.

Lemma hs_remove_present k s :
  has k s = true ->
  remove k s
  = (true, put_bucket s (index_of k s)
             (Set_delete k (bucket s (index_of k s))) (size s - 1)).
Proof.
  unfold has, remove, bucket.
  destruct (storage s !! index_of k s) as [b|]; [|discriminate]. now intros ->.
Qed.

Lemma hs_remove_absent k s : has k s = false -> remove k s = (false, s).
Proof.
  unfold has, remove.
  destruct (storage s !! index_of k s) as [b|]; [|reflexivity]. now intros ->.
Qed.

Lemma remove_has_other k k' s : k' <> k -> has k' (snd (remove k s)) = has k' s.
Proof.
  intros Hne. destruct (has k s) eqn:E.
  - rewrite (hs_remove_present k s E). simpl. rewrite has_put.
    destruct (decide (index_of k' s = index_of k s)) as [e|]; [|reflexivity].
    rewrite Set_has_delete_other by exact Hne. now rewrite has_bucket, e.
  - now rewrite (hs_remove_absent k s E).
Qed.

(** The first half of [add], seen through [has]. *)
Lemma inserted_has k s k' :
  has k' (inserted k s) = if decide (k' = k) then true else has k' s.
Proof.
  destruct (has k s) eqn:E.
  - rewrite (inserted_present k s E).
    destruct (decide (k' = k)) as [->|]; [exact E | reflexivity].
  - rewrite (inserted_absent k s E), has_put, Set_has_app, Set_has_singleton.
    destruct (decide (k' = k)) as [->|Hne].
    + destruct (decide (index_of k s = index_of k s)); [|congruence].
      rewrite bool_decide_eq_true_2 by reflexivity. apply orb_true_r.
    + destruct (decide (index_of k' s = index_of k s)) as [e|]; [|reflexivity].
      rewrite bool_decide_eq_false_2 by exact Hne. rewrite orb_false_r.
      now rewrite has_bucket, e.
Qed.

Lemma _resize_with_keys_doubles f s s' :
  _resize_with (add_fuel f) s = Returned s' ->
  exists j : N, capacity s' = (capacity s * 2 * 2 ^ j)%N.
Proof.
  intros H. apply _resize_with_keys_Returned in H as [_ H].
  apply (for_of_inv _ (fun s'' => exists j : N,
           capacity s'' = (capacity s * 2 * 2 ^ j)%N)) in H; [exact H| |].
  - intros k t t' _ [j Hs] Hr.
    apply (add_fuel_capacity f) in Hr as (_ & _ & j' & Hr).
    exists (j + j')%N. rewrite Hr, Hs, N.pow_add_r. lia.
  - exists 0%N. simpl. lia.
Qed.

Lemma add_fuel_kept_capacity f k s s' :
  (0 < capacity s)%N ->
  add_fuel f k s = Returned s' -> capacity s' = capacity s ->
  s' = inserted k s.
Proof.
  intros Hc H Hcap. destruct f as [|f]; [discriminate|].
  rewrite add_fuel_unfold in H.
  destruct (_shouldResize _).
  - apply _resize_with_keys_doubles in H as [j H].
    rewrite inserted_capacity in H.
    pose proof (pow2_pos j). rewrite Hcap in H. nia.
  - now injection H as <-.
Qed.

Lemma hs_reachable_capacity s : reachable s -> (capacity s < 2 ^ 32)%N.
Proof.
  induction 1 as [c lf s H|k s s' _ IH H|k s _ IH|s s' _ IH H].
  - unfold new in H. destruct (new_Array c) as [a| |] eqn:E; try discriminate.
    apply new_Array_Returned in E as [_ E]. injection H as <-. simpl. lia.
  - apply (add_fuel_capacity _ _ _ _ H), IH.
  - unfold remove. destruct (_ !! _) as [b|]; [destruct (Set_has k b)|]; exact IH.
  - unfold clear in H. destruct (new_Array _); try discriminate.
    injection H as <-. exact IH.
Qed.

Lemma hs_clear_Returned s :
  (capacity s < 2 ^ 32)%N ->
  clear s = Returned (mk ∅ 0 (capacity s) (loadFactor s)).
Proof.
  intros H. unfold clear, new_Array.
  destruct (Z.leb_spec 0 (Z.of_N (capacity s))); [|lia].
  destruct (Z.ltb_spec (Z.of_N (capacity s)) (2 ^ 32)); [reflexivity | lia].
Qed.

Lemma has_empty z c lf k : has k (mk ∅ z c lf) = false.
Proof. rewrite has_bucket, hs_bucket_empty. reflexivity. Qed.

Lemma add_fuel_RangeError f k s :
  has k s = false ->
  should_resize (size s + 1) (capacity s) (loadFactor s) = true ->
  (2 ^ 31 <= capacity s)%N ->
  add_fuel (S f) k s = RangeError.
Proof.
  intros Hh Hs Hc. rewrite add_fuel_unfold, (inserted_absent k s Hh).
  unfold _shouldResize. cbn [size capacity loadFactor put_bucket]. rewrite Hs.
  unfold _resize_with, new_Array. cbn [size capacity loadFactor put_bucket].
  destruct (Z.ltb_spec (Z.of_N (capacity s * 2)) (2 ^ 32)) as [H|H].
  - exfalso. change (2 ^ 31)%N with 2147483648%N in Hc.
    change (2 ^ 32) with 4294967296 in H. lia.
  - now rewrite andb_false_r.
Qed.

(** ** What every set that a program can build satisfies *)

Lemma set_sound_empty c lf : set_sound (mk ∅ 0 c lf).
Proof.
  split; [|split].
  - intros i. rewrite hs_bucket_empty. constructor.
  - intros i k Hk. rewrite hs_bucket_empty in Hk. inversion Hk.
  - simpl. now rewrite node_count_empty.
Qed.

Lemma set_sound_put s i b z :
  set_sound s -> NoDup b ->
  (forall k, k ∈ b -> index_of k s = i) ->
  z = size s + Z.of_nat (List.length b) - Z.of_nat (List.length (bucket s i)) ->
  set_sound (put_bucket s i b z).
Proof.
  intros (Hnd & Hpl & Hsz) Hb Hin ->. split; [|split].
  - intros j. destruct (decide (i = j)) as [<-|Hne].
    + now rewrite hs_bucket_put_eq.
    + rewrite hs_bucket_put_ne by exact Hne. apply Hnd.
  - intros j k Hk.
    change (index_of k (put_bucket s i b
        (size s + Z.of_nat (List.length b) - Z.of_nat (List.length (bucket s i)))))
      with (index_of k s).
    destruct (decide (i = j)) as [<-|Hne].
    + rewrite hs_bucket_put_eq in Hk. now apply Hin.
    + rewrite hs_bucket_put_ne in Hk by exact Hne. now apply Hpl.
  - pose proof (node_count_insert (storage s) i b) as H.
    fold (bucket s i) in H. cbn [size storage put_bucket]. lia.
Qed.

Lemma inserted_sound k s : set_sound s -> set_sound (inserted k s).
Proof.
  intros Hs. pose proof Hs as (Hnd & Hpl & Hsz).
  destruct (has k s) eqn:E.
  - now rewrite (inserted_present k s E).
  - rewrite (inserted_absent k s E). apply set_sound_put; [exact Hs | | |].
    + apply NoDup_app. split; [apply Hnd|]. split; [|apply NoDup_singleton].
      intros k' Hk' Hin. apply list_elem_of_singleton in Hin. subst k'.
      rewrite has_bucket in E. apply Set_has_elem in Hk'. congruence.
    + intros k' Hk'. apply elem_of_app in Hk' as [Hk'|Hk']; [now apply Hpl|].
      apply list_elem_of_singleton in Hk'. now subst k'.
    + rewrite length_app. simpl. lia.
Qed.

Lemma add_fuel_sound f : forall k s s',
  set_sound s -> add_fuel f k s = Returned s' -> set_sound s'.
Proof.
  induction f as [|f IH]; intros k s s' Hs H; [discriminate|].
  rewrite add_fuel_unfold in H.
  destruct (_shouldResize _).
  - apply _resize_with_keys_Returned in H as [_ H].
    apply (for_of_inv _ set_sound) in H; [exact H| |apply set_sound_empty].
    intros k' t t' _ Ht Hr. apply (IH k' t t' Ht Hr).
  - injection H as <-. now apply inserted_sound.
Qed.

Lemma hs_remove_sound k s : set_sound s -> set_sound (snd (remove k s)).
Proof.
  intros Hs. pose proof Hs as (Hnd & Hpl & Hsz).
  destruct (has k s) eqn:E.
  - rewrite (hs_remove_present k s E). simpl.
    assert (Hk : k ∈ bucket s (index_of k s)).
    { rewrite has_bucket in E. now apply Set_has_elem. }
    apply set_sound_put; [exact Hs | apply NoDup_filter, Hnd | |].
    + intros k' Hk'. apply list_elem_of_filter in Hk' as [_ Hk']. now apply Hpl.
    + rewrite (Set_delete_length k (bucket s (index_of k s))); [lia | apply Hnd | exact Hk].
  - now rewrite (hs_remove_absent k s E).
Qed.

Lemma hs_reachable_sound s : reachable s -> set_sound s.
Proof.
  induction 1 as [c lf s H|k s s' _ IH H|k s _ IH|s s' _ IH H].
  - unfold new in H. destruct (new_Array c) as [a| |] eqn:E; try discriminate.
    apply new_Array_Returned in E as [-> _]. injection H as <-. apply set_sound_empty.
  - eapply add_fuel_sound; [exact IH | exact H].
  - apply hs_remove_sound, IH.
  - unfold clear in H. destruct (new_Array _) as [a| |] eqn:E; try discriminate.
    apply new_Array_Returned in E as [-> _]. injection H as <-. apply set_sound_empty.
Qed.

Lemma set_call_wf op s s' :
  wf s -> set_op_regular op -> set_call op s = Returned s' -> wf s'.
Proof.
  intros Hwf Hop H. destruct op as [k|k|]; simpl in *.
  - eapply wf_add; eauto.
  - injection H as <-. now apply hs_wf_remove.
  - eapply hs_wf_clear; eauto.
Qed.

Lemma set_calls_wf ops s s' :
  wf s -> Forall set_op_regular ops -> for_of set_call ops s = Returned s' -> wf s'.
Proof.
  intros Hwf Hops H. revert H.
  apply (for_of_inv set_call wf ops); [|exact Hwf].
  intros op t t' Hin Ht Hr. eapply set_call_wf; [exact Ht| |exact Hr].
  rewrite Forall_forall in Hops. apply Hops, Hin.
Qed.

End HashSetAny.

(** ** The sign of the hash code *)

Lemma binary_round_aux_nonneg (m e : Z) (l : location) :
  0 <= m -> is_nonneg (binary_round_aux prec emax false m e l) = true.
Proof.
  intros H. pose proof (binary_round_aux_not_nan false m e l H) as Hn.
  unfold binary_round_aux in *.
  destruct (shr_fexp prec emax m e l) as [mrs' e'].
  destruct (shr_fexp prec emax (round_nearest_even _ _) e' loc_Exact) as [mrs'' e''].
  destruct (shr_m mrs'') as [|p|p]; [reflexivity| |congruence].
  destruct (e'' <=? emax - prec); reflexivity.
Qed.

Lemma binary_normalize_nonneg (m e : Z) :
  0 <= m -> is_nonneg (binary_normalize prec emax m e false) = true.
Proof.
  intros H. unfold binary_normalize. destruct m as [|p|p]; [reflexivity| |lia].
  unfold binary_round. destruct (shl_align _ _ _) as [mz ez].
  apply binary_round_aux_nonneg. lia.
Qed.

Lemma num_nonneg (z : Z) : 0 <= z -> is_nonneg (num z) = true.
Proof. apply binary_normalize_nonneg. Qed.

Lemma js_mul_nonneg (mx : positive) (ex : Z) (y : number) :
  is_nonneg y = true -> is_nonneg (js_mul (S754_finite false mx ex) y) = true.
Proof.
  intros Hy. unfold js_mul, SFmul.
  destruct y as [[]|[]| |[] my ey]; try discriminate; try reflexivity.
  apply binary_round_aux_nonneg. lia.
Qed.

Lemma js_add_nonneg (x y : number) :
  is_nonneg x = true -> is_nonneg y = true -> is_nonneg (js_add x y) = true.
Proof.
  intros Hx Hy. unfold js_add, SFadd.
  destruct x as [[]|[]| |[] mx ex]; try discriminate;
    destruct y as [[]|[]| |[] my ey]; try discriminate; try reflexivity.
  apply binary_normalize_nonneg. simpl. lia.
Qed.

Lemma hash_fold_nonneg (key : jsstring) (h : number) :
  is_nonneg h = true ->
  is_nonneg (fold_left (fun hashCode c =>
                          js_add (js_mul (num 31) hashCode) (num (Z.of_N c)))
                       key h) = true.
Proof.
  revert h. induction key as [|c key IH]; intros h Hh; cbn [fold_left]; [exact Hh|].
  apply IH. apply js_add_nonneg; [|apply num_nonneg; lia].
  destruct (num_pos_finite 31 ltac:(lia)) as (m & e & ->).
  apply js_mul_nonneg, Hh.
Qed.

(** ** Calls that throw *)

Lemma for_of_completion_seen {A S : Type} (bodyc : A -> S -> completion S)
      (body : A -> S -> outcome S) (xs : list A) :
  (forall x s, seen (bodyc x s) = body x s) ->
  forall s, seen (for_of_completion bodyc xs s) = for_of body xs s.
Proof.
  intros Hb. induction xs as [|x xs IH]; intros s; cbn [for_of for_of_completion];
    [reflexivity|].
  rewrite <- (Hb x s). destruct (bodyc x s) as [s'|s'|]; cbn [seen];
    [apply IH | reflexivity | reflexivity].
Qed.

Lemma for_of_completion_Throw {A S : Type} (bodyc : A -> S -> completion S)
      (P : S -> Prop) (xs : list A) :
  (forall x s s', bodyc x s = Throw s' -> P s') ->
  forall s s', for_of_completion bodyc xs s = Throw s' -> P s'.
Proof.
  intros Hb. induction xs as [|x xs IH]; intros s s' H; cbn [for_of_completion] in H;
    [discriminate|].
  destruct (bodyc x s) as [s1|s1|] eqn:E; [|injection H as <-|discriminate].
  - apply (IH s1 s' H).
  - apply (Hb x s s1 E).
Qed.

Lemma seen_Normal {A : Type} (c : completion A) (a : A) :
  seen c = Returned a <-> c = Normal a.
Proof.
  destruct c; cbn [seen]; split; intros H; try discriminate; congruence.
Qed.

Lemma new_Array_RangeError {V : Type} (n : N) :
  new_Array (V := V) (Z.of_N n) = RangeError <-> (2 ^ 32 <= n)%N.
Proof.
  unfold new_Array. change (2 ^ 32)%N with 4294967296%N.
  change (2 ^ 32) with 4294967296.
  destruct (Z.leb_spec 0 (Z.of_N n)); [|lia].
  destruct (Z.ltb_spec (Z.of_N n) 4294967296); cbn [andb]; split; intros H';
    try discriminate; try reflexivity; lia.
Qed.

Module HashMapThrow.
Import HashMap HashMapFacts HashMapChains.

(** The caller of [set] sees what [set_fuel] says. *)
Lemma set_completion_fuel_seen f : forall k v m,
  seen (set_completion_fuel f k v m) = set_fuel f k v m.
Proof.
  induction f as [|f IH]; intros k v m; [reflexivity|].
  cbn [set_completion_fuel set_fuel].
  destruct (chain_set k v (bucket m (index_of k m))) as [chain|chain]; [reflexivity|].
  destruct (_shouldResize _); [|reflexivity].
  unfold _resize_completion, _resize_with.
  destruct (new_Array _) as [storage'| |]; [|reflexivity|reflexivity].
  apply for_of_completion_seen. intros [k' v'] m'. apply IH.
Qed.

Lemma set_completion_seen k v m : seen (set_completion k v m) = set k v m.
Proof. apply set_completion_fuel_seen. Qed.

Lemma set_completion_Normal k v m m' :
  set_completion k v m = Normal m' <-> set k v m = Returned m'.
Proof. rewrite <- set_completion_seen. symmetry. apply seen_Normal. Qed.

(** A throw leaves a capacity that [new Array] refuses. *)
Lemma set_completion_fuel_Throw_capacity f : forall k v m m',
  set_completion_fuel f k v m = Throw m' -> (2 ^ 32 <= capacity m')%N.
Proof.
  induction f as [|f IH]; intros k v m m' H; [discriminate|].
  cbn [set_completion_fuel] in H.
  destruct (chain_set k v (bucket m (index_of k m))) as [chain|chain]; [discriminate|].
  destruct (_shouldResize _); [|discriminate].
  unfold _resize_completion in H.
  destruct (new_Array _) as [storage'| |] eqn:E; [| |discriminate].
  - eapply (for_of_completion_Throw _ (fun m0 => (2 ^ 32 <= capacity m0)%N)); [|exact H].
    intros [k' v'] s s'. apply IH.
  - injection H as <-. cbn [capacity]. apply (new_Array_RangeError (V := list Node)), E.
Qed.

Lemma clear_RangeError m : (2 ^ 32 <= capacity m)%N -> clear m = RangeError.
Proof.
  intros H. unfold clear.
  now rewrite (proj2 (new_Array_RangeError (V := list Node) (capacity m)) H).
Qed.

(** The first [new Array] of [_resize] throws. *)
Lemma set_completion_fuel_Throw f k v m :
  has k m = false ->
  should_resize (size m + 1) (capacity m) (loadFactor m) = true ->
  (2 ^ 31 <= capacity m)%N ->
  set_completion_fuel (S f) k v m
  = Throw (mk (<[index_of k m := bucket m (index_of k m) ++ [mkNode k v]]> (storage m))
              (size m + 1) (capacity m * 2) (loadFactor m)).
Proof.
  intros Hh Hs Hc. cbn [set_completion_fuel]. rewrite (chain_set_absent k v _ Hh).
  unfold _shouldResize. cbn [size capacity loadFactor put_bucket]. rewrite Hs.
  unfold _resize_completion. cbn [size capacity loadFactor put_bucket storage].
  rewrite (proj2 (new_Array_RangeError (V := list Node) (capacity m * 2))); [reflexivity|].
  change (2 ^ 31)%N with 2147483648%N in Hc. change (2 ^ 32)%N with 4294967296%N. lia.
Qed.

(** Runs of returning calls stay among the reachable tables. *)
Lemma map_calls_reachable ops : forall m m',
  reachable m -> for_of map_call ops m = Returned m' -> reachable m'.
Proof.
  induction ops as [|op ops IH]; intros m m' Hm H; cbn [for_of] in H.
  - injection H as <-. exact Hm.
  - destruct (map_call op m) as [m1| |] eqn:E; try discriminate.
    apply (IH m1 m'); [|exact H]. destruct op as [k v|k|]; cbn [map_call] in E.
    + apply (reach_set k v m m1 Hm E).
    + injection E as <-. apply (reach_remove k m Hm).
    + apply (reach_clear m m1 Hm E).
Qed.

End HashMapThrow.

Module HashSetThrow.
Import HashSet HashSetFacts.

Lemma add_completion_fuel_seen f : forall k s,
  seen (add_completion_fuel f k s) = add_fuel f k s.
Proof.
  induction f as [|f IH]; intros k s; [reflexivity|].
  cbn [add_completion_fuel add_fuel].
  destruct (_shouldResize _); [|reflexivity].
  unfold _resize_completion, _resize_with.
  destruct (new_Array _) as [storage'| |]; [|reflexivity|reflexivity].
  apply for_of_completion_seen. intros k' s'. apply IH.
Qed.

Lemma add_completion_seen k s : seen (add_completion k s) = add k s.
Proof. apply add_completion_fuel_seen. Qed.

Lemma add_completion_fuel_Throw_capacity f : forall k s s',
  add_completion_fuel f k s = Throw s' -> (2 ^ 32 <= capacity s')%N.
Proof.
  induction f as [|f IH]; intros k s s' H; [discriminate|].
  cbn [add_completion_fuel] in H.
  destruct (_shouldResize _); [|discriminate].
  unfold _resize_completion in H.
  destruct (new_Array _) as [storage'| |] eqn:E; [| |discriminate].
  - eapply (for_of_completion_Throw _ (fun s0 => (2 ^ 32 <= capacity s0)%N)); [|exact H].
    intros k' s0 s1. apply IH.
  - injection H as <-. cbn [capacity].
    rewrite inserted_capacity in E |- *.
    apply (new_Array_RangeError (V := list jsstring)), E.
Qed.

Lemma hs_clear_RangeError s : (2 ^ 32 <= capacity s)%N -> clear s = RangeError.
Proof.
  intros H. unfold clear.
  now rewrite (proj2 (new_Array_RangeError (V := list jsstring) (capacity s)) H).
Qed.

Lemma add_completion_fuel_Throw f k s :
  should_resize (size (inserted k s)) (capacity s) (loadFactor s) = true ->
  (2 ^ 31 <= capacity s)%N ->
  add_completion_fuel (S f) k s
  = Throw (mk (storage (inserted k s)) (size (inserted k s)) (capacity s * 2)
              (loadFactor s)).
Proof.
  intros Hs Hc. cbn [add_completion_fuel]. unfold _shouldResize.
  rewrite inserted_capacity, inserted_loadFactor, Hs.
  unfold _resize_completion. rewrite inserted_capacity, inserted_loadFactor.
  rewrite (proj2 (new_Array_RangeError (V := list jsstring) (capacity s * 2)));
    [reflexivity|].
  change (2 ^ 31)%N with 2147483648%N in Hc. change (2 ^ 32)%N with 4294967296%N. lia.
Qed.

Lemma set_calls_reachable ops : forall s s',
  reachable s -> for_of set_call ops s = Returned s' -> reachable s'.
Proof.
  induction ops as [|op ops IH]; intros s s' Hs H; cbn [for_of] in H.
  - injection H as <-. exact Hs.
  - destruct (set_call op s) as [s1| |] eqn:E; try discriminate.
    apply (IH s1 s'); [|exact H]. destruct op as [k|k|]; cbn [set_call] in E.
    + apply (reach_add k s s1 Hs E).
    + injection E as <-. apply (reach_remove k s Hs).
    + apply (reach_clear s s1 Hs E).
Qed.

End HashSetThrow.

(** The tables of the scenario. *)
Lemma wide_map_throws :
  HashMap.set_completion (str "a") (VNumber (num 1)) wide_map = Throw thrown_map.
Proof.
  unfold HashMap.set_completion. change HashMap.depth with (S 33).
  rewrite HashMapThrow.set_completion_fuel_Throw.
  - vm_compute. reflexivity.
  - reflexivity.
  - vm_compute. reflexivity.
  - vm_compute. discriminate.
Qed.

Lemma wide_set_throws : HashSet.add_completion (str "a") wide_set = Throw thrown_set.
Proof.
  unfold HashSet.add_completion. change HashSet.depth with (S 33).
  rewrite HashSetThrow.add_completion_fuel_Throw.
  - vm_compute. reflexivity.
  - vm_compute. reflexivity.
  - vm_compute. discriminate.
Qed.



(** ** Well-formed tables at hand *)

Lemma set_all_wf kvs m m' :
  HashMap.wf m -> Forall (fun kv => regular (fst kv)) kvs ->
  HashMap.set_all kvs m = Returned m' -> HashMap.wf m'.
Proof.
  intros Hwf Hk H. unfold HashMap.set_all in H.
  apply (for_of_inv _ HashMap.wf) in H; [exact H| |exact Hwf].
  intros [k v] s s' Hin Hs Hr. rewrite Forall_forall in Hk.
  apply (HashMapRegular.wf_set k v s s' Hs (Hk _ Hin) Hr).
Qed.

Lemma wf_default_map : HashMap.wf default_map.
Proof. apply HashMapSpec.wf_empty; [reflexivity | reflexivity]. Qed.

Lemma wf_default_set : HashSet.wf default_set.
Proof. apply HashSetWf.hs_wf_empty; [reflexivity | reflexivity]. Qed.

Lemma wf_twelve_map : HashMap.wf twelve_map.
Proof.
  apply (set_all_wf twelve_keys default_map); [exact wf_default_map| |].
  - repeat constructor.
  - vm_compute. reflexivity.
Qed.

Lemma wf_main_map : HashMap.wf main_map.
Proof.
  apply (set_all_wf main_js default_map); [exact wf_default_map| |].
  - repeat constructor.
  - vm_compute. reflexivity.
Qed.

Lemma wf_lion_set : HashSet.wf lion_set.
Proof.
  apply (HashSetRegular.wf_add (str "lion") default_set); [exact wf_default_set| |].
  - vm_compute. reflexivity.
  - vm_compute. reflexivity.
Qed.

(** ** Further properties of the two classes *)

(** X1 ([HashMap] constructor).  [new HashMap(c, lf)] with an integer [c]
    in [0, 2^32) returns a table of that capacity and load factor that is
    empty for every method: [length()] is 0, the three traversals are
    empty, and every key is absent for [has], [get] and [remove].  With
    any other integer [c] it throws the [RangeError] of [new Array]. *)
Theorem new_map_is_empty (c : Z) (lf : number) :
  (0 <= c < 2 ^ 32 ->
   exists m,
     HashMap.new c lf = Returned m /\
     HashMap.length m = 0 /\ HashMap.capacity m = Z.to_N c /\
     HashMap.loadFactor m = lf /\
     HashMap.keys m = [] /\ HashMap.values m = [] /\ HashMap.entries m = [] /\
     forall k, HashMap.has k m = false /\ HashMap.get k m = VNull /\
               HashMap.remove k m = (false, m)) /\
  (c < 0 \/ 2 ^ 32 <= c -> HashMap.new c lf = RangeError).
Proof.
  split.
  - intros Hc. exists (HashMap.mk ∅ 0 (Z.to_N c) lf). split.
    + unfold HashMap.new, new_Array.
      destruct (Z.leb_spec 0 c); [|lia]. destruct (Z.ltb_spec c (2 ^ 32)); [|lia].
      reflexivity.
    + split; [reflexivity|]. split; [reflexivity|]. split; [reflexivity|].
      split; [apply HashMapAny.map_keys_empty|]. split; [apply HashMapAny.values_empty|].
      split; [apply HashMapCount.entries_empty|]. intros k.
      assert (Hh : HashMap.has k (HashMap.mk ∅ 0 (Z.to_N c) lf) = false).
      { unfold HashMap.has. now rewrite HashMapChains.bucket_empty. }
      split; [exact Hh|]. split; [now apply HashMapOps.has_absent_get|].
      now apply HashMapOps.remove_absent.
  - intros Hc. unfold HashMap.new, new_Array.
    destruct (Z.leb_spec 0 c); destruct (Z.ltb_spec c (2 ^ 32)); try reflexivity. lia.
Qed.

(** X2 ([HashSet] constructor).  [new HashSet(c, lf)] with an integer [c]
    in [0, 2^32) returns a set of that capacity and load factor with
    [length()] 0, no keys, and every key absent for [has] and [remove].
    With any other integer [c] it throws the [RangeError] of
    [new Array]. *)
Theorem new_set_is_empty (c : Z) (lf : number) :
  (0 <= c < 2 ^ 32 ->
   exists s,
     HashSet.new c lf = Returned s /\
     HashSet.length s = 0 /\ HashSet.capacity s = Z.to_N c /\
     HashSet.loadFactor s = lf /\ HashSet.keys s = [] /\
     forall k, HashSet.has k s = false /\ HashSet.remove k s = (false, s)) /\
  (c < 0 \/ 2 ^ 32 <= c -> HashSet.new c lf = RangeError).
Proof.
  split.
  - intros Hc. exists (HashSet.mk ∅ 0 (Z.to_N c) lf). split.
    + unfold HashSet.new, new_Array.
      destruct (Z.leb_spec 0 c); [|lia]. destruct (Z.ltb_spec c (2 ^ 32)); [|lia].
      reflexivity.
    + split; [reflexivity|]. split; [reflexivity|]. split; [reflexivity|].
      split; [apply HashSetWf.keys_empty|]. intros k.
      pose proof (HashSetAny.has_empty 0 (Z.to_N c) lf k) as Hh.
      split; [exact Hh|]. now apply HashSetAny.hs_remove_absent.
  - intros Hc. unfold HashSet.new, new_Array.
    destruct (Z.leb_spec 0 c); destruct (Z.ltb_spec c (2 ^ 32)); try reflexivity. lia.
Qed.

(** X3 ([set] without growth).  On any table of positive capacity and for
    any key, overflowing hash codes included: when [set(k, v)] returns
    with [capacity] as it was, [get(k)] is [v], [has(k)] is true, and
    [get] and [has] answer for every other key as before. *)
Theorem set_get_without_resize (k : jsstring) (v : jsval) (m m' : HashMap.t) :
  (0 < HashMap.capacity m)%N ->
  HashMap.set k v m = Returned m' ->
  HashMap.capacity m' = HashMap.capacity m ->
  HashMap.get k m' = v /\ HashMap.has k m' = true /\
  forall k', k' <> k ->
             HashMap.get k' m' = HashMap.get k' m /\
             HashMap.has k' m' = HashMap.has k' m.
Proof.
  intros Hc H Hcap.
  pose proof (HashMapAny.set_fuel_kept_capacity _ k v m m' Hc H Hcap) as Hl.
  split; [|split].
  - specialize (Hl k). destruct (decide (k = k)); [|congruence].
    now apply HashMapAny.lookup_Some_get_has in Hl.
  - specialize (Hl k). destruct (decide (k = k)); [|congruence].
    now apply HashMapAny.lookup_Some_get_has in Hl.
  - intros k' Hne. specialize (Hl k'). destruct (decide (k' = k)); [congruence|].
    apply HashMapAny.lookup_get_has in Hl. tauto.
Qed.

(** ['a'.repeat(300)] on a new map, then ['apple']. *)
Lemma set_get_without_resize_witness :
  (0 < HashMap.capacity default_map)%N /\
  HashMap.set long_key (VNumber (num 1)) default_map
  = Returned (returned (HashMap.set long_key (VNumber (num 1)) default_map) default_map) /\
  HashMap.get long_key
    (returned (HashMap.set long_key (VNumber (num 1)) default_map) default_map)
  = VNumber (num 1) /\
  HashMap.has long_key
    (returned (HashMap.set long_key (VNumber (num 1)) default_map) default_map) = true.
Proof.
  assert (H : HashMap.set long_key (VNumber (num 1)) default_map
              = Returned (returned (HashMap.set long_key (VNumber (num 1)) default_map)
                                   default_map)) by (vm_compute; reflexivity).
  split; [reflexivity|]. split; [exact H|].
  destruct (set_get_without_resize long_key (VNumber (num 1)) default_map _
              ltac:(reflexivity) H) as (G & Hh & _).
  - vm_compute. reflexivity.
  - split; [exact G | exact Hh].
Defined.

(** X4 ([set] of a key with an integer hash code).  On a well-formed table,
    when [set(k, v)] returns, with or without a resize: the table is
    well formed, [get(k)] is [v], [has(k)] is true, every other key
    answers [get] and [has] as before, and [length()] has grown by 1 if
    the key was absent and by 0 if it was present. *)
Theorem set_regular_key (k : jsstring) (v : jsval) (m m' : HashMap.t) :
  HashMap.wf m -> regular k -> HashMap.set k v m = Returned m' ->
  HashMap.wf m' /\
  HashMap.get k m' = v /\ HashMap.has k m' = true /\
  (forall k', k' <> k ->
              HashMap.get k' m' = HashMap.get k' m /\
              HashMap.has k' m' = HashMap.has k' m) /\
  HashMap.length m' = HashMap.length m + (if HashMap.has k m then 0 else 1).
Proof.
  intros Hwf Hk H.
  destruct (HashMapRegular.set_get_regular k v m m' Hwf Hk H) as (G & Hh & Ho).
  split; [apply (HashMapRegular.wf_set k v m m' Hwf Hk H)|].
  split; [exact G|]. split; [exact Hh|]. split; [exact Ho|].
  apply (HashMapRegular.set_length_regular k v m m' Hwf Hk H).
Qed.

(** The thirteenth key of [main.js], whose insertion resizes the table. *)
Lemma set_regular_key_witness :
  HashMap.wf twelve_map /\ regular (str "moon") /\
  HashMap.capacity twelve_map = 16%N /\
  HashMap.capacity
    (returned (HashMap.set (str "moon") (VString (str "silver")) twelve_map) twelve_map)
  = 32%N /\
  HashMap.get (str "moon")
    (returned (HashMap.set (str "moon") (VString (str "silver")) twelve_map) twelve_map)
  = VString (str "silver") /\
  HashMap.get (str "lion")
    (returned (HashMap.set (str "moon") (VString (str "silver")) twelve_map) twelve_map)
  = HashMap.get (str "lion") twelve_map /\
  HashMap.length
    (returned (HashMap.set (str "moon") (VString (str "silver")) twelve_map) twelve_map)
  = HashMap.length twelve_map + 1.
Proof.
  assert (R : regular (str "moon")) by (vm_compute; reflexivity).
  assert (H : HashMap.set (str "moon") (VString (str "silver")) twelve_map
              = Returned (returned (HashMap.set (str "moon") (VString (str "silver"))
                                      twelve_map) twelve_map))
    by (vm_compute; reflexivity).
  destruct (set_regular_key (str "moon") (VString (str "silver")) twelve_map _
              wf_twelve_map R H) as (_ & G & _ & Ho & Hl).
  split; [exact wf_twelve_map|]. split; [exact R|].
  split; [vm_compute; reflexivity|]. split; [vm_compute; reflexivity|].
  split; [exact G|]. split.
  - apply Ho. vm_compute. discriminate.
  - rewrite Hl. replace (HashMap.has (str "moon") twelve_map) with false
      by (vm_compute; reflexivity). reflexivity.
Defined.

(** X5 ([remove] and the other keys).  In every table, removing [k],
    present or not, leaves [has] and [get] of every other key as they
    were. *)
Theorem remove_leaves_other_keys (k k' : jsstring) (m : HashMap.t) :
  k' <> k ->
  HashMap.has k' (snd (HashMap.remove k m)) = HashMap.has k' m /\
  HashMap.get k' (snd (HashMap.remove k m)) = HashMap.get k' m.
Proof.
  intros Hne. apply HashMapAny.lookup_get_has.
  apply HashMapAny.remove_lookup_other, Hne.
Qed.

(** ['a'] and ['q'] share a chain; removing its head keeps ['q']. *)
Lemma remove_leaves_other_keys_witness :
  str "q" <> str "a" /\
  HashMap.index_of (str "q") chain_map = HashMap.index_of (str "a") chain_map /\
  HashMap.has (str "q") (snd (HashMap.remove (str "a") chain_map)) = true /\
  HashMap.get (str "q") (snd (HashMap.remove (str "a") chain_map)) = VNumber (num 2).
Proof.
  assert (Hne : str "q" <> str "a") by (vm_compute; discriminate).
  destruct (remove_leaves_other_keys (str "a") (str "q") chain_map Hne) as (Hh & Hg).
  split; [exact Hne|]. split; [vm_compute; reflexivity|]. split.
  - rewrite Hh. vm_compute. reflexivity.
  - rewrite Hg. vm_compute. reflexivity.
Defined.

(** X6 ([set] then [remove]).  On a well-formed table, after [set(k, v)]
    of an absent key with an integer hash code has returned, [remove(k)]
    returns true and gives a table with the [length()] of the table
    before the [set] and the same answers of [has] and [get] for every
    key, also when the [set] resized the table. *)
Theorem set_then_remove_restores (k : jsstring) (v : jsval) (m m' : HashMap.t) :
  HashMap.wf m -> regular k -> HashMap.has k m = false ->
  HashMap.set k v m = Returned m' ->
  fst (HashMap.remove k m') = true /\
  HashMap.length (snd (HashMap.remove k m')) = HashMap.length m /\
  forall k', HashMap.has k' (snd (HashMap.remove k m')) = HashMap.has k' m /\
             HashMap.get k' (snd (HashMap.remove k m')) = HashMap.get k' m.
Proof.
  intros Hwf Hk Habs H.
  destruct (HashMapSpec.set_spec_all _ k v m m' Hwf Hk H) as (Hwf' & Hl).
  pose proof (HashMapRegular.set_length_regular k v m m' Hwf Hk H) as Hlen.
  rewrite Habs in Hlen.
  assert (Hpres : HashMap.has k m' = true).
  { specialize (Hl k). destruct (decide (k = k)); [|congruence].
    now apply HashMapAny.lookup_Some_get_has in Hl. }
  destruct (HashMapOps.remove_present k m' Hpres) as (chain' & Hr & Hgone).
  split; [now rewrite Hr|]. split.
  - rewrite Hr. unfold HashMap.length in *. simpl. lia.
  - intros k'. destruct (decide (k' = k)) as [->|Hne].
    + assert (Hf : HashMap.has k (snd (HashMap.remove k m')) = false).
      { rewrite Hr. simpl. unfold HashMap.has.
        replace (HashMap.index_of k (HashMap.put_bucket m' (HashMap.index_of k m') chain'
                                       (HashMap.size m' - 1)))
          with (HashMap.index_of k m') by reflexivity.
        rewrite HashMapChains.bucket_put_eq. apply Hgone.
        destruct Hwf' as (_ & Hnd & _). apply Hnd. }
      split; [now rewrite Hf, Habs|].
      rewrite (HashMapOps.has_absent_get _ _ Hf).
      now rewrite (HashMapOps.has_absent_get _ _ Habs).
    + apply HashMapAny.lookup_get_has.
      rewrite (HashMapAny.remove_lookup_other k k' m' Hne).
      rewrite (Hl k'). destruct (decide (k' = k)); [congruence|reflexivity].
Qed.

(** ['moon'] after the first twelve keys of [main.js]: the [set] doubles
    the capacity, the [remove] gives back the length and the lookups. *)
Lemma set_then_remove_restores_witness :
  HashMap.wf twelve_map /\ regular (str "moon") /\
  HashMap.has (str "moon") twelve_map = false /\
  fst (HashMap.remove (str "moon")
         (returned (HashMap.set (str "moon") (VString (str "silver")) twelve_map)
                   twelve_map)) = true /\
  HashMap.length
    (snd (HashMap.remove (str "moon")
            (returned (HashMap.set (str "moon") (VString (str "silver")) twelve_map)
                      twelve_map))) = 12.
Proof.
  assert (R : regular (str "moon")) by (vm_compute; reflexivity).
  assert (A : HashMap.has (str "moon") twelve_map = false) by (vm_compute; reflexivity).
  assert (H : HashMap.set (str "moon") (VString (str "silver")) twelve_map
              = Returned (returned (HashMap.set (str "moon") (VString (str "silver"))
                                      twelve_map) twelve_map))
    by (vm_compute; reflexivity).
  destruct (set_then_remove_restores (str "moon") (VString (str "silver")) twelve_map _
              wf_twelve_map R A H) as (Hf & Hl & _).
  split; [exact wf_twelve_map|]. split; [exact R|]. split; [exact A|].
  split; [exact Hf|]. rewrite Hl. vm_compute. reflexivity.
Defined.

(** X7 ([clear]).  On a table made by the constructor and by calls of
    [set], [remove] and [clear] that all returned, [clear()] returns, and
    the table it leaves has the same capacity and load factor,
    [length()] 0, empty traversals, and no key present for [has] or
    [get].  When a further [set] throws, the table it leaves has a
    capacity of 2^32 or more, and [clear()] on that table throws
    [RangeError]. *)
Theorem clear_after_returning_calls (c : Z) (lf : number) (ops : list map_op)
        (m0 m : HashMap.t) :
  HashMap.new c lf = Returned m0 ->
  for_of map_call ops m0 = Returned m ->
  (exists m',
      HashMap.clear m = Returned m' /\
      HashMap.length m' = 0 /\
      HashMap.capacity m' = HashMap.capacity m /\
      HashMap.loadFactor m' = HashMap.loadFactor m /\
      HashMap.keys m' = [] /\ HashMap.values m' = [] /\ HashMap.entries m' = [] /\
      forall k, HashMap.has k m' = false /\ HashMap.get k m' = VNull) /\
  (forall k v m1,
      HashMap.set_completion k v m = Throw m1 ->
      (2 ^ 32 <= HashMap.capacity m1)%N /\ HashMap.clear m1 = RangeError).
Proof.
  intros Hnew Hrun.
  assert (Hr : HashMap.reachable m).
  { apply (HashMapThrow.map_calls_reachable ops m0 m); [|exact Hrun].
    apply (HashMap.reach_new c lf m0 Hnew). }
  pose proof (HashMapAny.reachable_capacity m Hr) as Hc. split.
  - exists (HashMap.mk ∅ 0 (HashMap.capacity m) (HashMap.loadFactor m)).
    split; [apply HashMapAny.clear_Returned, Hc|].
    split; [reflexivity|]. split; [reflexivity|]. split; [reflexivity|].
    split; [apply HashMapAny.map_keys_empty|]. split; [apply HashMapAny.values_empty|].
    split; [apply HashMapCount.entries_empty|]. intros k.
    assert (Hh : HashMap.has k (HashMap.mk ∅ 0 (HashMap.capacity m) (HashMap.loadFactor m))
                 = false).
    { unfold HashMap.has. now rewrite HashMapChains.bucket_empty. }
    split; [exact Hh | now apply HashMapOps.has_absent_get].
  - intros k v m1 Ht.
    pose proof (HashMapThrow.set_completion_fuel_Throw_capacity _ k v m m1 Ht) as Hcap.
    split; [exact Hcap | apply HashMapThrow.clear_RangeError, Hcap].
Qed.

(** [new HashMap(2 ** 31, 1e-10)], [remove('a')] and [clear()], which
    return; then [set('a', 1)] throws, and [clear()] throws after it. *)
Lemma clear_after_returning_calls_witness :
  HashMap.new 2147483648 tiny_load = Returned wide_map /\
  for_of map_call [OpRemove (str "a"); OpClear] wide_map = Returned wide_map /\
  (exists m', HashMap.clear wide_map = Returned m' /\ HashMap.length m' = 0) /\
  HashMap.set_completion (str "a") (VNumber (num 1)) wide_map = Throw thrown_map /\
  HashMap.clear thrown_map = RangeError.
Proof.
  assert (Hnew : HashMap.new 2147483648 tiny_load = Returned wide_map) by reflexivity.
  assert (Hrun : for_of map_call [OpRemove (str "a"); OpClear] wide_map = Returned wide_map)
    by (vm_compute; reflexivity).
  destruct (clear_after_returning_calls 2147483648 tiny_load
              [OpRemove (str "a"); OpClear] wide_map wide_map Hnew Hrun)
    as [(m' & Hc & Hl & _) Ht].
  split; [exact Hnew|]. split; [exact Hrun|]. split.
  - exists m'. split; [exact Hc | exact Hl].
  - split; [exact wide_map_throws|].
    apply (Ht (str "a") (VNumber (num 1)) thrown_map wide_map_throws).
Defined.

(** X8 ([keys]).  On a well-formed table [keys()] lists exactly the keys
    for which [has] is true, each of them once, and as many as
    [length()] says. *)
Theorem keys_are_the_present_keys (m : HashMap.t) :
  HashMap.wf m ->
  NoDup (HashMap.keys m) /\
  (forall k, k ∈ HashMap.keys m <-> HashMap.has k m = true) /\
  Z.of_nat (List.length (HashMap.keys m)) = HashMap.length m.
Proof.
  intros Hwf. split; [apply HashMapWf.wf_NoDup_keys, Hwf|]. split.
  - intros k. apply HashMapWf.wf_elem_keys, Hwf.
  - apply (HashMapRegular.wf_traversals m Hwf).
Qed.

(** The thirteen keys of [main.js]. *)
Lemma keys_are_the_present_keys_witness :
  HashMap.wf main_map /\
  NoDup (HashMap.keys main_map) /\
  str "moon" ∈ HashMap.keys main_map /\
  Z.of_nat (List.length (HashMap.keys main_map)) = 13.
Proof.
  destruct (keys_are_the_present_keys main_map wf_main_map) as (Hnd & Hk & Hl).
  split; [exact wf_main_map|]. split; [exact Hnd|]. split.
  - apply Hk. vm_compute. reflexivity.
  - rewrite Hl. vm_compute. reflexivity.
Defined.

(** X9 ([entries]).  On a well-formed table the pair [[k, v]] is listed
    by [entries()] exactly when [has(k)] is true and [get(k)] is [v]. *)
Theorem entries_are_the_bindings (m : HashMap.t) (k : jsstring) (v : jsval) :
  HashMap.wf m ->
  (k, v) ∈ HashMap.entries m <-> HashMap.has k m = true /\ HashMap.get k m = v.
Proof.
  intros Hwf. rewrite <- (HashMapWf.wf_lookup_entries m k v Hwf).
  unfold HashMap.lookup. destruct (HashMap.has k m); split.
  - intros [= <-]. split; reflexivity.
  - intros [_ <-]. reflexivity.
  - discriminate.
  - intros [? _]. discriminate.
Qed.

(** The overwritten entry of [main.js]. *)
Lemma entries_are_the_bindings_witness :
  HashMap.wf main_map /\
  (str "lion", VString (str "Glowing golden")) ∈ HashMap.entries main_map /\
  ~ (str "lion", VString (str "golden")) ∈ HashMap.entries main_map.
Proof.
  split; [exact wf_main_map|]. split.
  - apply (entries_are_the_bindings main_map _ _ wf_main_map).
    split; vm_compute; reflexivity.
  - intros Hin.
    apply (entries_are_the_bindings main_map _ _ wf_main_map) in Hin.
    destruct Hin as [_ Hg]. vm_compute in Hg. discriminate.
Defined.

(** X10 (the three traversals agree).  In every table, [entries()] is
    [keys()] zipped with [values()], and the three arrays have the same
    length. *)
Theorem entries_zip_keys_values (m : HashMap.t) :
  HashMap.entries m = combine (HashMap.keys m) (HashMap.values m) /\
  List.length (HashMap.keys m) = List.length (HashMap.entries m) /\
  List.length (HashMap.values m) = List.length (HashMap.entries m).
Proof.
  split; [apply entries_combine|].
  split; [apply HashMapWf.length_keys | apply HashMapWf.length_values].
Qed.

(** X11 (tables built from keys with integer hash codes).  A table made by
    [new HashMap(c, lf)] with [c > 0] and then any calls of [set],
    [remove] and [clear] that return, where every key given to [set] has
    an integer hash code, is well formed. *)
Theorem built_map_is_well_formed (c : Z) (lf : number) (ops : list map_op)
        (m0 m : HashMap.t) :
  0 < c -> HashMap.new c lf = Returned m0 ->
  Forall map_op_regular ops ->
  for_of map_call ops m0 = Returned m ->
  HashMap.wf m.
Proof.
  intros Hc Hnew Hops Hrun.
  apply (HashMapInv.map_calls_wf ops m0 m); [|exact Hops|exact Hrun].
  apply (HashMapRegular.wf_new c lf m0 Hnew Hc).
Qed.

(** Two insertions into one chain, a removal, a [clear] and an
    insertion. *)
Lemma built_map_is_well_formed_witness :
  HashMap.wf
    (returned (for_of map_call
                 [OpSet (str "a") (VNumber (num 1)); OpSet (str "q") (VNumber (num 2));
                  OpRemove (str "a"); OpClear; OpSet (str "lion") VNull]
                 default_map) default_map).
Proof.
  apply (built_map_is_well_formed 16 three_quarters
           [OpSet (str "a") (VNumber (num 1)); OpSet (str "q") (VNumber (num 2));
            OpRemove (str "a"); OpClear; OpSet (str "lion") VNull] default_map).
  - lia.
  - reflexivity.
  - repeat constructor.
  - vm_compute. reflexivity.
Defined.

(** X12 (invariants after returning calls).  Whatever the keys, a table
    made by the constructor and by calls of [set], [remove] and [clear]
    that all returned has a capacity below 2^32, holds no key twice in a
    chain, keeps every node in the bucket that the key's hash code
    selects, and its [length()] is the number of nodes stored, the ones
    under non-index properties included.  The table left by a [set]
    that threw is not covered. *)
Theorem map_invariants_after_returning_calls (c : Z) (lf : number) (ops : list map_op)
        (m0 m : HashMap.t) :
  HashMap.new c lf = Returned m0 ->
  for_of map_call ops m0 = Returned m ->
  (HashMap.capacity m < 2 ^ 32)%N /\
  HashMap.chains_nodup m /\
  (forall i n, n ∈ HashMap.bucket m i -> HashMap.index_of (HashMap.key n) m = i) /\
  HashMap.length m = Z.of_nat (node_count (HashMap.storage m)).
Proof.
  intros Hnew Hrun.
  assert (Hr : HashMap.reachable m).
  { apply (HashMapThrow.map_calls_reachable ops m0 m); [|exact Hrun].
    apply (HashMap.reach_new c lf m0 Hnew). }
  split; [apply HashMapAny.reachable_capacity, Hr|].
  split; [apply HashMapChains.reachable_nodup, Hr|].
  apply (HashMapInv.reachable_sound m Hr).
Qed.

(** ['a'.repeat(300)], stored under ["NaN"], and ['lion'] on a new map. *)
Lemma map_invariants_after_returning_calls_witness :
  HashMap.new 16 three_quarters = Returned default_map /\
  for_of map_call [OpSet long_key VNull; OpSet (str "lion") VNull] default_map
  = Returned (returned (for_of map_call [OpSet long_key VNull; OpSet (str "lion") VNull]
                               default_map) default_map) /\
  HashMap.length (returned (for_of map_call [OpSet long_key VNull; OpSet (str "lion") VNull]
                                   default_map) default_map) = 2 /\
  node_count (HashMap.storage
                (returned (for_of map_call [OpSet long_key VNull; OpSet (str "lion") VNull]
                                  default_map) default_map)) = 2%nat.
Proof.
  assert (Hnew : HashMap.new 16 three_quarters = Returned default_map) by reflexivity.
  assert (Hrun : for_of map_call [OpSet long_key VNull; OpSet (str "lion") VNull] default_map
                 = Returned (returned (for_of map_call
                                         [OpSet long_key VNull; OpSet (str "lion") VNull]
                                         default_map) default_map))
    by (vm_compute; reflexivity).
  destruct (map_invariants_after_returning_calls 16 three_quarters _ default_map _ Hnew Hrun)
    as (_ & _ & _ & Hl).
  split; [exact Hnew|]. split; [exact Hrun|].
  assert (H2 : HashMap.length
                 (returned (for_of map_call [OpSet long_key VNull; OpSet (str "lion") VNull]
                                   default_map) default_map) = 2)
    by (vm_compute; reflexivity).
  split; [exact H2|]. rewrite H2 in Hl. lia.
Defined.

(** X13 ([set] at the bound of [new Array]).  When the key is absent, the
    load factor is exceeded once the size is incremented, and the
    capacity is 2^31 or more, [_resize] asks for an array of
    [2 * capacity >= 2^32] slots and [set] throws a [RangeError]. *)
Theorem set_throws_at_array_bound (k : jsstring) (v : jsval) (m : HashMap.t) :
  HashMap.has k m = false ->
  should_resize (HashMap.size m + 1) (HashMap.capacity m) (HashMap.loadFactor m) = true ->
  (2 ^ 31 <= HashMap.capacity m)%N ->
  HashMap.set k v m = RangeError.
Proof.
  intros Hh Hs Hc. apply (HashMapAny.set_fuel_RangeError 33 k v m Hh Hs Hc).
Qed.

(** [new HashMap(2 ** 31, 1e-10).set('a', 1)] *)
Lemma set_throws_at_array_bound_witness :
  HashMap.new 2147483648 tiny_load = Returned wide_map /\
  HashMap.set (str "a") (VNumber (num 1)) wide_map = RangeError.
Proof.
  split; [reflexivity|].
  apply (set_throws_at_array_bound (str "a") (VNumber (num 1)) wide_map).
  - reflexivity.
  - vm_compute. reflexivity.
  - vm_compute. discriminate.
Defined.

(** ** class HashSet *)

Lemma hs_remove_gone k s :
  HashSet.has k s = true ->
  fst (HashSet.remove k s) = true /\
  HashSet.has k (snd (HashSet.remove k s)) = false /\
  HashSet.length (snd (HashSet.remove k s)) = HashSet.length s - 1.
Proof.
  intros Hh. rewrite (HashSetAny.hs_remove_present k s Hh). simpl.
  split; [reflexivity|]. split; [|reflexivity].
  rewrite HashSetWf.has_put. destruct (decide _) as [_|Hne]; [|congruence].
  apply HashSetAny.Set_has_delete_same.
Qed.

(** X14 ([add] without growth).  On any set of positive capacity and for
    any key, overflowing hash codes included: when [add(k)] returns with
    [capacity] as it was, [has(k)] is true, [has] answers for every other
    key as before, and [length()] has grown by 1 if the key was absent
    and by 0 if it was present. *)
Theorem add_has_without_resize (k : jsstring) (s s' : HashSet.t) :
  (0 < HashSet.capacity s)%N ->
  HashSet.add k s = Returned s' ->
  HashSet.capacity s' = HashSet.capacity s ->
  HashSet.has k s' = true /\
  (forall k', k' <> k -> HashSet.has k' s' = HashSet.has k' s) /\
  HashSet.length s' = HashSet.length s + (if HashSet.has k s then 0 else 1).
Proof.
  intros Hc H Hcap.
  pose proof (HashSetAny.add_fuel_kept_capacity _ k s s' Hc H Hcap) as ->.
  split; [|split].
  - rewrite HashSetAny.inserted_has. destruct (decide (k = k)); congruence.
  - intros k' Hne. rewrite HashSetAny.inserted_has.
    destruct (decide (k' = k)); congruence.
  - unfold HashSet.length. destruct (HashSet.has k s) eqn:E.
    + rewrite (HashSetFacts.inserted_present k s E). lia.
    + apply (HashSetFacts.inserted_absent_size k s E).
Qed.

(** ['a'.repeat(300)] added to a new set. *)
Lemma add_has_without_resize_witness :
  (0 < HashSet.capacity default_set)%N /\
  HashSet.has long_key (returned (HashSet.add long_key default_set) default_set) = true /\
  HashSet.length (returned (HashSet.add long_key default_set) default_set) = 1.
Proof.
  assert (H : HashSet.add long_key default_set
              = Returned (returned (HashSet.add long_key default_set) default_set))
    by (vm_compute; reflexivity).
  destruct (add_has_without_resize long_key default_set _ ltac:(reflexivity) H)
    as (Hh & _ & Hl).
  - vm_compute. reflexivity.
  - split; [reflexivity|]. split; [exact Hh|]. rewrite Hl. vm_compute. reflexivity.
Defined.

(** X15 ([add] of a key with an integer hash code).  On a well-formed set,
    when [add(k)] returns, with or without a resize: the set is well
    formed, [has(k)] is true, [has] answers for every other key as
    before, and [length()] has grown by 1 if the key was absent and by 0
    if it was present. *)
Theorem add_regular_key (k : jsstring) (s s' : HashSet.t) :
  HashSet.wf s -> regular k -> HashSet.add k s = Returned s' ->
  HashSet.wf s' /\ HashSet.has k s' = true /\
  (forall k', k' <> k -> HashSet.has k' s' = HashSet.has k' s) /\
  HashSet.length s' = HashSet.length s + (if HashSet.has k s then 0 else 1).
Proof.
  intros Hwf Hk H. apply (HashSetWf.add_regular k s s' Hwf Hk H).
Qed.

(** ['moon'] added to the set that holds ['lion']. *)
Lemma add_regular_key_witness :
  HashSet.wf lion_set /\ regular (str "moon") /\
  HashSet.has (str "moon") (returned (HashSet.add (str "moon") lion_set) lion_set) = true /\
  HashSet.has (str "lion") (returned (HashSet.add (str "moon") lion_set) lion_set) = true /\
  HashSet.length (returned (HashSet.add (str "moon") lion_set) lion_set) = 2.
Proof.
  assert (R : regular (str "moon")) by (vm_compute; reflexivity).
  assert (H : HashSet.add (str "moon") lion_set
              = Returned (returned (HashSet.add (str "moon") lion_set) lion_set))
    by (vm_compute; reflexivity).
  destruct (add_regular_key (str "moon") lion_set _ wf_lion_set R H)
    as (_ & Hh & Ho & Hl).
  split; [exact wf_lion_set|]. split; [exact R|]. split; [exact Hh|]. split.
  - rewrite Ho; [vm_compute; reflexivity | vm_compute; discriminate].
  - rewrite Hl. vm_compute. reflexivity.
Defined.

(** X16 ([HashSet.remove]).  In every set: [remove(k)] of a present key
    returns true, after it [has(k)] is false and [length()] is one less;
    [remove(k)] of an absent key returns false and changes nothing; and
    either way [has] answers for every other key as before. *)
Theorem set_remove_present_or_absent (k : jsstring) (s : HashSet.t) :
  (HashSet.has k s = true ->
   fst (HashSet.remove k s) = true /\
   HashSet.has k (snd (HashSet.remove k s)) = false /\
   HashSet.length (snd (HashSet.remove k s)) = HashSet.length s - 1) /\
  (HashSet.has k s = false -> HashSet.remove k s = (false, s)) /\
  (forall k', k' <> k -> HashSet.has k' (snd (HashSet.remove k s)) = HashSet.has k' s).
Proof.
  split; [apply hs_remove_gone|]. split; [apply HashSetAny.hs_remove_absent|].
  intros k'. apply HashSetAny.remove_has_other.
Qed.

(** X17 ([HashSet.keys]).  On a well-formed set [keys()] lists exactly the
    keys for which [has] is true, each of them once, and as many as
    [length()] says. *)
Theorem set_keys_are_the_elements (s : HashSet.t) :
  HashSet.wf s ->
  NoDup (HashSet.keys s) /\
  (forall k, k ∈ HashSet.keys s <-> HashSet.has k s = true) /\
  Z.of_nat (List.length (HashSet.keys s)) = HashSet.length s.
Proof.
  intros Hwf. split; [apply HashSetWf.hs_wf_NoDup_keys, Hwf|]. split.
  - intros k. apply HashSetWf.hs_wf_elem_keys, Hwf.
  - destruct Hwf as (_ & _ & _ & Hs). unfold HashSet.length. now rewrite Hs.
Qed.

(** The set that holds ['lion']. *)
Lemma set_keys_are_the_elements_witness :
  HashSet.wf lion_set /\ HashSet.keys lion_set = [str "lion"] /\
  (str "lion" ∈ HashSet.keys lion_set <-> HashSet.has (str "lion") lion_set = true).
Proof.
  destruct (set_keys_are_the_elements lion_set wf_lion_set) as (_ & Hk & _).
  split; [exact wf_lion_set|]. split; [vm_compute; reflexivity | apply Hk].
Defined.

(** X18 ([add] at the bound of [new Array]).  When the key is absent, the
    load factor is exceeded once the size is incremented, and the
    capacity is 2^31 or more, [_resize] asks for an array of
    [2 * capacity >= 2^32] slots and [add] throws a [RangeError]. *)
Theorem add_throws_at_array_bound (k : jsstring) (s : HashSet.t) :
  HashSet.has k s = false ->
  should_resize (HashSet.size s + 1) (HashSet.capacity s) (HashSet.loadFactor s) = true ->
  (2 ^ 31 <= HashSet.capacity s)%N ->
  HashSet.add k s = RangeError.
Proof.
  intros Hh Hs Hc. apply (HashSetAny.add_fuel_RangeError 33 k s Hh Hs Hc).
Qed.

(** [new HashSet(2 ** 31, 1e-10).add('a')] *)
Lemma add_throws_at_array_bound_witness :
  HashSet.new 2147483648 tiny_load = Returned wide_set /\
  HashSet.add (str "a") wide_set = RangeError.
Proof.
  split; [reflexivity|].
  apply (add_throws_at_array_bound (str "a") wide_set).
  - reflexivity.
  - vm_compute. reflexivity.
  - vm_compute. discriminate.
Defined.

(** X19 ([HashSet.clear]).  On a set made by the constructor and by calls
    of [add], [remove] and [clear] that all returned, [clear()] returns,
    and the set it leaves has the same capacity and load factor,
    [length()] 0, no keys, and no key present for [has].  When a further
    [add] throws, the set it leaves has a capacity of 2^32 or more, and
    [clear()] on that set throws [RangeError]. *)
Theorem set_clear_after_returning_calls (c : Z) (lf : number) (ops : list set_op)
        (s0 s : HashSet.t) :
  HashSet.new c lf = Returned s0 ->
  for_of set_call ops s0 = Returned s ->
  (exists s',
      HashSet.clear s = Returned s' /\
      HashSet.length s' = 0 /\
      HashSet.capacity s' = HashSet.capacity s /\
      HashSet.loadFactor s' = HashSet.loadFactor s /\
      HashSet.keys s' = [] /\
      forall k, HashSet.has k s' = false) /\
  (forall k s1,
      HashSet.add_completion k s = Throw s1 ->
      (2 ^ 32 <= HashSet.capacity s1)%N /\ HashSet.clear s1 = RangeError).
Proof.
  intros Hnew Hrun.
  assert (Hr : HashSet.reachable s).
  { apply (HashSetThrow.set_calls_reachable ops s0 s); [|exact Hrun].
    apply (HashSet.reach_new c lf s0 Hnew). }
  pose proof (HashSetAny.hs_reachable_capacity s Hr) as Hc. split.
  - exists (HashSet.mk ∅ 0 (HashSet.capacity s) (HashSet.loadFactor s)).
    split; [apply HashSetAny.hs_clear_Returned, Hc|].
    split; [reflexivity|]. split; [reflexivity|]. split; [reflexivity|].
    split; [apply HashSetWf.keys_empty|]. intros k. apply HashSetAny.has_empty.
  - intros k s1 Ht.
    pose proof (HashSetThrow.add_completion_fuel_Throw_capacity _ k s s1 Ht) as Hcap.
    split; [exact Hcap | apply HashSetThrow.hs_clear_RangeError, Hcap].
Qed.

(** [new HashSet(2 ** 31, 1e-10)], [remove('a')] and [clear()], which
    return; then [add('a')] throws, and [clear()] throws after it. *)
Lemma set_clear_after_returning_calls_witness :
  HashSet.new 2147483648 tiny_load = Returned wide_set /\
  for_of set_call [OpDelete (str "a"); OpReset] wide_set = Returned wide_set /\
  (exists s', HashSet.clear wide_set = Returned s' /\ HashSet.length s' = 0) /\
  HashSet.add_completion (str "a") wide_set = Throw thrown_set /\
  HashSet.clear thrown_set = RangeError.
Proof.
  assert (Hnew : HashSet.new 2147483648 tiny_load = Returned wide_set) by reflexivity.
  assert (Hrun : for_of set_call [OpDelete (str "a"); OpReset] wide_set = Returned wide_set)
    by (vm_compute; reflexivity).
  destruct (set_clear_after_returning_calls 2147483648 tiny_load
              [OpDelete (str "a"); OpReset] wide_set wide_set Hnew Hrun)
    as [(s' & Hc & Hl & _) Ht].
  split; [exact Hnew|]. split; [exact Hrun|]. split.
  - exists s'. split; [exact Hc | exact Hl].
  - split; [exact wide_set_throws|].
    apply (Ht (str "a") thrown_set wide_set_throws).
Defined.

(** X20 (sets built from keys with integer hash codes).  A set made by
    [new HashSet(c, lf)] with [c > 0] and then any calls of [add],
    [remove] and [clear] that return, where every key given to [add] has
    an integer hash code, is well formed. *)
Theorem built_set_is_well_formed (c : Z) (lf : number) (ops : list set_op)
        (s0 s : HashSet.t) :
  0 < c -> HashSet.new c lf = Returned s0 ->
  Forall set_op_regular ops ->
  for_of set_call ops s0 = Returned s ->
  HashSet.wf s.
Proof.
  intros Hc Hnew Hops Hrun.
  apply (HashSetAny.set_calls_wf ops s0 s); [|exact Hops|exact Hrun].
  apply (HashSetRegular.hs_wf_new c lf s0 Hnew Hc).
Qed.

(** Two additions, a removal, a [clear] and an addition. *)
Lemma built_set_is_well_formed_witness :
  HashSet.wf
    (returned (for_of set_call
                 [OpAdd (str "a"); OpAdd (str "q"); OpDelete (str "a"); OpReset;
                  OpAdd (str "lion")]
                 default_set) default_set).
Proof.
  apply (built_set_is_well_formed 16 three_quarters
           [OpAdd (str "a"); OpAdd (str "q"); OpDelete (str "a"); OpReset;
            OpAdd (str "lion")] default_set).
  - lia.
  - reflexivity.
  - repeat constructor.
  - vm_compute. reflexivity.
Defined.

(** X21 (invariants after returning calls).  Whatever the keys, a set made
    by the constructor and by calls of [add], [remove] and [clear] that
    all returned has a capacity below 2^32, holds no key twice in a
    bucket, keeps every key in the bucket that its hash code selects, and
    its [length()] is the number of keys stored, the ones under non-index
    properties included.  The set left by an [add] that threw is not
    covered. *)
Theorem set_invariants_after_returning_calls (c : Z) (lf : number) (ops : list set_op)
        (s0 s : HashSet.t) :
  HashSet.new c lf = Returned s0 ->
  for_of set_call ops s0 = Returned s ->
  (HashSet.capacity s < 2 ^ 32)%N /\
  (forall i, NoDup (HashSet.bucket s i)) /\
  (forall i k, k ∈ HashSet.bucket s i -> HashSet.index_of k s = i) /\
  HashSet.length s = Z.of_nat (node_count (HashSet.storage s)).
Proof.
  intros Hnew Hrun.
  assert (Hr : HashSet.reachable s).
  { apply (HashSetThrow.set_calls_reachable ops s0 s); [|exact Hrun].
    apply (HashSet.reach_new c lf s0 Hnew). }
  split; [apply HashSetAny.hs_reachable_capacity, Hr|].
  apply (HashSetAny.hs_reachable_sound s Hr).
Qed.

(** ['a'.repeat(300)], stored under ["NaN"], and ['lion'] on a new set. *)
Lemma set_invariants_after_returning_calls_witness :
  HashSet.new 16 three_quarters = Returned default_set /\
  for_of set_call [OpAdd long_key; OpAdd (str "lion")] default_set
  = Returned (returned (for_of set_call [OpAdd long_key; OpAdd (str "lion")] default_set)
                       default_set) /\
  HashSet.length (returned (for_of set_call [OpAdd long_key; OpAdd (str "lion")] default_set)
                           default_set) = 2 /\
  node_count (HashSet.storage
                (returned (for_of set_call [OpAdd long_key; OpAdd (str "lion")] default_set)
                          default_set)) = 2%nat.
Proof.
  assert (Hnew : HashSet.new 16 three_quarters = Returned default_set) by reflexivity.
  assert (Hrun : for_of set_call [OpAdd long_key; OpAdd (str "lion")] default_set
                 = Returned (returned (for_of set_call [OpAdd long_key; OpAdd (str "lion")]
                                              default_set) default_set))
    by (vm_compute; reflexivity).
  destruct (set_invariants_after_returning_calls 16 three_quarters _ default_set _ Hnew Hrun)
    as (_ & _ & _ & Hl).
  split; [exact Hnew|]. split; [exact Hrun|].
  assert (H2 : HashSet.length
                 (returned (for_of set_call [OpAdd long_key; OpAdd (str "lion")] default_set)
                           default_set) = 2)
    by (vm_compute; reflexivity).
  split; [exact H2|]. rewrite H2 in Hl. lia.
Defined.

(** X22 ([add] then [remove]).  On a well-formed set, after [add(k)] of an
    absent key with an integer hash code has returned, [remove(k)]
    returns true and gives a set with the [length()] of the set before
    the [add] and the same answer of [has] for every key, also when the
    [add] resized the set. *)
Theorem add_then_remove_restores (k : jsstring) (s s' : HashSet.t) :
  HashSet.wf s -> regular k -> HashSet.has k s = false ->
  HashSet.add k s = Returned s' ->
  fst (HashSet.remove k s') = true /\
  HashSet.length (snd (HashSet.remove k s')) = HashSet.length s /\
  forall k', HashSet.has k' (snd (HashSet.remove k s')) = HashSet.has k' s.
Proof.
  intros Hwf Hk Habs H.
  destruct (HashSetWf.add_regular k s s' Hwf Hk H) as (_ & Hh & Ho & Hl).
  rewrite Habs in Hl.
  destruct (hs_remove_gone k s' Hh) as (Hf & Hg & Hlen).
  split; [exact Hf|]. split; [lia|]. intros k'.
  destruct (decide (k' = k)) as [->|Hne]; [congruence|].
  rewrite (HashSetAny.remove_has_other k k' s' Hne). apply Ho, Hne.
Qed.

(** ['moon'] added to the set that holds ['lion'], then removed. *)
Lemma add_then_remove_restores_witness :
  HashSet.wf lion_set /\ regular (str "moon") /\
  HashSet.has (str "moon") lion_set = false /\
  fst (HashSet.remove (str "moon")
         (returned (HashSet.add (str "moon") lion_set) lion_set)) = true /\
  HashSet.length
    (snd (HashSet.remove (str "moon")
            (returned (HashSet.add (str "moon") lion_set) lion_set))) = 1.
Proof.
  assert (R : regular (str "moon")) by (vm_compute; reflexivity).
  assert (A : HashSet.has (str "moon") lion_set = false) by (vm_compute; reflexivity).
  assert (H : HashSet.add (str "moon") lion_set
              = Returned (returned (HashSet.add (str "moon") lion_set) lion_set))
    by (vm_compute; reflexivity).
  destruct (add_then_remove_restores (str "moon") lion_set _ wf_lion_set R A H)
    as (Hf & Hl & _).
  split; [exact wf_lion_set|]. split; [exact R|]. split; [exact A|].
  split; [exact Hf|]. rewrite Hl. vm_compute. reflexivity.
Defined.

(** ** Hash codes and indices *)

(** X23 ([_getIndex]).  An index that is an array index is below the
    capacity; an integer hash code and a positive capacity always give
    one; and with capacity 0 the index is [NaN] whatever the hash
    code. *)
Theorem index_within_capacity (h : number) (c : N) :
  (forall i, _getIndex h c = Slot i -> (i < c)%N) /\
  (integral h = true -> (0 < c)%N -> exists i, _getIndex h c = Slot i) /\
  _getIndex h 0 = Named nan.
Proof.
  split; [intros i; apply _getIndex_Slot_lt|]. split.
  - intros Hi Hc. destruct (_getIndex_integral h c Hi Hc) as (i & Hs & _).
    exists i. exact Hs.
  - unfold _getIndex. destruct (SFabs h); reflexivity.
Qed.

(** X24 ([_getIndex] of an exact integer).  For an integer hash code [z]
    of magnitude below 2^53 and a positive capacity [c], the index is
    [|z| mod c]. *)
Theorem index_is_abs_mod (z : Z) (c : N) :
  - 2 ^ 53 < z < 2 ^ 53 -> (0 < c)%N ->
  _getIndex (num z) c = Slot (Z.to_N (Z.abs z) mod c).
Proof. apply _getIndex_num. Qed.

(** [Math.abs(-93029210) % 16] is 10. *)
Lemma index_is_abs_mod_witness : _getIndex (num (-93029210)) 16 = Slot 10.
Proof.
  apply (index_is_abs_mod (-93029210) 16).
  - lia.
  - lia.
Defined.

(** X25 ([hash]).  The hash code of a string is never negative and never
    [NaN]: it is [+0], a positive finite number or [+Infinity], so the
    [Math.abs] of [_getIndex] leaves it as it is. *)
Theorem hash_is_never_negative (key : jsstring) :
  is_nonneg (hash key) = true /\ SFabs (hash key) = hash key /\ hash key <> nan.
Proof.
  assert (H : is_nonneg (hash key) = true).
  { unfold hash. apply hash_fold_nonneg. apply num_nonneg. lia. }
  split; [exact H|]. destruct (hash key) as [[|]|[|]| |[|] ? ?]; try discriminate H.
  - split; [reflexivity | discriminate].
  - split; [reflexivity | discriminate].
  - split; [reflexivity | discriminate].
Qed.

(** ** main.js *)

(** X26 ([main.js]).  The script runs to its end and logs, in order,
    [13], [32], ['Glowing golden'], [true], [true] and [12]. *)
Theorem main_js_prints :
  main_js_log
  = Returned [VNumber (num 13); VNumber (num 32); VString (str "Glowing golden");
              VBoolean true; VBoolean true; VNumber (num 12)].
Proof. vm_compute. reflexivity. Qed.
